(** * Simplex tableau engine: a shallow embedding and its verification

    The development follows the two solver files of the repository:
    [simplex.py] (module [Simplex]) and [simplex_with_counts.py] (module
    [SimplexWithCounts]), and the input generators of
    [Utilities/input_gen_utils.py] that draw no random number (module
    [InputGenUtils]).

    Modelling choices.
    - Numbers.  The solver works on Python numbers (integers on input, the
      true division [/] makes them floats).  Tableau entries are modelled as
      exact rationals [Qc]; rounding, overflow to infinity and NaN are outside
      the model.  The only non-rational value the code manufactures itself,
      [float('inf')] in the ratio test, is modelled by [Infinity].
    - Lists.  A Python list is a Rocq [list]; [l[i]] and [l[i] = x] raise
      [IndexError] out of range.  Indices taken from the code are natural
      numbers; the negative literals [-1] and [-2] are modelled by
      [getitem_neg] / [setitem_neg].
    - Exceptions.  A call either returns a value or raises ([result]).
    - In-place mutation.  The tableau is threaded explicitly through the
      loops.  The rows of a tableau are distinct list objects (that is how
      the builder allocates them), so a write to one row never shows in
      another.  The caller's constraint matrix, which [simplex] extends in
      place, is part of the value a run gives back ([constraints_after]).
    - Loops.  [for] loops are folds with early exit on an exception; the
      [while] loop of the solver takes a fuel argument and reports
      [Looping] when the loop is still running after that many iterations. *)

From stdpp Require Import gmap list_numbers.
From Stdlib Require Import Znumtheory Sorted.
From Stdlib Require Import QArith Qcanon ZArith Lia Ascii String.
From stdpp Require Import base list strings numbers.

Local Open Scope Qc_scope.

(** ** The fragment of the Python runtime the solver uses *)

Module Py.

Inductive exn : Set :=
  | IndexError
  | ZeroDivisionError
  | ValueError
  | NameError.

Inductive result (A : Type) : Type :=
  | Returned (a : A)
  | Raised (e : exn).

Arguments Returned {A} a.
Arguments Raised {A} e.

#[global] Instance exn_eq_dec : EqDecision exn.
Proof. solve_decision. Defined.

#[global] Instance result_eq_dec {A} `{EqDecision A} : EqDecision (result A).
Proof. solve_decision. Defined.

#[global] Instance result_bind : MBind result := λ A B k m,
  match m with
  | Returned a => k a
  | Raised e => Raised e
  end.

#[global] Instance result_fmap : FMap result := λ A B f m,
  match m with
  | Returned a => Returned (f a)
  | Raised e => Raised e
  end.

(** [l[i]] for a non-negative index. *)
Definition getitem {A} (l : list A) (i : nat) : result A :=
  match l !! i with
  | Some x => Returned x
  | None => Raised IndexError
  end.

(** [l[i] = x] for a non-negative index. *)
Definition setitem {A} (l : list A) (i : nat) (x : A) : result (list A) :=
  if decide (i < length l)%nat then Returned (<[i:=x]> l) else Raised IndexError.

(** [l[-k]] for a literal [k >= 1]. *)
Definition getitem_neg {A} (l : list A) (k : nat) : result A :=
  if decide (1 ≤ k ≤ length l)%nat then getitem l (length l - k)
  else Raised IndexError.

(** [l[-k] = x] for a literal [k >= 1]. *)
Definition setitem_neg {A} (l : list A) (k : nat) (x : A) : result (list A) :=
  if decide (1 ≤ k ≤ length l)%nat then setitem l (length l - k) x
  else Raised IndexError.

(** The slice [l[:-k]].  For [k = 0] Python reads it as [l[:0]], the empty
    list. *)
Definition slice_until_neg {A} (l : list A) (k : nat) : list A :=
  match k with
  | O => []
  | S _ => take (length l - k) l
  end.

(** [range(n)] and [enumerate(l)]. *)
Definition range (n : nat) : list nat := seq 0 n.

Definition enumerate {A} (l : list A) : list (nat * A) :=
  zip (seq 0 (length l)) l.

(** A [for] loop over [xs] whose body transforms the state [s] or raises. *)
Fixpoint for_each {S X} (xs : list X) (body : X → S → result S) (s : S)
  : result S :=
  match xs with
  | [] => Returned s
  | x :: xs' =>
      match body x s with
      | Returned s' => for_each xs' body s'
      | Raised e => Raised e
      end
  end.

(** How far a [while] loop got: it left the loop (normally or by an
    exception), or it is still looping, in state [s], when the fuel ran out. *)
Inductive progress (S : Type) : Type :=
  | Done (r : result S)
  | Looping (s : S).

Arguments Done {S} r.
Arguments Looping {S} s.

#[global] Instance progress_eq_dec {S} `{EqDecision S}
  : EqDecision (progress S).
Proof. solve_decision. Defined.

(** A [while] loop, run for at most [fuel] iterations. *)
Fixpoint while {S} (fuel : nat) (cond : S → result bool)
    (body : S → result S) (s : S) : progress S :=
  match cond s with
  | Raised e => Done (Raised e)
  | Returned false => Done (Returned s)
  | Returned true =>
      match fuel with
      | O => Looping s
      | S fuel' =>
          match body s with
          | Raised e => Done (Raised e)
          | Returned s' => while fuel' cond body s'
          end
      end
  end.

(** The built-in [min] of a sequence: the first least element, [ValueError]
    on the empty sequence.  [ltb x y] is Python's [x < y]. *)
Fixpoint min_from {A} (ltb : A → A → bool) (best : A) (l : list A) : A :=
  match l with
  | [] => best
  | x :: l' => min_from ltb (if ltb x best then x else best) l'
  end.

Definition py_min {A} (ltb : A → A → bool) (l : list A) : result A :=
  match l with
  | [] => Raised ValueError
  | x :: l' => Returned (min_from ltb x l')
  end.

(** [l.index(x)], counting from [i]. *)
Fixpoint index_from (x : Qc) (l : list Qc) (i : nat) : result nat :=
  match l with
  | [] => Raised ValueError
  | y :: l' => if bool_decide (y = x) then Returned i else index_from x l' (S i)
  end.

Definition index (l : list Qc) (x : Qc) : result nat := index_from x l 0.

(** Comparison and true division of numbers. *)
Definition ltb (x y : Qc) : bool := bool_decide (x < y).

Definition div (x y : Qc) : result Qc :=
  if bool_decide (y = 0) then Raised ZeroDivisionError else Returned (x / y).

(** The first component of the pairs of the ratio test: a quotient or
    [float('inf')]. *)
Inductive quotient : Set :=
  | Finite (q : Qc)
  | Infinity.

Definition quotient_eqb (x y : quotient) : bool :=
  match x, y with
  | Finite a, Finite b => bool_decide (a = b)
  | Infinity, Infinity => true
  | _, _ => false
  end.

Definition quotient_ltb (x y : quotient) : bool :=
  match x, y with
  | Finite a, Finite b => ltb a b
  | Finite _, Infinity => true
  | Infinity, _ => false
  end.

(** [<] on the tuples [(quotient, row index)]: lexicographic. *)
Definition pair_ltb (x y : quotient * nat) : bool :=
  if quotient_eqb x.1 y.1 then bool_decide (x.2 < y.2)%nat
  else quotient_ltb x.1 y.1.

End Py.

Export Py.

(** A tableau: a list of rows.  [get_cell] is [t[i][j]], [set_cell] is
    [t[i][j] = x]. *)
Abbreviation tableau := (list (list Qc)).

Definition num (z : Z) : Qc := Qc_of_Z z.

Definition get_cell (t : tableau) (i j : nat) : result Qc :=
  row ← getitem t i; getitem row j.

Definition set_cell (t : tableau) (i j : nat) (x : Qc) : result tableau :=
  row ← getitem t i;
  row' ← setitem row j x;
  Returned (<[i:=row']> t).

(** What a call leaves behind: the caller's three argument objects as they
    are after the call, and how the call ended. *)
Record run (R : Type) : Type := {
  objective_after : list Qc;
  constraints_after : list (list Qc);
  bounds_after : list Qc;
  outcome : progress R
}.

Arguments objective_after {R} _.
Arguments constraints_after {R} _.
Arguments bounds_after {R} _.
Arguments outcome {R} _.

(** ** simplex.py *)

Module Simplex.

(** [find_pivot_column(s_tableau)], lines 121-125. *)
Definition find_pivot_column (s_tableau : tableau) : result nat :=
  last_row ← getitem_neg s_tableau 1;
  let bottom_row := slice_until_neg last_row 2 in
  m ← py_min ltb bottom_row;
  index bottom_row m.

(** One iteration of the loop of the ratio test, lines 135-141. *)
Definition quotient_body (pivot_col_index : nat) (ir : nat * list Qc)
    (quotients : list (quotient * nat)) : result (list (quotient * nat)) :=
  let '(i, row) := ir in
  x ← getitem row pivot_col_index;
  if ltb 0 x then
    rhs ← getitem_neg row 1;
    d ← getitem row pivot_col_index;
    q ← div rhs d;
    Returned (quotients ++ [(Finite q, i)])
  else
    Returned (quotients ++ [(Infinity, i)]).

(** [calculate_quotients_and_find_pivot_row(s_tableau, pivot_col_index)],
    lines 132-146. *)
Definition calculate_quotients_and_find_pivot_row (s_tableau : tableau)
    (pivot_col_index : nat) : result nat :=
  quotients ← for_each (enumerate (slice_until_neg s_tableau 1))
                 (quotient_body pivot_col_index) [];
  best ← py_min pair_ltb quotients;
  Returned best.2.

(** Line 160: [s_tableau[pivot_row_index][j] /= pivot_element]. *)
Definition normalize_body (pivot_row_index : nat) (pivot_element : Qc)
    (j : nat) (t : tableau) : result tableau :=
  x ← get_cell t pivot_row_index j;
  y ← div x pivot_element;
  set_cell t pivot_row_index j y.

(** Line 168: [row[j] -= factor * s_tableau[pivot_row_index][j]], [row]
    being row [i] of the tableau. *)
Definition eliminate_body (pivot_row_index i : nat) (factor : Qc)
    (j : nat) (t : tableau) : result tableau :=
  x ← get_cell t i j;
  y ← get_cell t pivot_row_index j;
  set_cell t i j (x - factor * y).

(** Lines 164-168, one row. *)
Definition eliminate_row (pivot_row_index pivot_col_index : nat)
    (i : nat) (t : tableau) : result tableau :=
  if decide (i ≠ pivot_row_index) then
    row ← getitem t i;
    factor ← getitem row pivot_col_index;
    for_each (range (length row)) (eliminate_body pivot_row_index i factor) t
  else Returned t.

(** [perform_pivoting(s_tableau, pivot_row_index, pivot_col_index)],
    lines 152-168.  The tableau is mutated in place; the model returns its
    final state. *)
Definition perform_pivoting (s_tableau : tableau)
    (pivot_row_index pivot_col_index : nat) : result tableau :=
  pivot_element ← get_cell s_tableau pivot_row_index pivot_col_index;
  row0 ← getitem s_tableau 0;
  t1 ← for_each (range (length row0))
         (normalize_body pivot_row_index pivot_element) s_tableau;
  for_each (range (length t1))
    (eliminate_row pivot_row_index pivot_col_index) t1.

(** Lines 182-184. *)
Definition slack_body (num_of_variables : nat) (c : list Qc)
    (i : nat) (t : tableau) : result tableau :=
  t1 ← set_cell t i (num_of_variables + i) 1;
  ci ← getitem c i;
  row ← getitem t1 i;
  row' ← setitem_neg row 1 ci;
  Returned (<[i:=row']> t1).

(** Line 188: [s_tableau[-1][i] = coef]. *)
Definition objective_body (ic : nat * Qc) (t : tableau) : result tableau :=
  let '(i, coef) := ic in
  last_row ← getitem_neg t 1;
  last_row' ← setitem last_row i coef;
  setitem_neg t 1 last_row'.

(** Lines 192-194. *)
Definition constraint_body (num_of_slack_variables : nat)
    (ic : nat * list Qc) (t : tableau) : result tableau :=
  let '(i, constraint) := ic in
  for_each (enumerate (slice_until_neg constraint num_of_slack_variables))
    (λ jc t', set_cell t' i jc.1 jc.2) t.

(** [construct_simplex_tableau(A, b, c)], lines 172-196. *)
Definition construct_simplex_tableau (A : list Qc) (b : list (list Qc))
    (c : list Qc) : result tableau :=
  let num_of_variables := length A in
  let num_of_slack_variables := length b in
  let num_of_columns := (num_of_variables + num_of_slack_variables + 2)%nat in
  let num_of_rows := (length b + 1)%nat in
  let t0 : tableau := replicate num_of_rows (replicate num_of_columns 0) in
  t1 ← for_each (range num_of_slack_variables)
         (slack_body num_of_variables c) t0;
  t2 ← for_each (enumerate A) objective_body t1;
  last_row ← getitem_neg t2 1;
  last_row' ← setitem_neg last_row 2 1;
  t3 ← setitem_neg t2 1 last_row';
  for_each (enumerate b) (constraint_body num_of_slack_variables) t3.

(** Line 63: the list [[1 if i == j else 0 for j in range(m)]]. *)
Definition slack_entries (m i : nat) : list Qc :=
  (λ j, if decide (i = j) then 1 else 0) <$> range m.

(** Lines 62-63: every row of the caller's constraint matrix is extended in
    place. *)
Definition add_slack_variables (b : list (list Qc)) : list (list Qc) :=
  let num_of_slack_variables := length b in
  foldl (λ b' i, alter (λ row, row ++ slack_entries num_of_slack_variables i) i b')
        b (range num_of_slack_variables).

(** Line 98: the loop condition [min(s_tableau[-1][:-2]) < 0]. *)
Definition not_optimal (s_tableau : tableau) : result bool :=
  last_row ← getitem_neg s_tableau 1;
  m ← py_min ltb (slice_until_neg last_row 2);
  Returned (ltb m 0).

(** The name [plot_for_gif] of lines 99-100.  Nothing binds it: it is no
    parameter or local of [simplex], no global of the module, and none of
    the names the two star imports bring in.  Evaluating it raises
    [NameError]. *)
Definition plot_for_gif : result unit := Raised NameError.

(** Lines 99-101: the loop body.  The argument list of the first call is
    evaluated before the call, so the unbound name is what the iteration
    ends on; the three steps after it are never reached. *)
Definition convergence_body (s_tableau : tableau) : result tableau :=
  _ ← plot_for_gif;
  pivot_col_index ← find_pivot_column s_tableau;
  pivot_row_index ←
    calculate_quotients_and_find_pivot_row s_tableau pivot_col_index;
  perform_pivoting s_tableau pivot_row_index pivot_col_index.

(** [simplex(A, b, c)], lines 34-115, with [print_steps] at its default
    [False].  What is printed is not modelled.  Line 55 binds the local
    name [A] to a new list and leaves the caller's list alone; lines 62-63
    write into the caller's rows; [c] is only read. *)
Definition simplex (fuel : nat) (A : list Qc) (b : list (list Qc))
    (c : list Qc) : run tableau :=
  let A' := Qcopp <$> A in
  let b' := add_slack_variables b in
  {| objective_after := A;
     constraints_after := b';
     bounds_after := c;
     outcome :=
       match construct_simplex_tableau A' b' c with
       | Raised e => Done (Raised e)
       | Returned s_tableau => while fuel not_optimal convergence_body s_tableau
       end |}.

End Simplex.

(** ** simplex_with_counts.py *)

Module SimplexWithCounts.

(** The [counts] dictionary: five running totals. *)
Record counts : Set := {
  comparisons : Z;
  assignments : Z;
  arithmetic : Z;
  accesses : Z;
  func_calls : Z
}.

#[global] Instance counts_eq_dec : EqDecision counts.
Proof. solve_decision. Defined.

Definition no_counts : counts :=
  {| comparisons := 0; assignments := 0; arithmetic := 0; accesses := 0;
     func_calls := 0 |}.

(** [counts['comparisons'] += n] and its four siblings. *)
Definition add_comparisons (n : Z) (k : counts) : counts :=
  {| comparisons := comparisons k + n; assignments := assignments k;
     arithmetic := arithmetic k; accesses := accesses k;
     func_calls := func_calls k |}.

Definition add_assignments (n : Z) (k : counts) : counts :=
  {| comparisons := comparisons k; assignments := assignments k + n;
     arithmetic := arithmetic k; accesses := accesses k;
     func_calls := func_calls k |}.

Definition add_arithmetic (n : Z) (k : counts) : counts :=
  {| comparisons := comparisons k; assignments := assignments k;
     arithmetic := arithmetic k + n; accesses := accesses k;
     func_calls := func_calls k |}.

Definition add_accesses (n : Z) (k : counts) : counts :=
  {| comparisons := comparisons k; assignments := assignments k;
     arithmetic := arithmetic k; accesses := accesses k + n;
     func_calls := func_calls k |}.

Definition add_func_calls (n : Z) (k : counts) : counts :=
  {| comparisons := comparisons k; assignments := assignments k;
     arithmetic := arithmetic k; accesses := accesses k;
     func_calls := func_calls k + n |}.

(** [find_pivot_column_w_counts(s_tableau, counts)], lines 65-80. *)
Definition find_pivot_column_w_counts (s_tableau : tableau) (k : counts)
  : result (nat * counts) :=
  last_row ← getitem_neg s_tableau 1;
  let bottom_row := slice_until_neg last_row 2 in
  let k := add_accesses (Z.of_nat (length last_row) - 2) k in
  let k := add_assignments 1 k in
  min_value ← py_min ltb bottom_row;
  let k := add_func_calls 1 k in
  let k := add_assignments 1 k in
  let k := add_accesses 1 k in
  pivot_col_index ← index bottom_row min_value;
  let k := add_func_calls 1 k in
  let k := add_assignments 1 k in
  Returned (pivot_col_index, k).

(** One iteration of the loop of the ratio test, lines 87-103. *)
Definition quotient_body_w_counts (pivot_col_index : nat)
    (ir : nat * list Qc) (s : list (quotient * nat) * counts)
  : result (list (quotient * nat) * counts) :=
  let '(i, row) := ir in
  let '(quotients, k) := s in
  let k := add_comparisons 1 k in
  let k := add_accesses 1 k in
  x ← getitem row pivot_col_index;
  if ltb 0 x then
    let k := add_comparisons 1 k in
    let k := add_accesses 2 k in
    let k := add_arithmetic 1 k in
    let k := add_assignments 1 k in
    rhs ← getitem_neg row 1;
    d ← getitem row pivot_col_index;
    q ← div rhs d;
    Returned (quotients ++ [(Finite q, i)], k)
  else
    let k := add_comparisons 1 k in
    let k := add_assignments 1 k in
    Returned (quotients ++ [(Infinity, i)], k).

(** [calculate_quotients_and_find_pivot_row_w_counts], lines 83-112. *)
Definition calculate_quotients_and_find_pivot_row_w_counts
    (s_tableau : tableau) (pivot_col_index : nat) (k : counts)
  : result (nat * counts) :=
  let k := add_assignments 1 k in
  '(quotients, k) ← for_each (enumerate (slice_until_neg s_tableau 1))
                      (quotient_body_w_counts pivot_col_index) ([], k);
  let k := add_comparisons (Z.of_nat (length quotients) - 1) k in
  let k := add_func_calls 1 k in
  best ← py_min pair_ltb quotients;
  let k := add_assignments 1 k in
  Returned (best.2, k).

(** Lines 120-126, one iteration. *)
Definition normalize_body_w_counts (pivot_row_index : nat)
    (pivot_element : Qc) (j : nat) (s : tableau * counts)
  : result (tableau * counts) :=
  let '(t, k) := s in
  let k := add_comparisons 1 k in
  let k := add_accesses 1 k in
  let k := add_accesses 2 k in
  x ← get_cell t pivot_row_index j;
  y ← div x pivot_element;
  t' ← set_cell t pivot_row_index j y;
  let k := add_arithmetic 1 k in
  let k := add_assignments 1 k in
  Returned (t', k).

(** Lines 138-143, one iteration. *)
Definition eliminate_body_w_counts (pivot_row_index i : nat) (factor : Qc)
    (j : nat) (s : tableau * counts) : result (tableau * counts) :=
  let '(t, k) := s in
  let k := add_func_calls 1 k in
  let k := add_accesses 4 k in
  x ← get_cell t i j;
  y ← get_cell t pivot_row_index j;
  t' ← set_cell t i j (x - factor * y);
  let k := add_arithmetic 2 k in
  let k := add_assignments 1 k in
  Returned (t', k).

(** Lines 129-143, one row. *)
Definition eliminate_row_w_counts (pivot_row_index pivot_col_index : nat)
    (i : nat) (s : tableau * counts) : result (tableau * counts) :=
  let '(t, k) := s in
  let k := add_comparisons 1 k in
  if decide (i ≠ pivot_row_index) then
    let k := add_comparisons 1 k in
    let k := add_accesses 1 k in
    row ← getitem t i;
    factor ← getitem row pivot_col_index;
    let k := add_assignments 1 k in
    for_each (range (length row))
      (eliminate_body_w_counts pivot_row_index i factor) (t, k)
  else Returned (t, k).

(** [perform_pivoting_w_counts], lines 115-145: the dense executor. *)
Definition perform_pivoting_w_counts (s_tableau : tableau)
    (pivot_row_index pivot_col_index : nat) (k : counts)
  : result (tableau * counts) :=
  pivot_element ← get_cell s_tableau pivot_row_index pivot_col_index;
  let k := add_accesses 2 k in
  let k := add_assignments 1 k in
  row0 ← getitem s_tableau 0;
  s1 ← for_each (range (length row0))
         (normalize_body_w_counts pivot_row_index pivot_element)
         (s_tableau, k);
  for_each (range (length s1.1))
    (eliminate_row_w_counts pivot_row_index pivot_col_index) s1.

(** Lines 155-163, one iteration of the sparse normalisation. *)
Definition sparse_normalize_body_w_counts (pivot_row_index : nat)
    (pivot_element : Qc) (j : nat) (s : tableau * counts)
  : result (tableau * counts) :=
  let '(t, k) := s in
  let k := add_comparisons 1 k in
  let k := add_accesses 1 k in
  x ← get_cell t pivot_row_index j;
  if bool_decide (x ≠ 0) then
    let k := add_accesses 1 k in
    x' ← get_cell t pivot_row_index j;
    y ← div x' pivot_element;
    t' ← set_cell t pivot_row_index j y;
    let k := add_arithmetic 1 k in
    let k := add_assignments 1 k in
    Returned (t', k)
  else Returned (t, k).

(** Lines 175-180, one iteration. *)
Definition sparse_eliminate_body_w_counts (pivot_row_index i : nat)
    (factor : Qc) (j : nat) (s : tableau * counts)
  : result (tableau * counts) :=
  let '(t, k) := s in
  y ← get_cell t pivot_row_index j;
  if bool_decide (y ≠ 0) then
    let k := add_accesses 3 k in
    x ← get_cell t i j;
    y' ← get_cell t pivot_row_index j;
    t' ← set_cell t i j (x - factor * y');
    let k := add_arithmetic 2 k in
    let k := add_assignments 1 k in
    Returned (t', k)
  else Returned (t, k).

(** Lines 166-180, one row.  The test of line 169 is a short-circuit
    [and]: the cell is read only when [i] is not the pivot row. *)
Definition sparse_eliminate_row_w_counts
    (pivot_row_index pivot_col_index : nat) (i : nat) (s : tableau * counts)
  : result (tableau * counts) :=
  let '(t, k) := s in
  let k := add_comparisons 1 k in
  if decide (i ≠ pivot_row_index) then
    f ← get_cell t i pivot_col_index;
    if bool_decide (f ≠ 0) then
      let k := add_comparisons 1 k in
      let k := add_accesses 1 k in
      factor ← get_cell t i pivot_col_index;
      let k := add_assignments 1 k in
      row0 ← getitem t 0;
      for_each (range (length row0))
        (sparse_eliminate_body_w_counts pivot_row_index i factor) (t, k)
    else Returned (t, k)
  else Returned (t, k).

(** [perform_sparse_pivoting_w_counts], lines 149-182: the sparse
    executor. *)
Definition perform_sparse_pivoting_w_counts (s_tableau : tableau)
    (pivot_row_index pivot_col_index : nat) (k : counts)
  : result (tableau * counts) :=
  pivot_element ← get_cell s_tableau pivot_row_index pivot_col_index;
  let k := add_accesses 2 k in
  let k := add_assignments 1 k in
  row0 ← getitem s_tableau 0;
  s1 ← for_each (range (length row0))
         (sparse_normalize_body_w_counts pivot_row_index pivot_element)
         (s_tableau, k);
  for_each (range (length s1.1))
    (sparse_eliminate_row_w_counts pivot_row_index pivot_col_index) s1.

(** Lines 200-206. *)
Definition slack_body_w_counts (num_of_variables : nat) (c : list Qc)
    (i : nat) (s : tableau * counts) : result (tableau * counts) :=
  let '(t, k) := s in
  let k := add_comparisons 1 k in
  t1 ← set_cell t i (num_of_variables + i) 1;
  ci ← getitem c i;
  row ← getitem t1 i;
  row' ← setitem_neg row 1 ci;
  let k := add_assignments 2 k in
  let k := add_accesses 5 k in
  let k := add_arithmetic 1 k in
  Returned (<[i:=row']> t1, k).

(** Lines 208-212. *)
Definition objective_body_w_counts (ic : nat * Qc) (s : tableau * counts)
  : result (tableau * counts) :=
  let '(i, coef) := ic in
  let '(t, k) := s in
  let k := add_comparisons 1 k in
  last_row ← getitem_neg t 1;
  last_row' ← setitem last_row i coef;
  t' ← setitem_neg t 1 last_row';
  let k := add_assignments 1 k in
  let k := add_accesses 2 k in
  Returned (t', k).

(** Lines 220-224, one iteration. *)
Definition coefficient_body_w_counts (i : nat) (jc : nat * Qc)
    (s : tableau * counts) : result (tableau * counts) :=
  let '(t, k) := s in
  let k := add_comparisons 1 k in
  t' ← set_cell t i jc.1 jc.2;
  let k := add_assignments 1 k in
  let k := add_accesses 2 k in
  Returned (t', k).

(** Lines 218-224, one constraint. *)
Definition constraint_body_w_counts (num_of_slack_variables : nat)
    (ic : nat * list Qc) (s : tableau * counts) : result (tableau * counts) :=
  let '(i, constraint) := ic in
  let '(t, k) := s in
  let k := add_comparisons 1 k in
  for_each (enumerate (slice_until_neg constraint num_of_slack_variables))
    (coefficient_body_w_counts i) (t, k).

(** [construct_simplex_tableau_w_counts(A, b, c, counts)], lines 185-226. *)
Definition construct_simplex_tableau_w_counts (A : list Qc)
    (b : list (list Qc)) (c : list Qc) (k : counts)
  : result (tableau * counts) :=
  let num_of_variables := length A in
  let num_of_slack_variables := length b in
  let num_of_columns := (num_of_variables + num_of_slack_variables + 2)%nat in
  let num_of_rows := (num_of_slack_variables + 1)%nat in
  let k := add_assignments 4 k in
  let k := add_func_calls 2 k in
  let k := add_arithmetic 3 k in
  let t0 : tableau := replicate num_of_rows (replicate num_of_columns 0) in
  let k := add_assignments 1 k in
  let k := add_arithmetic (Z.of_nat num_of_columns * Z.of_nat num_of_rows) k in
  s1 ← for_each (range num_of_slack_variables)
         (slack_body_w_counts num_of_variables c) (t0, k);
  '(t2, k) ← for_each (enumerate A) objective_body_w_counts s1;
  last_row ← getitem_neg t2 1;
  last_row' ← setitem_neg last_row 2 1;
  t3 ← setitem_neg t2 1 last_row';
  let k := add_assignments 1 k in
  let k := add_accesses 2 k in
  for_each (enumerate b) (constraint_body_w_counts num_of_slack_variables)
    (t3, k).

(** Lines 35-41: the caller's constraint matrix is extended in place, row by
    row. *)
Definition add_slack_variables_w_counts (b : list (list Qc)) (k : counts)
  : list (list Qc) * counts :=
  let num_of_slack_variables := length b in
  foldl (λ s i,
           let k := add_comparisons 1 s.2 in
           let b' := alter (λ row, row ++ Simplex.slack_entries
                                             num_of_slack_variables i) i s.1 in
           let k := add_arithmetic (Z.of_nat num_of_slack_variables) k in
           let k := add_comparisons 1 k in
           let k := add_assignments 1 k in
           let k := add_accesses (Z.of_nat num_of_slack_variables + 1) k in
           (b', k))
        (b, k) (range num_of_slack_variables).

(** The state of the solver loop: the tableau, the counters, and the lines
    printed so far. *)
Record solver_state : Type := {
  st_tableau : tableau;
  st_counts : counts;
  st_printed : list string
}.

(** The message of line 60; [dquote] is the double-quote character. *)
Definition dquote : string := String "034"%char EmptyString.

Definition matrix_type_message : string :=
  "Matrix type falsely specified. Allowed values are " +:+ dquote +:+
  "sparse" +:+ dquote +:+ " and " +:+ dquote +:+ "dense" +:+ dquote.

(** Line 47: the loop condition. *)
Definition not_optimal_w_counts (s : solver_state) : result bool :=
  Simplex.not_optimal (st_tableau s).

(** Lines 48-60: the loop body. *)
Definition convergence_body_w_counts (matrix : string) (s : solver_state)
  : result solver_state :=
  let t := st_tableau s in
  let k := st_counts s in
  let k := add_comparisons 1 k in
  let k := add_func_calls 1 k in
  last_row ← getitem_neg t 1;
  let k := add_accesses (Z.of_nat (length last_row) - 2) k in
  '(pivot_col_index, k) ← find_pivot_column_w_counts t k;
  '(pivot_row_index, k) ←
     calculate_quotients_and_find_pivot_row_w_counts t pivot_col_index k;
  if decide (matrix = "dense") then
    '(t', k) ← perform_pivoting_w_counts t pivot_row_index pivot_col_index k;
    Returned {| st_tableau := t'; st_counts := k;
                st_printed := st_printed s |}
  else if decide (matrix = "sparse") then
    '(t', k) ← perform_sparse_pivoting_w_counts t pivot_row_index
                 pivot_col_index k;
    Returned {| st_tableau := t'; st_counts := k;
                st_printed := st_printed s |}
  else
    Returned {| st_tableau := t; st_counts := k;
                st_printed := st_printed s ++ [matrix_type_message] |}.

(** [simplex_w_counts(A, b, c, func, matrix)], lines 15-62.  The defaults
    are [func='max'] and [matrix='dense'].  When the call returns, it
    returns the pair of [st_tableau] and [st_counts] of the final state. *)
Definition simplex_w_counts (fuel : nat) (A : list Qc) (b : list (list Qc))
    (c : list Qc) (func matrix : string) : run solver_state :=
  let k := no_counts in
  let k := add_assignments 1 k in
  let k := add_func_calls 1 k in
  let '(A', k) :=
    if decide (func = "max") then
      let k := add_comparisons 1 k in
      let A' := Qcopp <$> A in
      let k := add_arithmetic (Z.of_nat (length A')) k in
      let k := add_assignments 1 k in
      (A', k)
    else (A, k) in
  let '(b', k) := add_slack_variables_w_counts b k in
  let k := add_func_calls 1 k in
  {| objective_after := A;
     constraints_after := b';
     bounds_after := c;
     outcome :=
       match construct_simplex_tableau_w_counts A' b' c k with
       | Raised e => Done (Raised e)
       | Returned (s_tableau, k) =>
           let k := add_assignments 1 k in
           while fuel not_optimal_w_counts (convergence_body_w_counts matrix)
             {| st_tableau := s_tableau; st_counts := k; st_printed := [] |}
       end |}.

End SimplexWithCounts.

(** ** Utilities/input_gen_utils.py

    The generators work on Python integers, which are unbounded: [Z].  Of
    the file only the functions that draw no random number are modelled. *)

Module InputGenUtils.

(** [range(n)] for an integer [n] (empty when [n <= 0]), [range(a, b)] on
    indices and on integers. *)
Definition range_to (n : Z) : list nat := range (Z.to_nat n).

Definition range_from (a b : nat) : list nat := seq a (b - a).

Definition range_Z (a b : Z) : list Z := seqZ a (b - a).

(** The text files of one helper directory.  The name of a file is fixed by
    the [max_val] it was written for, so files are looked up by it; a file
    holds one integer per line, written with [f"{prime}\n"] and read back
    with [int(line.strip())], so its content is a list of integers.  The
    directory is taken to exist and to be writable. *)
Definition files : Type := gmap Z (list Z).

(** [int(i / 2)] for [i > 1]: the true division is exact on integers below
    [2^53]. *)
Definition int_half (i : Z) : Z := (i `quot` 2)%Z.

(** Lines 46-48: whether the inner loop ends in [break]. *)
Definition has_divisor (i : Z) : bool :=
  existsb (λ j, (i `mod` j =? 0)%Z) (range_Z 2 (int_half i + 1)).

(** Lines 44-50: one iteration of the outer loop; the [else] of the inner
    [for] runs when it was not left by [break]. *)
Definition primes_body (primes : list Z) (i : Z) : list Z :=
  if bool_decide (1 < i)%Z then
    if has_divisor i then primes else primes ++ [i]
  else primes.

(** [generate_primes_in_range(min_val, max_val)], lines 33-57: the primes
    it returns, and the files it leaves. *)
Definition generate_primes_in_range (fs : files) (min_val max_val : Z)
  : list Z * files :=
  match fs !! max_val with
  | Some primes => (primes, fs)
  | None =>
      let primes := foldl primes_body [] (range_Z min_val max_val) in
      (primes, <[max_val := primes]> fs)
  end.

(** Lines 75-81.  The loop [while True] is left by [break] when [n] exceeds
    [max_val]: that test is the loop condition here. *)
Definition pseudoprime (x : Z) : Z := (x ^ 2 + x + 41)%Z.

Definition pseudoprimes_cond (max_val : Z) (s : Z * list Z) : result bool :=
  Returned (negb (bool_decide (max_val < pseudoprime s.1)%Z)).

Definition pseudoprimes_body (min_val : Z) (s : Z * list Z)
  : result (Z * list Z) :=
  let '(x, pseudoprimes) := s in
  let n := pseudoprime x in
  let pseudoprimes :=
    if bool_decide (min_val ≤ n)%Z then pseudoprimes ++ [n]
    else pseudoprimes in
  Returned ((x + 1)%Z, pseudoprimes).

(** [generate_pseudoprimes_in_range(min_val, max_val)], lines 65-89. *)
Definition generate_pseudoprimes_in_range (fuel : nat) (fs : files)
    (min_val max_val : Z) : progress (list Z * files) :=
  match fs !! max_val with
  | Some pseudoprimes => Done (Returned (pseudoprimes, fs))
  | None =>
      match while fuel (pseudoprimes_cond max_val)
              (pseudoprimes_body min_val) (0%Z, []) with
      | Done (Returned (_, pseudoprimes)) =>
          Done (Returned (pseudoprimes, <[max_val := pseudoprimes]> fs))
      | Done (Raised e) => Done (Raised e)
      | Looping s => Looping (s.2, fs)
      end
  end.

(** Lines 160-163: [row[j] = min(value, max_val)]. *)
Definition geometric_cell_body (min_val max_val : Z) (i j : nat)
    (row : list Z) : result (list Z) :=
  let value := (min_val * 2 ^ Z.of_nat (i + j))%Z in
  setitem row j (Z.min value max_val).

(** Lines 158-164: one row of the constraint matrix. *)
Definition geometric_row_body (variables_n min_val max_val : Z) (i : nat)
    (b : list (list Z)) : result (list (list Z)) :=
  let row := replicate (Z.to_nat variables_n) min_val in
  row ← for_each (range_to variables_n)
          (geometric_cell_body min_val max_val i) row;
  Returned (b ++ [row]).

(** [generate_geometric_simplex_input(inequalities_n, variables_n, min_val,
    max_val)], lines 153-169.  The bounds [c] are built over
    [range(variables_n)], as in the source. *)
Definition generate_geometric_simplex_input
    (inequalities_n variables_n min_val max_val : Z)
  : result (list Z * list (list Z) * list Z) :=
  let A := (λ i : nat, Z.min (min_val * 2 ^ Z.of_nat i) max_val)
           <$> range_to variables_n in
  b ← for_each (range_to inequalities_n)
        (geometric_row_body variables_n min_val max_val) [];
  let c := (λ i : nat, Z.min (min_val * 2 ^ (Z.of_nat i + 1) - 1) max_val)
           <$> range_to variables_n in
  Returned (A, b, c).

(** Lines 318-324: the inner loops, [b[i][j] = 0] for the [j] of one row. *)
Definition zero_cells (i : nat) (js : list nat) (b : list (list Qc))
  : result (list (list Qc)) :=
  for_each js (λ j b, set_cell b i j 0) b.

(** [make_diagonal_zeros(b, above_diagonal)], lines 313-326.  The matrix is
    changed in place and handed back: what is returned is the caller's [b].
    (What the caller's rows hold after a call that raised is not
    modelled.) *)
Definition make_diagonal_zeros (b : list (list Qc)) (above_diagonal : bool)
  : result (list (list Qc)) :=
  let no_constraints := length b in
  row0 ← getitem b 0;
  let no_variables := length row0 in
  if above_diagonal then
    for_each (range no_constraints)
      (λ i b, zero_cells i (range_from (i + 1) no_variables) b) b
  else
    for_each (range_from 1 no_constraints)
      (λ i b, zero_cells i (range (i `min` no_variables)) b) b.

End InputGenUtils.

Import Simplex SimplexWithCounts InputGenUtils.

(** * Specification vocabulary *)

(** Two results agree up to [R]: both return, with related values, or both
    raise the same exception. *)
Definition result_rel {S T} (R : S → T → Prop) (x : result S) (y : result T)
  : Prop :=
  match x, y with
  | Returned a, Returned b => R a b
  | Raised e, Raised e' => e = e'
  | _, _ => False
  end.

(** An instrumented result [x] erases to [y]: without its counters it is
    [y], and it raises exactly when [y] does. *)
Definition erases {A B} (x : result (A * B)) (y : result A) : Prop :=
  fst <$> x = y.

(** Every row has [ncols] entries. *)
Definition rectangular (ncols : nat) (t : tableau) : Prop :=
  Forall (λ row, length row = ncols) t.

(** Entry [(i, j)], and the right-hand side and ratio of row [i]; [0]
    stands in for a cell that does not exist. *)
Definition cell (row : list Qc) (j : nat) : Qc := default 0 (row !! j).

Definition entry (t : tableau) (i j : nat) : Qc :=
  cell (default [] (t !! i)) j.

Definition rhs (t : tableau) (i : nat) : Qc :=
  let row := default [] (t !! i) in cell row (length row - 1).


(** The index of the objective row, which is also the number of constraint
    rows. *)
Definition objective_row (t : tableau) : nat := (length t - 1)%nat.

(** The objective-row entries the column selector scans. *)
Definition scanned (t : tableau) : list Qc :=
  slice_until_neg (default [] (t !! objective_row t)) 2.

(** The pair the ratio test records for a row. *)
Definition quotient_of (k : nat) (row : list Qc) : quotient :=
  if ltb 0 (cell row k) then Finite (cell row (length row - 1) / cell row k)
  else Infinity.

(** The tableau built for: maximise [3 x1 + 2 x2] subject to
    [x1 + x2 <= 4] and [x1 + 3 x2 <= 6]. *)
Definition sample_tableau : tableau :=
  [ [num 1; num 1; num 1; num 0; num 0; num 4];
    [num 1; num 3; num 0; num 1; num 0; num 6];
    [num (-3); num (-2); num 0; num 0; num 1; num 0] ].

(** How a run ended, as booleans. *)
Definition still_looping {S} (p : progress S) : bool :=
  match p with Looping _ => true | Done _ => false end.

Definition has_raised {S} (p : progress S) : bool :=
  match p with Done (Raised _) => true | _ => false end.

Definition has_returned {S} (p : progress S) : bool :=
  match p with Done (Returned _) => true | _ => false end.

(** The tableau built for: maximise [x1] subject to [-x1 <= 1]. *)
Definition unbounded_tableau : tableau :=
  [ [num (-1); num 1; num 0; num 1];
    [num (-1); num 0; num 1; num 0] ].

(** Two loops got equally far, up to [R]. *)
Definition progress_rel {S T} (R : S → T → Prop) (p : progress S)
    (q : progress T) : Prop :=
  match p, q with
  | Done x, Done y => result_rel R x y
  | Looping s, Looping t => R s t
  | _, _ => False
  end.


(** Two states of an instrumented loop that differ at most in the counters. *)
Definition same_value {A} (s1 s2 : A * counts) : Prop := s1.1 = s2.1.

(** Two solver states that differ at most in the counters. *)
Definition same_tableau (s1 s2 : solver_state) : Prop :=
  st_tableau s1 = st_tableau s2 ∧ st_printed s1 = st_printed s2.

(** The constraint matrix with row [i] of the [m]×[m] identity appended to
    its row [i]. *)
Definition with_slack_columns (b : list (list Qc)) : list (list Qc) :=
  imap (λ i row, row ++ slack_entries (length b) i) b.

(** The tableau built for: maximise [x1] subject to [x1 <= 5]. *)
Definition single_tableau : tableau :=
  [ [num 1; num 1; num 0; num 5];
    [num (-1); num 0; num 1; num 0] ].

(** [rewritten a l g]: the list [l] after its first [a] cells were replaced,
    cell [j] by [g j] of its old content. *)
Definition rewritten {A} (a : nat) (l : list A) (g : nat → A → A) : list A :=
  imap g (take a l) ++ drop a l.

(** The pivot row after normalisation, and the whole tableau after the
    pivot on [(r, k)]. *)
Definition normalized_row (t : tableau) (r k : nat) : list Qc :=
  (λ x, x / entry t r k) <$> default [] (t !! r).

Definition eliminated_row (prow : list Qc) (k : nat) (row : list Qc)
  : list Qc :=
  imap (λ j x, x - cell row k * cell prow j) row.

Definition pivoted (t : tableau) (r k : nat) : tableau :=
  imap (λ i row, if decide (i = r) then normalized_row t r k
                 else eliminated_row (normalized_row t r k) k row) t.

(** The instrumented sparse loops are compared with the uninstrumented dense
    loops of [simplex.py]; the states agree on the tableau, which stays a
    grid of [n] rows and [ncols] columns. *)
Definition sparse_sim (ncols n : nat) (s : tableau * counts) (t : tableau)
  : Prop :=
  s.1 = t ∧ rectangular ncols t ∧ length t = n.

(** [n] rows of [ncols] entries each. *)
Definition grid_shape (ncols n : nat) (t : tableau) : Prop :=
  rectangular ncols t ∧ length t = n.


(** The tableau with [rows] rows and [cols] columns whose entry [(i, j)] is
    [f i j]. *)
Definition grid (rows cols : nat) (f : nat → nat → Qc) : tableau :=
  (λ i, f i <$> seq 0 cols) <$> seq 0 rows.

(** [f] with the value at [(i, j)] replaced by [x]. *)
Definition upd (f : nat → nat → Qc) (i j : nat) (x : Qc) : nat → nat → Qc :=
  λ i' j', if decide (i' = i ∧ j' = j) then x else f i' j'.

(** The entries of the tableau under construction, stage by stage, for the
    objective row [A'] (already negated), the constraint matrix [b] (before
    the slack columns are appended) and the bounds [c]. *)
Section BuilderStages.

Variables (A' : list Qc) (b : list (list Qc)) (c : list Qc).

Let n := length A'.
Let m := length b.

(** Entry [(i, j)] after the first [a] iterations of the slack loop. *)
Definition after_slack (a : nat) : nat → nat → Qc := λ i j,
  if decide (i < a)%nat then
    if decide (j = n + m + 1)%nat then cell c i
    else if decide (j = n + i)%nat then 1 else 0
  else 0.

(** ... after the first [a] iterations of the objective loop ... *)
Definition after_objective (a : nat) : nat → nat → Qc := λ i j,
  if decide (i = m ∧ j < a)%nat then cell A' j else after_slack m i j.

(** ... after the Z entry was set ... *)
Definition after_marker : nat → nat → Qc :=
  upd (after_objective n) m (n + m) 1.

(** ... after the first [a] constraints were copied, and after the first
    [a'] coefficients of constraint [a] were. *)
Definition after_constraints (a : nat) : nat → nat → Qc := λ i j,
  if decide (i < a ∧ j < length (default [] (b !! i)))%nat
  then cell (default [] (b !! i)) j
  else after_marker i j.

Definition after_coefficients (a a' : nat) : nat → nat → Qc := λ i j,
  if decide (i = a ∧ j < a')%nat then cell (default [] (b !! i)) j
  else after_constraints a i j.

(** Entry [(i, j)] of the finished tableau. *)
Definition built : nat → nat → Qc := λ i j,
  if decide (i < m)%nat then
    if decide (j < length (default [] (b !! i)))%nat
    then cell (default [] (b !! i)) j
    else if decide (j = n + m + 1)%nat then cell c i
    else if decide (j = n + i)%nat then 1 else 0
  else
    if decide (j = n + m)%nat then 1
    else if decide (j < n)%nat then cell A' j else 0.

End BuilderStages.


(** Counters are added and compared field by field. *)
Definition counts_add (a b : counts) : counts :=
  {| comparisons := comparisons a + comparisons b;
     assignments := assignments a + assignments b;
     arithmetic := arithmetic a + arithmetic b;
     accesses := accesses a + accesses b;
     func_calls := func_calls a + func_calls b |}.

Definition counts_scale (n : nat) (a : counts) : counts :=
  {| comparisons := Z.of_nat n * comparisons a;
     assignments := Z.of_nat n * assignments a;
     arithmetic := Z.of_nat n * arithmetic a;
     accesses := Z.of_nat n * accesses a;
     func_calls := Z.of_nat n * func_calls a |}.

Definition counts_le (a b : counts) : Prop :=
  (comparisons a ≤ comparisons b)%Z ∧ (assignments a ≤ assignments b)%Z ∧
  (arithmetic a ≤ arithmetic b)%Z ∧ (accesses a ≤ accesses b)%Z ∧
  (func_calls a ≤ func_calls b)%Z.

Definition counts_sum (l : list counts) : counts :=
  foldr counts_add no_counts l.

(** What one iteration of each loop of the dense executor adds, read off
    lines 120-126, 138-143 and 129-136 of [simplex_with_counts.py]. *)
Definition normalize_step_cost : counts :=
  {| comparisons := 1; assignments := 1; arithmetic := 1; accesses := 3;
     func_calls := 0 |}.

Definition eliminate_step_cost : counts :=
  {| comparisons := 0; assignments := 1; arithmetic := 2; accesses := 4;
     func_calls := 1 |}.

Definition eliminate_row_cost (ncols r i : nat) : counts :=
  if decide (i ≠ r) then
    counts_add {| comparisons := 2; assignments := 1; arithmetic := 0;
                  accesses := 1; func_calls := 0 |}
               (counts_scale ncols eliminate_step_cost)
  else {| comparisons := 1; assignments := 0; arithmetic := 0;
          accesses := 0; func_calls := 0 |}.

(** What a whole dense pivot adds on a tableau of [rows] rows and [cols]
    columns. *)
Definition dense_pivot_cost (rows cols : nat) : counts :=
  let R := Z.of_nat rows in
  let C := Z.of_nat cols in
  {| comparisons := C + R + (R - 1);
     assignments := 1 + C + (R - 1) * (1 + C);
     arithmetic := C + (R - 1) * (2 * C);
     accesses := 2 + 3 * C + (R - 1) * (1 + 4 * C);
     func_calls := (R - 1) * C |}.

(** The tableau built for: maximise [x1] subject to [0 x1 <= 1]. *)
Definition zero_pivot_tableau : tableau :=
  [ [num 0; num 1; num 0; num 1];
    [num (-1); num 0; num 1; num 0] ].



(** A tableau of [m] constraint rows and an objective row, [ncols] columns
    wide, whose Z column (the last but one) is 0 in every constraint row and
    1 in the objective row. *)
Definition z_column_intact (m ncols : nat) (t : tableau) : Prop :=
  length t = S m ∧ rectangular ncols t ∧
  ∀ i, (i ≤ m)%nat →
       entry t i (ncols - 2) = if decide (i = m) then 1 else 0.

(** Row [i] of a matrix after [make_diagonal_zeros], where [nv] is the
    length of the first row: above the diagonal the cells [i < j < nv] are
    zero, below it the cells [j < min(i, nv)]. *)
Definition zeroed (above_diagonal : bool) (nv i : nat) (row : list Qc)
  : list Qc :=
  imap (λ j x, if above_diagonal
               then if decide (i < j < nv)%nat then 0 else x
               else if decide (j < i ∧ j < nv)%nat then 0 else x) row.

(** Row [i] has all the cells [make_diagonal_zeros] writes in it. *)
Definition zeroable (above_diagonal : bool) (nv i : nat) (row : list Qc)
  : Prop :=
  if above_diagonal then (i + 1 < nv → nv ≤ length row)%nat
  else (i `min` nv ≤ length row)%nat.

#[global] Instance zeroable_dec (above_diagonal : bool) (nv i : nat)
    (row : list Qc) : Decision (zeroable above_diagonal nv i row).
Proof. unfold zeroable. destruct above_diagonal; apply _. Defined.

(** What the geometric generator computes: the progression
    [min_val * 2^k] clipped at [max_val], and the three lists made of it. *)
Definition geometric_value (min_val max_val : Z) (k : nat) : Z :=
  Z.min (min_val * 2 ^ Z.of_nat k) max_val.

Definition geometric_objective (variables_n min_val max_val : Z) : list Z :=
  geometric_value min_val max_val <$> range_to variables_n.

Definition geometric_constraints (inequalities_n variables_n min_val
    max_val : Z) : list (list Z) :=
  (λ i : nat, (λ j : nat, geometric_value min_val max_val (i + j))
              <$> range_to variables_n) <$> range_to inequalities_n.

Definition geometric_bounds (variables_n min_val max_val : Z) : list Z :=
  (λ i : nat, Z.min (min_val * 2 ^ (Z.of_nat i + 1) - 1) max_val)
  <$> range_to variables_n.

(** An integer matrix as the solver's numbers. *)
Definition as_numbers (l : list Z) : list Qc := num <$> l.

Definition as_number_rows (b : list (list Z)) : list (list Qc) :=
  as_numbers <$> b.

(** The test [generate_primes_in_range] applies to [i]: greater than 1, and
    the inner loop found no divisor. *)
Definition passes_trial_division (i : Z) : bool :=
  bool_decide (1 < i)%Z && negb (has_divisor i).

(** * Verification *)

(** ** Results and loops *)

Section Loops.

Context {S T X : Type}.

Lemma for_each_rel (R : S → T → Prop) (xs : list X)
    (f : X → S → result S) (g : X → T → result T) (s : S) (t : T) :
  R s t →
  (∀ x s t, x ∈ xs → R s t → result_rel R (f x s) (g x t)) →
  result_rel R (for_each xs f s) (for_each xs g t).
Proof.
  revert s t. induction xs as [|x xs IH]; intros s t HR Hstep; simpl.
  - exact HR.
  - pose proof (Hstep x s t (list_elem_of_here _ _) HR) as Hx.
    destruct (f x s) as [s'|e], (g x t) as [t'|e']; simpl in Hx; try done.
    apply IH; [done|]. intros y s0 t0 Hy. apply Hstep. by right.
Qed.

(** An invariant of a [for] loop that cannot raise. *)
Lemma for_each_inv (P : S → Prop) (xs : list X) (f : X → S → result S)
    (s : S) :
  P s →
  (∀ x s, x ∈ xs → P s → ∃ s', f x s = Returned s' ∧ P s') →
  ∃ s', for_each xs f s = Returned s' ∧ P s'.
Proof.
  revert s. induction xs as [|x xs IH]; intros s HP Hstep; simpl.
  - eauto.
  - destruct (Hstep x s (list_elem_of_here _ _) HP) as (s' & -> & HP').
    apply IH; [done|]. intros y s0 Hy. apply Hstep. by right.
Qed.

Lemma for_each_app (xs ys : list X) (f : X → S → result S) (s : S) :
  for_each (xs ++ ys) f s = s' ← for_each xs f s; for_each ys f s'.
Proof.
  revert s. induction xs as [|x xs IH]; intros s; simpl; [done|].
  destruct (f x s); simpl; [apply IH|done].
Qed.

End Loops.

Lemma fmap_result_rel {S T} (f : S → T) (x : result S) (y : result T) :
  result_rel (λ a b, f a = b) x y → f <$> x = y.
Proof. destruct x, y; simpl; intros; by simplify_eq. Qed.

Lemma range_S (n : nat) : range (S n) = range n ++ [n].
Proof. unfold range. by rewrite seq_S. Qed.

Lemma elem_of_range (n i : nat) : i ∈ range n ↔ (i < n)%nat.
Proof. unfold range. rewrite elem_of_seq. lia. Qed.

(** ** The counters are a side channel

    Each instrumented routine, started from any counter state, returns the
    value of its uninstrumented twin next to the counters, and raises
    exactly when the twin raises. *)

Ltac case_result :=
  match goal with
  | |- context [mbind _ ?m] =>
      let E := fresh "E" in destruct m eqn:E; simpl; try done
  end.

Lemma for_each_erases {A X} (xs : list X)
    (f : X → A * counts → result (A * counts)) (g : X → A → result A)
    (a : A) (k : counts) :
  (∀ x a k, erases (f x (a, k)) (g x a)) →
  erases (for_each xs f (a, k)) (for_each xs g a).
Proof.
  intros Hstep. apply fmap_result_rel.
  apply (for_each_rel (λ s t, s.1 = t)); [done|].
  intros x [a' k'] t _ <-. simpl.
  specialize (Hstep x a' k'). unfold erases in Hstep.
  destruct (f x (a', k')), (g x a'); simpl in *; by simplify_eq.
Qed.

Lemma find_pivot_column_erases (t : tableau) (k : counts) :
  erases (find_pivot_column_w_counts t k) (find_pivot_column t).
Proof.
  unfold erases, find_pivot_column_w_counts, find_pivot_column.
  repeat case_result.
Qed.

Lemma quotient_body_erases (col : nat) (ir : nat * list Qc)
    (qs : list (quotient * nat)) (k : counts) :
  erases (quotient_body_w_counts col ir (qs, k)) (quotient_body col ir qs).
Proof.
  unfold erases, quotient_body_w_counts, quotient_body.
  destruct ir as [i row]. case_result.
  destruct (ltb 0 a); simpl; [|done]. repeat case_result.
Qed.

Lemma calculate_quotients_erases (t : tableau) (col : nat) (k : counts) :
  erases (calculate_quotients_and_find_pivot_row_w_counts t col k)
         (calculate_quotients_and_find_pivot_row t col).
Proof.
  unfold calculate_quotients_and_find_pivot_row_w_counts,
    calculate_quotients_and_find_pivot_row.
  pose proof (for_each_erases (enumerate (slice_until_neg t 1))
    (quotient_body_w_counts col) (quotient_body col) [] (add_assignments 1 k)
    (quotient_body_erases col)) as H.
  unfold erases in *.
  destruct (for_each _ (quotient_body_w_counts col) _) as [[qs k']|e],
    (for_each _ (quotient_body col) _) as [qs'|e']; simplify_eq/=; [|done].
  repeat case_result.
Qed.

(** Running a loop on both sides and continuing with the common state. *)
Lemma erases_bind {A B} (x : result (A * counts)) (y : result A)
    (f : A * counts → result (B * counts)) (g : A → result B) :
  erases x y →
  (∀ a k, erases (f (a, k)) (g a)) →
  erases (x ≫= f) (y ≫= g).
Proof.
  unfold erases. intros Hxy Hfg.
  destruct x as [[a k]|e], y as [a'|e']; simplify_eq/=; [apply Hfg|done].
Qed.

Lemma normalize_body_erases (r : nat) (p : Qc) (j : nat) (t : tableau)
    (k : counts) :
  erases (normalize_body_w_counts r p j (t, k)) (normalize_body r p j t).
Proof.
  unfold erases, normalize_body_w_counts, normalize_body.
  repeat case_result.
Qed.

Lemma eliminate_body_erases (r i : nat) (f : Qc) (j : nat) (t : tableau)
    (k : counts) :
  erases (eliminate_body_w_counts r i f j (t, k)) (eliminate_body r i f j t).
Proof.
  unfold erases, eliminate_body_w_counts, eliminate_body.
  repeat case_result.
Qed.

Lemma eliminate_row_erases (r c i : nat) (t : tableau) (k : counts) :
  erases (eliminate_row_w_counts r c i (t, k)) (eliminate_row r c i t).
Proof.
  unfold eliminate_row_w_counts, eliminate_row.
  case_decide; [|done].
  destruct (getitem t i) as [row|e]; simpl; [|done].
  destruct (getitem row c) as [f|e]; simpl; [|done].
  apply for_each_erases. intros. apply eliminate_body_erases.
Qed.

Lemma perform_pivoting_erases (t : tableau) (r c : nat) (k : counts) :
  erases (perform_pivoting_w_counts t r c k) (perform_pivoting t r c).
Proof.
  unfold perform_pivoting_w_counts, perform_pivoting.
  destruct (get_cell t r c) as [p|e]; simpl; [|done].
  destruct (getitem t 0) as [row0|e]; simpl; [|done].
  apply erases_bind.
  - apply for_each_erases. intros. apply normalize_body_erases.
  - intros t1 k1. simpl. apply for_each_erases.
    intros. apply eliminate_row_erases.
Qed.

Lemma slack_body_erases (n : nat) (c : list Qc) (i : nat) (t : tableau)
    (k : counts) :
  erases (slack_body_w_counts n c i (t, k)) (slack_body n c i t).
Proof.
  unfold erases, slack_body_w_counts, slack_body. repeat case_result.
Qed.

Lemma objective_body_erases (ic : nat * Qc) (t : tableau) (k : counts) :
  erases (objective_body_w_counts ic (t, k)) (objective_body ic t).
Proof.
  unfold erases, objective_body_w_counts, objective_body.
  destruct ic as [i coef]. repeat case_result.
Qed.

Lemma constraint_body_erases (m : nat) (ic : nat * list Qc) (t : tableau)
    (k : counts) :
  erases (constraint_body_w_counts m ic (t, k)) (constraint_body m ic t).
Proof.
  unfold constraint_body_w_counts, constraint_body.
  destruct ic as [i constraint]. apply for_each_erases.
  intros jc t' k'. unfold erases, coefficient_body_w_counts.
  repeat case_result.
Qed.

Lemma construct_simplex_tableau_erases (A : list Qc) (b : list (list Qc))
    (c : list Qc) (k : counts) :
  erases (construct_simplex_tableau_w_counts A b c k)
         (construct_simplex_tableau A b c).
Proof.
  unfold construct_simplex_tableau_w_counts, construct_simplex_tableau.
  rewrite (Nat.add_comm (length b) 1). simpl Nat.add at 2.
  apply erases_bind.
  { apply for_each_erases. intros. apply slack_body_erases. }
  intros t1 k1. apply erases_bind.
  { apply for_each_erases. intros. apply objective_body_erases. }
  intros t2 k2. unfold erases.
  destruct (getitem_neg t2 1) as [lr|e]; simpl; [|done].
  destruct (setitem_neg lr 2 1) as [lr'|e]; simpl; [|done].
  destruct (setitem_neg t2 1 lr') as [t3|e]; simpl; [|done].
  apply for_each_erases. intros. apply constraint_body_erases.
Qed.

Lemma add_slack_variables_erases (b : list (list Qc)) (k : counts) :
  (add_slack_variables_w_counts b k).1 = add_slack_variables b.
Proof.
  unfold add_slack_variables_w_counts, add_slack_variables.
  generalize (range (length b)) as ids. generalize (length b) as m.
  intros m ids. revert b k.
  induction ids as [|i ids IH]; intros b k; simpl; [done|].
  apply IH.
Qed.

(** ** Reading a tableau *)

Lemma rectangular_lookup (ncols : nat) (t : tableau) (i : nat)
    (row : list Qc) :
  rectangular ncols t → t !! i = Some row → length row = ncols.
Proof. intros Hrect Hi. by eapply (Forall_lookup_1 _ _ _ _ Hrect Hi). Qed.

Lemma getitem_Some {A} (l : list A) (i : nat) (x : A) :
  l !! i = Some x → getitem l i = Returned x.
Proof. unfold getitem. by intros ->. Qed.

Lemma getitem_lt {A} (l : list A) (i : nat) :
  (i < length l)%nat → ∃ x, l !! i = Some x ∧ getitem l i = Returned x.
Proof.
  intros Hi. destruct (lookup_lt_is_Some_2 l i Hi) as [x Hx].
  exists x. split; [done|]. by apply getitem_Some.
Qed.

Lemma getitem_Returned {A} (l : list A) (i : nat) (x : A) :
  getitem l i = Returned x → l !! i = Some x.
Proof. unfold getitem. destruct (l !! i); naive_solver. Qed.

Lemma getitem_neg_1 {A} (l : list A) (x : A) :
  l !! (length l - 1)%nat = Some x → getitem_neg l 1 = Returned x.
Proof.
  intros Hx. unfold getitem_neg.
  pose proof (lookup_lt_Some _ _ _ Hx).
  case_decide; [by apply getitem_Some|lia].
Qed.

Lemma cell_lookup (row : list Qc) (j : nat) (x : Qc) :
  row !! j = Some x → cell row j = x.
Proof. unfold cell. by intros ->. Qed.

Lemma entry_lookup (t : tableau) (i j : nat) (row : list Qc) :
  t !! i = Some row → entry t i j = cell row j.
Proof. unfold entry. by intros ->. Qed.

(** ** The built-in [min] *)

Section Minimum.

Context {A : Type} (lt : A → A → bool).
Hypothesis lt_irrefl : ∀ x, lt x x = false.
Hypothesis lt_trans : ∀ x y z, lt x y = true → lt y z = true → lt x z = true.

Lemma min_from_elem (best : A) (l : list A) :
  min_from lt best l ∈ best :: l.
Proof.
  revert best. induction l as [|x l IH]; intros best; simpl.
  - apply list_elem_of_here.
  - specialize (IH (if lt x best then x else best)).
    apply elem_of_cons in IH as [->|IH].
    + destruct (lt x best); [right|]; apply list_elem_of_here.
    + by do 2 right.
Qed.

Lemma min_from_lower (best : A) (l : list A) (y : A) :
  lt y best = false ∨ y ∈ l → lt y (min_from lt best l) = false.
Proof.
  revert best. induction l as [|x l IH]; intros best Hy; simpl.
  - destruct Hy as [Hy|Hy%elem_of_nil]; done.
  - apply IH. destruct Hy as [Hy|[->|Hy]%elem_of_cons]; [| |by right].
    + left. destruct (lt x best) eqn:Hx; [|done].
      destruct (lt y x) eqn:Hyx; [|done].
      by rewrite (lt_trans _ _ _ Hyx Hx) in Hy.
    + left. by destruct (lt x best) eqn:Hx.
Qed.

Lemma min_from_least (best : A) (l : list A) (y : A) :
  y ∈ best :: l → lt y (min_from lt best l) = false.
Proof.
  intros [->|Hy]%elem_of_cons; apply min_from_lower; [by left|by right].
Qed.

Lemma py_min_spec (l : list A) (x : A) :
  x ∈ l → ∃ m, py_min lt l = Returned m ∧ m ∈ l ∧ ∀ y, y ∈ l → lt y m = false.
Proof.
  destruct l as [|a l]; [by intros ?%elem_of_nil|]. intros _.
  exists (min_from lt a l). split; [done|]. split.
  - apply min_from_elem.
  - intros y. apply min_from_least.
Qed.

End Minimum.

Lemma ltb_irrefl (x : Qc) : ltb x x = false.
Proof. unfold ltb. apply bool_decide_eq_false, Qcle_not_lt, Qcle_refl. Qed.

Lemma ltb_trans (x y z : Qc) : ltb x y = true → ltb y z = true → ltb x z = true.
Proof.
  unfold ltb. rewrite !bool_decide_eq_true. apply Qclt_trans.
Qed.

Lemma ltb_false (x y : Qc) : ltb x y = false ↔ y ≤ x.
Proof.
  unfold ltb. rewrite bool_decide_eq_false. split.
  - apply Qcnot_lt_le.
  - apply Qcle_not_lt.
Qed.

Lemma ltb_true (x y : Qc) : ltb x y = true ↔ x < y.
Proof. unfold ltb. apply bool_decide_eq_true. Qed.

Lemma quotient_eqb_eq (x y : quotient) : quotient_eqb x y = true ↔ x = y.
Proof.
  destruct x as [a|], y as [b|]; simpl; rewrite ?bool_decide_eq_true;
    naive_solver.
Qed.

Lemma quotient_ltb_irrefl (x : quotient) : quotient_ltb x x = false.
Proof. destruct x; simpl; [apply ltb_irrefl|done]. Qed.

Lemma quotient_ltb_trans (x y z : quotient) :
  quotient_ltb x y = true → quotient_ltb y z = true → quotient_ltb x z = true.
Proof.
  destruct x, y, z; simpl; try done. apply ltb_trans.
Qed.

Lemma pair_ltb_irrefl (x : quotient * nat) : pair_ltb x x = false.
Proof.
  unfold pair_ltb. destruct (quotient_eqb x.1 x.1).
  - apply bool_decide_eq_false. lia.
  - apply quotient_ltb_irrefl.
Qed.

Lemma pair_ltb_trans (x y z : quotient * nat) :
  pair_ltb x y = true → pair_ltb y z = true → pair_ltb x z = true.
Proof.
  unfold pair_ltb. destruct x as [q1 i1], y as [q2 i2], z as [q3 i3]; simpl.
  destruct (quotient_eqb q1 q2) eqn:E12, (quotient_eqb q2 q3) eqn:E23.
  - apply quotient_eqb_eq in E12 as ->. rewrite E23.
    rewrite !bool_decide_eq_true. lia.
  - apply quotient_eqb_eq in E12 as ->. rewrite E23. done.
  - apply quotient_eqb_eq in E23 as ->. rewrite E12. done.
  - intros H12 H23. pose proof (quotient_ltb_trans _ _ _ H12 H23) as H13.
    destruct (quotient_eqb q1 q3) eqn:E13; [|done].
    apply quotient_eqb_eq in E13 as ->.
    pose proof (quotient_ltb_trans _ _ _ H12 H23) as Hc.
    by rewrite quotient_ltb_irrefl in Hc.
Qed.

(** [l.index(x)] is the first position that holds [x]. *)
Lemma index_from_spec (x : Qc) (l : list Qc) (i : nat) :
  x ∈ l →
  ∃ k, index_from x l i = Returned (i + k)%nat ∧ l !! k = Some x ∧
       ∀ j y, (j < k)%nat → l !! j = Some y → y ≠ x.
Proof.
  revert i. induction l as [|a l IH]; intros i Hx.
  { by apply elem_of_nil in Hx. }
  simpl. case_bool_decide as Ha.
  - exists 0%nat. subst a. rewrite Nat.add_0_r. split_and!; [done..|].
    intros; lia.
  - apply elem_of_cons in Hx as [->|Hx]; [done|].
    destruct (IH (S i) Hx) as (k & Hk & Hlk & Hfirst).
    exists (S k). rewrite Nat.add_succ_r. split_and!; [done..|].
    intros [|j] y Hj Hy; simpl in Hy; [by simplify_eq|].
    apply (Hfirst j); [lia|done].
Qed.

(** ** Pivot selection *)

Lemma find_pivot_column_spec (t : tableau) (x : Qc) :
  x ∈ scanned t →
  ∃ k v, find_pivot_column t = Returned k ∧ scanned t !! k = Some v ∧
    (∀ j y, scanned t !! j = Some y → v ≤ y) ∧
    (∀ j y, (j < k)%nat → scanned t !! j = Some y → v < y).
Proof.
  unfold scanned, objective_row, find_pivot_column. intros Hx.
  destruct (t !! (length t - 1)%nat) as [obj|] eqn:Hobj; simpl in Hx;
    [|by apply elem_of_nil in Hx].
  rewrite (getitem_neg_1 _ _ Hobj). simpl.
  destruct (py_min_spec ltb ltb_irrefl ltb_trans _ _ Hx)
    as (m & -> & Hm & Hleast). simpl.
  destruct (index_from_spec m _ 0 Hm) as (k & Hk & Hlk & Hfirst).
  exists k, m. unfold index. rewrite Hk. split_and!; [done..| |].
  - intros j y Hy. apply ltb_false, Hleast. by eapply list_elem_of_lookup_2.
  - intros j y Hj Hy.
    assert (m ≤ y) as Hle.
    { apply ltb_false, Hleast. by eapply list_elem_of_lookup_2. }
    apply Qcle_lt_or_eq in Hle as [?|?]; [done|].
    by destruct (Hfirst j y Hj Hy).
Qed.

Lemma quotient_body_spec (k i : nat) (row : list Qc)
    (acc : list (quotient * nat)) :
  (k < length row)%nat →
  quotient_body k (i, row) acc = Returned (acc ++ [(quotient_of k row, i)]).
Proof.
  intros Hk. unfold quotient_body, quotient_of.
  destruct (getitem_lt row k Hk) as (x & Hx & ->). simpl.
  rewrite (cell_lookup _ _ _ Hx).
  destruct (ltb 0 x) eqn:Hpos; [|done].
  destruct (getitem_lt row (length row - 1)) as (y & Hy & _); [lia|].
  rewrite (getitem_neg_1 _ _ Hy). simpl.
  rewrite (cell_lookup _ _ _ Hy). unfold div.
  apply ltb_true in Hpos. case_bool_decide as Hz; [|done].
  subst x. by destruct (Qcle_not_lt _ _ (Qcle_refl 0)).
Qed.

Lemma quotients_loop_spec (k : nat) (rows : tableau) (a : nat)
    (acc : list (quotient * nat)) :
  Forall (λ row, (k < length row)%nat) rows →
  for_each (zip (seq a (length rows)) rows) (quotient_body k) acc =
  Returned (acc ++ imap (λ i row, (quotient_of k row, (a + i)%nat)) rows).
Proof.
  revert a acc. induction rows as [|row rows IH]; intros a acc Hrows.
  - simpl. by rewrite app_nil_r.
  - apply Forall_cons_1 in Hrows as [Hrow Hrows].
    cbn [length seq zip zip_with for_each imap].
    rewrite quotient_body_spec by done.
    rewrite IH by done. rewrite <- app_assoc. simpl.
    rewrite Nat.add_0_r. do 3 f_equal. apply imap_ext.
    intros i x _. simpl. f_equal. lia.
Qed.

Lemma calculate_quotients_spec (t : tableau) (k : nat) :
  Forall (λ row, (k < length row)%nat) (take (objective_row t) t) →
  (0 < objective_row t)%nat →
  ∃ r row, calculate_quotients_and_find_pivot_row t k = Returned r ∧
    (r < objective_row t)%nat ∧ t !! r = Some row ∧
    ∀ i rowi, (i < objective_row t)%nat → t !! i = Some rowi →
      pair_ltb (quotient_of k rowi, i) (quotient_of k row, r) = false.
Proof.
  unfold objective_row. intros Hrows Hm.
  unfold calculate_quotients_and_find_pivot_row, enumerate. simpl.
  rewrite quotients_loop_spec by done. simpl.
  set (qs := imap _ _).
  assert (∀ i rowi, (i < length t - 1)%nat → t !! i = Some rowi →
            qs !! i = Some (quotient_of k rowi, i)) as Hqs.
  { intros i rowi Hi Hrow. unfold qs. rewrite list_lookup_imap.
    rewrite lookup_take_lt by done. by rewrite Hrow. }
  destruct (lookup_lt_is_Some_2 t 0) as [row0 Hrow0]; [lia|].
  destruct (py_min_spec pair_ltb pair_ltb_irrefl pair_ltb_trans qs
              (quotient_of k row0, 0%nat)) as (m & -> & Hm_in & Hleast).
  { eapply list_elem_of_lookup_2. by apply Hqs. }
  simpl. apply list_elem_of_lookup in Hm_in as [r Hr].
  unfold qs in Hr. rewrite list_lookup_imap in Hr.
  destruct (take (length t - 1) t !! r) as [row|] eqn:Hrow; [|done].
  simpl in Hr. injection Hr as <-. simpl.
  pose proof (lookup_lt_Some _ _ _ Hrow) as Hlt.
  rewrite length_take in Hlt.
  rewrite lookup_take_lt in Hrow by lia.
  exists r, row. split_and!; [done|lia|done|].
  intros i rowi Hi Hrowi. apply Hleast.
  eapply list_elem_of_lookup_2. by apply Hqs.
Qed.



Lemma constraint_rows_wide (t : tableau) (ncols k : nat) :
  rectangular ncols t → (k < ncols)%nat →
  Forall (λ row, (k < length row)%nat) (take (objective_row t) t).
Proof.
  intros Hrect Hk. apply Forall_take.
  eapply Forall_impl; [|exact Hrect]. simpl. by intros row ->.
Qed.


Lemma quotient_of_nonpositive (t : tableau) (k i : nat) (row : list Qc) :
  t !! i = Some row → entry t i k ≤ 0 → quotient_of k row = Infinity.
Proof.
  intros Hrow Hneg. unfold quotient_of.
  rewrite (entry_lookup _ _ _ _ Hrow) in *.
  by apply ltb_false in Hneg as ->.
Qed.



(** C1 (as amended).  When no constraint row has a positive entry in the
    pivot column, the ratio test does not fail: every recorded ratio is
    infinite, the least pair is the one of row 0, and both row selectors
    return row index 0 as an ordinary pivot row. *)
Theorem unbounded_column_selects_first_row (t : tableau) (ncols k : nat)
    (cnt : counts) :
  rectangular ncols t → (k < ncols)%nat → (0 < objective_row t)%nat →
  (∀ i, (i < objective_row t)%nat → entry t i k ≤ 0) →
  calculate_quotients_and_find_pivot_row t k = Returned 0%nat ∧
  ∃ cnt', calculate_quotients_and_find_pivot_row_w_counts t k cnt
          = Returned (0%nat, cnt').
Proof.
  intros Hrect Hk Hm Hneg.
  assert (calculate_quotients_and_find_pivot_row t k = Returned 0%nat) as H0.
  { destruct (calculate_quotients_spec t k)
      as (r & row & Hr & Hrlt & Hrow & Hmin); [|done|].
    { by apply (constraint_rows_wide t ncols). }
    destruct (lookup_lt_is_Some_2 t 0) as [row0 Hrow0].
    { unfold objective_row in Hm. lia. }
    specialize (Hmin 0%nat row0 Hm Hrow0).
    rewrite (quotient_of_nonpositive t k 0 row0) in Hmin by auto.
    rewrite (quotient_of_nonpositive t k r row) in Hmin by auto.
    unfold pair_ltb in Hmin. simpl in Hmin.
    apply bool_decide_eq_false in Hmin.
    rewrite Hr. f_equal. lia. }
  split; [done|].
  pose proof (calculate_quotients_erases t k cnt) as He.
  unfold erases in He. rewrite H0 in He.
  destruct (calculate_quotients_and_find_pivot_row_w_counts t k cnt)
    as [[r cnt']|e]; simplify_eq/=. by exists cnt'.
Qed.

Lemma unbounded_column_selects_first_row_witness :
  calculate_quotients_and_find_pivot_row unbounded_tableau 0 = Returned 0%nat ∧
  ∃ cnt', calculate_quotients_and_find_pivot_row_w_counts unbounded_tableau 0
            no_counts = Returned (0%nat, cnt').
Proof.
  apply (unbounded_column_selects_first_row unbounded_tableau 4 0 no_counts).
  - repeat constructor.
  - lia.
  - vm_compute. lia.
  - intros i Hi. assert (i = 0%nat) as -> by (vm_compute in Hi; lia).
    vm_compute. discriminate.
Defined.

(** C1, counterexample.  Maximise [x1] subject to [-x1 <= 1]: the pivot
    column 0 has no positive entry in the one constraint row, yet the ratio
    test returns row 0 and the solver raises nothing: after 40 iterations
    it is still pivoting. *)
Lemma unbounded_not_reported :
  construct_simplex_tableau (Qcopp <$> [num 1])
    (add_slack_variables [[num (-1)]]) [num 1] = Returned unbounded_tableau ∧
  find_pivot_column unbounded_tableau = Returned 0%nat ∧
  entry unbounded_tableau 0 0 ≤ 0 ∧
  calculate_quotients_and_find_pivot_row unbounded_tableau 0
    = Returned 0%nat ∧
  has_raised (outcome (simplex_w_counts 40 [num 1] [[num (-1)]] [num 1]
                         "max" "dense")) = false ∧
  still_looping (outcome (simplex_w_counts 40 [num 1] [[num (-1)]] [num 1]
                            "max" "dense")) = true.
Proof.
  split_and!; try (vm_compute; reflexivity).
  - apply (bool_decide_unpack _). vm_compute. exact I.
  - vm_compute. discriminate.
Qed.

(** ** The solver loop *)

Section WhileLoops.

Context {S T : Type}.

(** Two loops that take related steps make related progress. *)
Lemma while_rel (R : S → T → Prop) (fuel : nat)
    (cond1 : S → result bool) (cond2 : T → result bool)
    (body1 : S → result S) (body2 : T → result T) (s : S) (t : T) :
  R s t →
  (∀ s t, R s t → cond1 s = cond2 t) →
  (∀ s t, R s t → cond1 s = Returned true →
          result_rel R (body1 s) (body2 t)) →
  progress_rel R (while fuel cond1 body1 s) (while fuel cond2 body2 t).
Proof.
  intros HR Hcond Hbody. revert s t HR.
  induction fuel as [|fuel IH]; intros s t HR; simpl;
    rewrite <- (Hcond s t HR);
    destruct (cond1 s) as [[]|e] eqn:Hc; simpl; try done.
  specialize (Hbody s t HR Hc).
  destruct (body1 s), (body2 t); simpl in *; try done. by apply IH.
Qed.


End WhileLoops.

Lemma erases_Returned {A} (x : result (A * counts)) (a : A) :
  erases x (Returned a) → ∃ k, x = Returned (a, k).
Proof.
  unfold erases. destruct x as [[a' k]|e]; intros; simplify_eq/=. eauto.
Qed.

Lemma erases_Raised {A} (x : result (A * counts)) (e : exn) :
  erases x (Raised e) → x = Raised e.
Proof. unfold erases. destruct x as [[a' k]|e']; intros; by simplify_eq/=. Qed.


Lemma simplex_loop_NameError (fuel : nat) (t : tableau) :
  (0 < fuel)%nat → not_optimal t = Returned true →
  while fuel not_optimal convergence_body t = Done (Raised NameError).
Proof. destruct fuel; [lia|]. simpl. by intros _ ->. Qed.

Lemma not_optimal_negative (t : tableau) (x : Qc) :
  x ∈ scanned t → x < 0 → not_optimal t = Returned true.
Proof.
  unfold scanned, objective_row, not_optimal. intros Hx Hneg.
  destruct (t !! (length t - 1)%nat) as [obj|] eqn:Hobj; simpl in Hx;
    [|by apply elem_of_nil in Hx].
  rewrite (getitem_neg_1 _ _ Hobj). simpl.
  destruct (py_min_spec ltb ltb_irrefl ltb_trans _ _ Hx)
    as (m & -> & Hm & Hleast). simpl. f_equal.
  apply ltb_true. eapply Qcle_lt_trans; [|exact Hneg].
  by apply ltb_false, Hleast.
Qed.

(** C10.  Whenever the initial tableau has a negative objective-row entry
    outside the Z and RHS columns, so that the convergence loop is entered,
    [simplex] raises [NameError] in its first iteration: no pivot is ever
    completed. *)
Theorem simplex_raises_NameError (fuel : nat) (A : list Qc)
    (b : list (list Qc)) (c : list Qc) (t : tableau) (x : Qc) :
  (0 < fuel)%nat →
  construct_simplex_tableau (Qcopp <$> A) (add_slack_variables b) c
    = Returned t →
  x ∈ scanned t → x < 0 →
  outcome (simplex fuel A b c) = Done (Raised NameError).
Proof.
  intros Hfuel Ht Hx Hneg. unfold simplex. simpl. rewrite Ht.
  apply simplex_loop_NameError; [done|]. by eapply not_optimal_negative.
Qed.

Lemma simplex_raises_NameError_witness :
  outcome (simplex 1 [num 3; num 2] [[num 1; num 1]; [num 1; num 3]]
             [num 4; num 6]) = Done (Raised NameError).
Proof.
  apply (simplex_raises_NameError 1 _ _ _ sample_tableau (num (-3))).
  - lia.
  - apply (bool_decide_unpack _). vm_compute. exact I.
  - apply list_elem_of_here.
  - vm_compute. reflexivity.
Defined.

(** ** Non-interference of the counters in the instrumented solver *)

Lemma erases_same_value {A} (x x' : result (A * counts)) (y : result A) :
  erases x y → erases x' y → result_rel same_value x x'.
Proof.
  unfold erases, same_value.
  destruct x as [[]|], x' as [[]|], y; intros; by simplify_eq/=.
Qed.

Lemma for_each_same_value {A X} (xs : list X)
    (f : X → A * counts → result (A * counts)) (a : A) (k1 k2 : counts) :
  (∀ x a k1 k2, result_rel same_value (f x (a, k1)) (f x (a, k2))) →
  result_rel same_value (for_each xs f (a, k1)) (for_each xs f (a, k2)).
Proof.
  intros Hstep. apply for_each_rel; [done|].
  intros x [a1 k1'] [a2 k2'] _ Heq. unfold same_value in Heq.
  simpl in Heq. subst a2. apply Hstep.
Qed.

Lemma sparse_normalize_body_same_value (r : nat) (p : Qc) (j : nat)
    (t : tableau) (k1 k2 : counts) :
  result_rel same_value (sparse_normalize_body_w_counts r p j (t, k1))
                        (sparse_normalize_body_w_counts r p j (t, k2)).
Proof.
  unfold sparse_normalize_body_w_counts.
  destruct (get_cell t r j) as [x|]; simpl; [|done].
  case_bool_decide; simpl; [|done].
  destruct (div x p); simpl; [|done].
  by destruct (set_cell t r j a).
Qed.

Lemma sparse_eliminate_body_same_value (r i : nat) (f : Qc) (j : nat)
    (t : tableau) (k1 k2 : counts) :
  result_rel same_value (sparse_eliminate_body_w_counts r i f j (t, k1))
                        (sparse_eliminate_body_w_counts r i f j (t, k2)).
Proof.
  unfold sparse_eliminate_body_w_counts.
  destruct (get_cell t r j) as [y|]; simpl; [|done].
  case_bool_decide; simpl; [|done].
  destruct (get_cell t i j) as [x|]; simpl; [|done].
  by destruct (set_cell t i j _).
Qed.

Lemma sparse_eliminate_row_same_value (r c i : nat) (t : tableau)
    (k1 k2 : counts) :
  result_rel same_value (sparse_eliminate_row_w_counts r c i (t, k1))
                        (sparse_eliminate_row_w_counts r c i (t, k2)).
Proof.
  unfold sparse_eliminate_row_w_counts.
  case_decide; [|done].
  destruct (get_cell t i c) as [f|]; simpl; [|done].
  case_bool_decide; simpl; [|done].
  destruct (getitem t 0) as [row0|]; simpl; [|done].
  apply for_each_same_value. intros. apply sparse_eliminate_body_same_value.
Qed.

Lemma perform_sparse_pivoting_same_value (t : tableau) (r c : nat)
    (k1 k2 : counts) :
  result_rel same_value (perform_sparse_pivoting_w_counts t r c k1)
                        (perform_sparse_pivoting_w_counts t r c k2).
Proof.
  unfold perform_sparse_pivoting_w_counts.
  destruct (get_cell t r c) as [p|]; simpl; [|done].
  destruct (getitem t 0) as [row0|]; simpl; [|done].
  pose proof (for_each_same_value (range (length row0))
    (sparse_normalize_body_w_counts r p) t
    (add_assignments 1 (add_accesses 2 k1))
    (add_assignments 1 (add_accesses 2 k2))
    (sparse_normalize_body_same_value r p)) as H1.
  destruct (for_each _ _ (t, add_assignments 1 (add_accesses 2 k1)))
    as [[t1 k1']|], (for_each _ _ (t, add_assignments 1 (add_accesses 2 k2)))
    as [[t2 k2']|]; simpl in *; try done.
  unfold same_value in H1. simpl in H1. subst t2.
  apply for_each_same_value. intros. apply sparse_eliminate_row_same_value.
Qed.

Lemma convergence_body_same_tableau (matrix : string) (s1 s2 : solver_state) :
  same_tableau s1 s2 →
  result_rel same_tableau (convergence_body_w_counts matrix s1)
                          (convergence_body_w_counts matrix s2).
Proof.
  destruct s1 as [t k1 pr], s2 as [t2 k2 pr2]. intros [Ht Hpr].
  simpl in Ht, Hpr. subst t2 pr2.
  unfold convergence_body_w_counts. simpl.
  destruct (getitem_neg t 1) as [last_row|]; simpl; [|done].
  set (k1' := add_accesses _ (add_func_calls 1 (add_comparisons 1 k1))).
  set (k2' := add_accesses _ (add_func_calls 1 (add_comparisons 1 k2))).
  pose proof (erases_same_value _ _ _ (find_pivot_column_erases t k1')
                (find_pivot_column_erases t k2')) as Hc.
  destruct (find_pivot_column_w_counts t k1') as [[c k1c]|],
    (find_pivot_column_w_counts t k2') as [[c2 k2c]|]; simpl in *; try done.
  unfold same_value in Hc. simpl in Hc. subst c2.
  pose proof (erases_same_value _ _ _ (calculate_quotients_erases t c k1c)
                (calculate_quotients_erases t c k2c)) as Hr.
  destruct (calculate_quotients_and_find_pivot_row_w_counts t c k1c)
    as [[r k1r]|],
    (calculate_quotients_and_find_pivot_row_w_counts t c k2c)
    as [[r2 k2r]|]; simpl in *; try done.
  unfold same_value in Hr. simpl in Hr. subst r2.
  repeat case_decide.
  - pose proof (erases_same_value _ _ _ (perform_pivoting_erases t r c k1r)
                  (perform_pivoting_erases t r c k2r)) as Hp.
    destruct (perform_pivoting_w_counts t r c k1r) as [[]|],
      (perform_pivoting_w_counts t r c k2r) as [[]|]; simpl in *; done.
  - pose proof (perform_sparse_pivoting_same_value t r c k1r k2r) as Hp.
    destruct (perform_sparse_pivoting_w_counts t r c k1r) as [[]|],
      (perform_sparse_pivoting_w_counts t r c k2r) as [[]|]; simpl in *; done.
  - done.
Qed.

Lemma solver_loop_same_tableau (fuel : nat) (matrix : string)
    (s1 s2 : solver_state) :
  same_tableau s1 s2 →
  progress_rel same_tableau
    (while fuel not_optimal_w_counts (convergence_body_w_counts matrix) s1)
    (while fuel not_optimal_w_counts (convergence_body_w_counts matrix) s2).
Proof.
  intros Hs. apply while_rel; [done| |].
  - intros s t [Ht _]. unfold not_optimal_w_counts. by rewrite Ht.
  - intros s t Hst _. by apply convergence_body_same_tableau.
Qed.



(** ** What a solve does to its arguments *)

Lemma foldl_alter_prefix {A} (f : nat → A → A) (l : list A) (n : nat) :
  (n ≤ length l)%nat →
  foldl (λ l' i, alter (f i) i l') l (seq 0 n)
  = imap f (take n l) ++ drop n l.
Proof.
  induction n as [|n IH]; intros Hn.
  - by rewrite take_0, drop_0.
  - rewrite seq_S, foldl_app. simpl. rewrite IH by lia.
    destruct (lookup_lt_is_Some_2 l n) as [x Hx]; [lia|].
    rewrite (take_S_r _ _ _ Hx), (drop_S _ _ _ Hx).
    rewrite imap_app. simpl. rewrite <- app_assoc. simpl.
    rewrite length_take, Nat.min_l, Nat.add_0_r by lia.
    assert (length (imap f (take n l)) = n) as Hlen.
    { rewrite length_imap, length_take. lia. }
    revert Hlen. generalize (imap f (take n l)) as l1. intros l1 <-.
    pose proof (alter_app_r (f (length l1)) l1
                  (x :: drop (S (length l1)) l) 0) as Halter.
    rewrite Nat.add_0_r in Halter. by rewrite Halter.
Qed.

Lemma add_slack_variables_closed (b : list (list Qc)) :
  add_slack_variables b = with_slack_columns b.
Proof.
  unfold add_slack_variables, with_slack_columns, range.
  rewrite foldl_alter_prefix by done.
  by rewrite firstn_all, drop_all, app_nil_r.
Qed.

(** C8 (as amended).  A solve leaves the caller's objective vector and
    bound vector as they were, and extends every row [i] of the caller's
    constraint matrix in place by row [i] of the identity matrix; this holds
    for [simplex] and for [simplex_w_counts], however the call ends. *)
Theorem solve_extends_constraint_rows (fuel : nat) (A : list Qc)
    (b : list (list Qc)) (c : list Qc) (func matrix : string) :
  objective_after (simplex fuel A b c) = A ∧
  bounds_after (simplex fuel A b c) = c ∧
  constraints_after (simplex fuel A b c) = with_slack_columns b ∧
  objective_after (simplex_w_counts fuel A b c func matrix) = A ∧
  bounds_after (simplex_w_counts fuel A b c func matrix) = c ∧
  constraints_after (simplex_w_counts fuel A b c func matrix)
    = with_slack_columns b.
Proof.
  split_and!; [done..|apply add_slack_variables_closed| | |];
    unfold simplex_w_counts;
    destruct (if decide (func = "max") then _ else _) as [A' k0];
    destruct (add_slack_variables_w_counts b k0) as [b' k'] eqn:Hb;
    [done..|].
  cbn [constraints_after].
  by rewrite <- add_slack_variables_closed,
    <- (add_slack_variables_erases b k0), Hb.
Qed.

(** C8, counterexample.  After [simplex([1], [[1]], [5])] the caller's
    constraint matrix is [[1, 1]], not [[1]]; the same for the instrumented
    solver. *)
Lemma constraint_matrix_is_mutated :
  constraints_after (simplex 5 [num 1] [[num 1]] [num 5])
    = [[num 1; num 1]] ∧
  constraints_after (simplex_w_counts 5 [num 1] [[num 1]] [num 5]
                       "max" "dense") = [[num 1; num 1]] ∧
  [[num 1; num 1]] ≠ [[num 1]].
Proof.
  split_and!.
  - apply (bool_decide_unpack _). vm_compute. exact I.
  - apply (bool_decide_unpack _). vm_compute. exact I.
  - discriminate.
Qed.

(** ** An unrecognised strategy name *)

Lemma single_tableau_built :
  construct_simplex_tableau (Qcopp <$> [num 1])
    (add_slack_variables [[num 1]]) [num 5] = Returned single_tableau.
Proof. apply (bool_decide_unpack _). vm_compute. exact I. Qed.

Lemma unknown_strategy_step (matrix : string) (s : solver_state) :
  matrix ≠ "dense" → matrix ≠ "sparse" →
  st_tableau s = single_tableau →
  ∃ k, convergence_body_w_counts matrix s
       = Returned {| st_tableau := single_tableau; st_counts := k;
                     st_printed := st_printed s ++ [matrix_type_message] |}.
Proof.
  intros Hd Hs Ht. destruct s as [t k pr]. simpl in Ht. subst t.
  unfold convergence_body_w_counts.
  cbn [st_tableau st_counts st_printed].
  assert (getitem_neg single_tableau 1
          = Returned [num (-1); num 0; num 1; num 0]) as -> by done.
  cbn [mbind result_bind].
  set (k1 := add_accesses _ _).
  destruct (erases_Returned _ 0%nat
    (eq_trans (find_pivot_column_erases single_tableau k1) eq_refl))
    as [k2 ->].
  cbn [mbind result_bind].
  destruct (erases_Returned _ 0%nat
    (eq_trans (calculate_quotients_erases single_tableau 0 k2) eq_refl))
    as [k3 ->].
  cbn [mbind result_bind].
  rewrite !decide_False by done. by exists k3.
Qed.

Lemma unknown_strategy_loop (matrix : string) (fuel : nat)
    (s : solver_state) :
  matrix ≠ "dense" → matrix ≠ "sparse" →
  st_tableau s = single_tableau →
  ∃ k, while fuel not_optimal_w_counts (convergence_body_w_counts matrix) s
       = Looping {| st_tableau := single_tableau; st_counts := k;
                    st_printed := st_printed s
                                  ++ replicate fuel matrix_type_message |}.
Proof.
  intros Hd Hs. revert s.
  induction fuel as [|fuel IH]; intros s Ht.
  - destruct s as [t k pr]. simpl in Ht. subst t. exists k.
    simpl. by rewrite app_nil_r.
  - destruct (unknown_strategy_step matrix s Hd Hs Ht) as [k Hstep].
    cbn [while]. unfold not_optimal_w_counts at 1. rewrite Ht.
    assert (not_optimal single_tableau = Returned true) as -> by done.
    rewrite Hstep.
    destruct (IH {| st_tableau := single_tableau; st_counts := k;
                    st_printed := st_printed s ++ [matrix_type_message] |}
                eq_refl) as [k' ->].
    exists k'. simpl. by rewrite <- app_assoc.
Qed.

(** C9, the defect.  On [A=[1], b=[[1]], c=[5]] with any strategy name
    other than "dense" and "sparse", [simplex_w_counts] neither raises nor
    returns: after every number of iterations it is still in its loop, the
    tableau is the initial one, and the message of line 60 has been printed
    once per iteration. *)
Theorem unknown_strategy_never_aborts (matrix : string) (fuel : nat) :
  matrix ≠ "dense" → matrix ≠ "sparse" →
  ∃ k, outcome (simplex_w_counts fuel [num 1] [[num 1]] [num 5] "max" matrix)
       = Looping {| st_tableau := single_tableau; st_counts := k;
                    st_printed := replicate fuel matrix_type_message |}.
Proof.
  intros Hd Hs. unfold simplex_w_counts.
  rewrite decide_True by done.
  destruct (add_slack_variables_w_counts [[num 1]] _) as [b' k'] eqn:Hb.
  pose proof (f_equal fst Hb) as Hb'.
  rewrite add_slack_variables_erases in Hb'. simpl in Hb'. subst b'.
  cbn [outcome].
  destruct (erases_Returned _ single_tableau
    (eq_trans (construct_simplex_tableau_erases (Qcopp <$> [num 1])
                 (add_slack_variables [[num 1]]) [num 5]
                 (add_func_calls 1 k'))
              single_tableau_built)) as [k2 ->].
  destruct (unknown_strategy_loop matrix fuel
    {| st_tableau := single_tableau; st_counts := add_assignments 1 k2;
       st_printed := [] |} Hd Hs eq_refl) as [k3 ->].
  by exists k3.
Qed.

Lemma unknown_strategy_never_aborts_witness :
  ∃ k, outcome (simplex_w_counts 7 [num 1] [[num 1]] [num 5] "max" "row")
       = Looping {| st_tableau := single_tableau; st_counts := k;
                    st_printed := replicate 7 matrix_type_message |}.
Proof.
  apply (unknown_strategy_never_aborts "row" 7); discriminate.
Defined.

(** ** Loops over [range(n)] that rewrite a list cell by cell *)

Lemma for_range_ind {S} (P : nat → S → Prop) (n : nat)
    (body : nat → S → result S) (s : S) :
  P 0%nat s →
  (∀ i s, (i < n)%nat → P i s → ∃ s', body i s = Returned s' ∧ P (Datatypes.S i) s') →
  ∃ s', for_each (range n) body s = Returned s' ∧ P n s'.
Proof.
  intros H0 Hstep. induction n as [|n IH].
  - exists s. by split.
  - destruct IH as (s1 & Hs1 & HP1).
    { intros i s0 Hi. apply Hstep. lia. }
    destruct (Hstep n s1 (Nat.lt_succ_diag_r n) HP1) as (s2 & Hs2 & HP2).
    exists s2. split; [|done].
    rewrite range_S, for_each_app, Hs1. simpl. by rewrite Hs2.
Qed.

Lemma rewritten_0 {A} (l : list A) (g : nat → A → A) : rewritten 0 l g = l.
Proof. unfold rewritten. by rewrite take_0, drop_0. Qed.

Lemma rewritten_all {A} (l : list A) (g : nat → A → A) (a : nat) :
  (length l ≤ a)%nat → rewritten a l g = imap g l.
Proof.
  intros Ha. unfold rewritten.
  by rewrite take_ge, drop_ge, app_nil_r by done.
Qed.

Lemma length_rewritten {A} (a : nat) (l : list A) (g : nat → A → A) :
  length (rewritten a l g) = length l.
Proof.
  unfold rewritten. rewrite length_app, length_imap, length_take, length_drop.
  lia.
Qed.

Lemma rewritten_lookup {A} (a : nat) (l : list A) (g : nat → A → A)
    (j : nat) :
  rewritten a l g !! j = if decide (j < a)%nat then g j <$> l !! j else l !! j.
Proof.
  unfold rewritten. case_decide as Hj.
  - destruct (decide (j < length l)%nat) as [Hl|Hl].
    + rewrite lookup_app_l by (rewrite length_imap, length_take; lia).
      by rewrite list_lookup_imap, lookup_take_lt.
    + rewrite (lookup_ge_None_2 l j) by lia. simpl.
      apply lookup_ge_None_2.
      rewrite length_app, length_imap, length_take, length_drop. lia.
  - destruct (decide (a ≤ length l)%nat) as [Hl|Hl].
    + rewrite lookup_app_r by (rewrite length_imap, length_take; lia).
      rewrite length_imap, length_take, Nat.min_l by lia.
      rewrite lookup_drop. f_equal. lia.
    + rewrite take_ge, drop_ge, app_nil_r by lia.
      rewrite list_lookup_imap.
      by rewrite (lookup_ge_None_2 l j) by lia.
Qed.

Lemma rewritten_step {A} (a : nat) (l : list A) (g : nat → A → A) (x : A) :
  l !! a = Some x →
  <[a := g a x]> (rewritten a l g) = rewritten (S a) l g.
Proof.
  intros Hx. apply list_eq. intros j.
  rewrite rewritten_lookup.
  destruct (decide (j = a)) as [->|Hne].
  - rewrite list_lookup_insert_eq.
    + rewrite decide_True by lia. by rewrite Hx.
    + rewrite length_rewritten. by eapply lookup_lt_Some.
  - rewrite list_lookup_insert_ne by done. rewrite rewritten_lookup.
    repeat case_decide; try done; lia.
Qed.

(** ** The dense pivot in closed form *)

Lemma get_cell_lookup (t : tableau) (i j : nat) (row : list Qc) (x : Qc) :
  t !! i = Some row → row !! j = Some x → get_cell t i j = Returned x.
Proof.
  intros Hrow Hx. unfold get_cell.
  rewrite (getitem_Some _ _ _ Hrow). simpl. by apply getitem_Some.
Qed.

Lemma set_cell_lookup (t : tableau) (i j : nat) (row : list Qc) (x : Qc) :
  t !! i = Some row → (j < length row)%nat →
  set_cell t i j x = Returned (<[i := <[j := x]> row]> t).
Proof.
  intros Hrow Hj. unfold set_cell, setitem.
  rewrite (getitem_Some _ _ _ Hrow). simpl. by rewrite decide_True.
Qed.

Lemma rectangular_insert (ncols : nat) (t : tableau) (i : nat)
    (row : list Qc) :
  rectangular ncols t → length row = ncols → rectangular ncols (<[i := row]> t).
Proof. intros Hrect Hrow. by apply Forall_insert. Qed.

Lemma normalize_loop_closed (t : tableau) (r : nat) (row : list Qc) (p : Qc) :
  t !! r = Some row → p ≠ 0 →
  for_each (range (length row)) (normalize_body r p) t
  = Returned (<[r := (λ x, x / p) <$> row]> t).
Proof.
  intros Hrow Hp.
  destruct (for_range_ind
    (λ a s, s = <[r := rewritten a row (λ _ x, x / p)]> t)
    (length row) (normalize_body r p) t) as (s & -> & ->).
  - rewrite rewritten_0. by rewrite list_insert_id.
  - intros a s Ha ->.
    destruct (lookup_lt_is_Some_2 row a Ha) as [x Hx].
    pose proof (lookup_lt_Some _ _ _ Hrow) as Hr.
    exists (<[r := rewritten (S a) row (λ _ x, x / p)]> t). split; [|done].
    unfold normalize_body.
    rewrite (get_cell_lookup _ r a (rewritten a row (λ _ x, x / p)) x).
    + simpl. unfold div. rewrite bool_decide_eq_false_2 by done. simpl.
      rewrite (set_cell_lookup _ r a (rewritten a row (λ _ x, x / p))).
      * rewrite list_insert_insert_eq. f_equal. f_equal.
        by apply (rewritten_step a row (λ _ x, x / p)).
      * by apply list_lookup_insert_eq.
      * by rewrite length_rewritten.
    + by apply list_lookup_insert_eq.
    + rewrite rewritten_lookup. by rewrite decide_False by lia.
  - rewrite rewritten_all by done. f_equal. f_equal.
    apply list_eq. intros j. by rewrite list_lookup_imap, list_lookup_fmap.
Qed.

Lemma eliminate_loop_closed (t : tableau) (r i : nat) (row prow : list Qc)
    (f : Qc) :
  i ≠ r → t !! i = Some row → t !! r = Some prow →
  length prow = length row →
  for_each (range (length row)) (eliminate_body r i f) t
  = Returned (<[i := imap (λ j x, x - f * cell prow j) row]> t).
Proof.
  intros Hne Hrow Hprow Hlen.
  set (g := λ j x, x - f * cell prow j).
  destruct (for_range_ind (λ a s, s = <[i := rewritten a row g]> t)
    (length row) (eliminate_body r i f) t) as (s & -> & ->).
  - rewrite rewritten_0. by rewrite list_insert_id.
  - intros a s Ha ->.
    destruct (lookup_lt_is_Some_2 row a Ha) as [x Hx].
    destruct (lookup_lt_is_Some_2 prow a) as [y Hy]; [lia|].
    pose proof (lookup_lt_Some _ _ _ Hrow) as Hi.
    exists (<[i := rewritten (S a) row g]> t). split; [|done].
    unfold eliminate_body.
    rewrite (get_cell_lookup _ i a (rewritten a row g) x).
    + simpl. rewrite (get_cell_lookup _ r a prow y).
      * simpl. rewrite (set_cell_lookup _ i a (rewritten a row g)).
        -- rewrite list_insert_insert_eq. f_equal. f_equal.
           rewrite <- (rewritten_step a row g x Hx). unfold g.
           by rewrite (cell_lookup _ _ _ Hy).
        -- by apply list_lookup_insert_eq.
        -- by rewrite length_rewritten.
      * by rewrite list_lookup_insert_ne.
      * done.
    + by apply list_lookup_insert_eq.
    + rewrite rewritten_lookup. by rewrite decide_False by lia.
  - by rewrite rewritten_all.
Qed.

Lemma eliminate_row_closed (t : tableau) (ncols r k i : nat)
    (row prow : list Qc) :
  rectangular ncols t → (k < ncols)%nat →
  t !! i = Some row → t !! r = Some prow →
  eliminate_row r k i t
  = Returned (<[i := if decide (i = r) then row
                     else eliminated_row prow k row]> t).
Proof.
  intros Hrect Hk Hrow Hprow. unfold eliminate_row.
  destruct (decide (i = r)) as [->|Hne].
  - rewrite decide_False by naive_solver. by rewrite list_insert_id.
  - rewrite decide_True by done.
    rewrite (getitem_Some _ _ _ Hrow). simpl.
    pose proof (rectangular_lookup _ _ _ _ Hrect Hrow) as Hlen.
    pose proof (rectangular_lookup _ _ _ _ Hrect Hprow) as Hlen'.
    destruct (getitem_lt row k) as (f & Hf & ->); [lia|]. simpl.
    rewrite (eliminate_loop_closed t r i row prow f) by (done || lia).
    unfold eliminated_row. by rewrite (cell_lookup _ _ _ Hf).
Qed.

Lemma length_eliminated_row (prow : list Qc) (k : nat) (row : list Qc) :
  length (eliminated_row prow k row) = length row.
Proof. unfold eliminated_row. apply length_imap. Qed.

Lemma length_normalized_row (t : tableau) (r k : nat) (row : list Qc) :
  t !! r = Some row → length (normalized_row t r k) = length row.
Proof. intros Hrow. unfold normalized_row. by rewrite Hrow, length_fmap. Qed.

Lemma rectangular_lookup_iff (ncols : nat) (t : tableau) :
  rectangular ncols t ↔ ∀ i row, t !! i = Some row → length row = ncols.
Proof. unfold rectangular. apply Forall_lookup. Qed.

Lemma eliminate_rows_closed (t : tableau) (ncols r k : nat) (prow : list Qc) :
  rectangular ncols t → (k < ncols)%nat → t !! r = Some prow →
  for_each (range (length t)) (eliminate_row r k) t
  = Returned (imap (λ i row, if decide (i = r) then row
                             else eliminated_row prow k row) t).
Proof.
  intros Hrect Hk Hprow.
  set (G := λ (i : nat) (row : list Qc),
              if decide (i = r) then row else eliminated_row prow k row).
  assert (∀ i row, length (G i row) = length row) as HG.
  { intros i row. unfold G. case_decide; [done|].
    apply length_eliminated_row. }
  destruct (for_range_ind (λ a s, s = rewritten a t G)
    (length t) (eliminate_row r k) t) as (s & -> & ->).
  - by rewrite rewritten_0.
  - intros a s Ha ->.
    destruct (lookup_lt_is_Some_2 t a Ha) as [row Hrow].
    exists (rewritten (S a) t G). split; [|done].
    rewrite (eliminate_row_closed _ ncols r k a row prow); [| |done| |].
    + f_equal. by apply (rewritten_step a t G).
    + apply rectangular_lookup_iff. intros i rowi.
      rewrite rewritten_lookup. case_decide.
      * destruct (t !! i) as [row'|] eqn:Hi; [|done]. simpl.
        intros [= <-]. rewrite HG. by eapply rectangular_lookup.
      * by apply rectangular_lookup.
    + rewrite rewritten_lookup. by rewrite decide_False by lia.
    + rewrite rewritten_lookup. case_decide; [|done].
      rewrite Hprow. simpl. unfold G. by rewrite decide_True.
  - by rewrite rewritten_all.
Qed.

Lemma perform_pivoting_closed (t : tableau) (ncols r k : nat) :
  rectangular ncols t → (r < length t)%nat → (k < ncols)%nat →
  entry t r k ≠ 0 →
  perform_pivoting t r k = Returned (pivoted t r k).
Proof.
  intros Hrect Hr Hk Hp.
  destruct (lookup_lt_is_Some_2 t r Hr) as [prow Hprow].
  destruct (lookup_lt_is_Some_2 t 0) as [row0 Hrow0]; [lia|].
  pose proof (rectangular_lookup _ _ _ _ Hrect Hprow) as Hlen.
  pose proof (rectangular_lookup _ _ _ _ Hrect Hrow0) as Hlen0.
  destruct (lookup_lt_is_Some_2 prow k) as [p Hpk]; [lia|].
  assert (entry t r k = p) as Hentry.
  { by rewrite (entry_lookup _ _ _ _ Hprow), (cell_lookup _ _ _ Hpk). }
  rewrite Hentry in Hp.
  unfold perform_pivoting.
  rewrite (get_cell_lookup _ _ _ _ _ Hprow Hpk). simpl.
  rewrite (getitem_Some _ _ _ Hrow0). simpl.
  rewrite Hlen0, <- Hlen.
  rewrite (normalize_loop_closed t r prow p Hprow Hp). simpl.
  set (prow' := (λ x, x / p) <$> prow).
  assert (normalized_row t r k = prow') as Hnorm.
  { unfold normalized_row. by rewrite Hprow, Hentry. }
  rewrite (eliminate_rows_closed _ ncols r k prow').
  - f_equal. unfold pivoted. rewrite Hnorm. apply list_eq. intros i.
    rewrite !list_lookup_imap.
    destruct (decide (i = r)) as [->|Hne].
    + rewrite list_lookup_insert_eq by done. by rewrite Hprow.
    + rewrite list_lookup_insert_ne by done. by destruct (t !! i).
  - apply rectangular_insert; [done|]. unfold prow'.
    by rewrite length_fmap.
  - done.
  - by apply list_lookup_insert_eq.
Qed.

Lemma Qc_div_self (p : Qc) : p ≠ 0 → p / p = 1.
Proof. intros Hp. by field. Qed.

(** C5.  For a rectangular tableau and pivot coordinates [(r, k)] with a
    non-zero pivot element, [perform_pivoting] returns, and in the tableau
    it leaves column [k] is a unit vector: entry [(r, k)] is 1 and the
    entry of every other row in column [k] is 0.  (Exact arithmetic.) *)
Theorem pivot_column_becomes_unit (t : tableau) (ncols r k : nat) :
  rectangular ncols t → (r < length t)%nat → (k < ncols)%nat →
  entry t r k ≠ 0 →
  ∃ t', perform_pivoting t r k = Returned t' ∧
    length t' = length t ∧ rectangular ncols t' ∧
    entry t' r k = 1 ∧
    ∀ i, (i < length t)%nat → i ≠ r → entry t' i k = 0.
Proof.
  intros Hrect Hr Hk Hp. exists (pivoted t r k).
  split; [by eapply perform_pivoting_closed|].
  destruct (lookup_lt_is_Some_2 t r Hr) as [prow Hprow].
  pose proof (rectangular_lookup _ _ _ _ Hrect Hprow) as Hlen.
  destruct (lookup_lt_is_Some_2 prow k) as [p Hpk]; [lia|].
  assert (entry t r k = p) as Hentry.
  { by rewrite (entry_lookup _ _ _ _ Hprow), (cell_lookup _ _ _ Hpk). }
  assert (cell (normalized_row t r k) k = 1) as Hone.
  { unfold normalized_row, cell. rewrite Hprow. simpl.
    rewrite list_lookup_fmap, Hpk. simpl. rewrite Hentry.
    apply Qc_div_self. by rewrite <- Hentry. }
  split_and!.
  - unfold pivoted. apply length_imap.
  - apply rectangular_lookup_iff. intros i row. unfold pivoted.
    rewrite list_lookup_imap.
    destruct (t !! i) as [rowi|] eqn:Hi; [|done]. simpl. intros [= <-].
    case_decide.
    + by rewrite (length_normalized_row _ _ _ _ Hprow).
    + rewrite length_eliminated_row. by eapply rectangular_lookup.
  - unfold entry at 1, pivoted. rewrite list_lookup_imap, Hprow. simpl.
    by rewrite decide_True.
  - intros i Hi Hne.
    destruct (lookup_lt_is_Some_2 t i Hi) as [row Hrow].
    pose proof (rectangular_lookup _ _ _ _ Hrect Hrow) as Hlen'.
    destruct (lookup_lt_is_Some_2 row k) as [x Hx]; [lia|].
    unfold entry, pivoted. rewrite list_lookup_imap, Hrow. simpl.
    rewrite decide_False by done.
    unfold eliminated_row.
    rewrite (cell_lookup _ k
               (x - cell row k * cell (normalized_row t r k) k))
      by (by rewrite list_lookup_imap, Hx).
    rewrite Hone, (cell_lookup _ _ _ Hx). ring.
Qed.

Lemma pivot_column_becomes_unit_witness :
  ∃ t', perform_pivoting sample_tableau 0 0 = Returned t' ∧
    length t' = length sample_tableau ∧ rectangular 6 t' ∧
    entry t' 0 0 = 1 ∧
    ∀ i, (i < length sample_tableau)%nat → i ≠ 0%nat → entry t' i 0 = 0.
Proof.
  apply (pivot_column_becomes_unit sample_tableau 6 0 0).
  - repeat constructor.
  - simpl. lia.
  - lia.
  - vm_compute. discriminate.
Defined.

(** ** The sparse executor against the dense one *)

Lemma set_cell_sim (ncols n : nat) (t : tableau) (i j : nat) (x : Qc) :
  rectangular ncols t → length t = n →
  match set_cell t i j x with
  | Returned t' => rectangular ncols t' ∧ length t' = n
  | Raised _ => True
  end.
Proof.
  intros Hrect Hlen. unfold set_cell, getitem.
  destruct (t !! i) as [row|] eqn:Hrow; simpl; [|done].
  unfold setitem. case_decide; simpl; [|done]. split.
  - apply rectangular_insert; [done|].
    rewrite length_insert. by eapply rectangular_lookup.
  - by rewrite length_insert.
Qed.

Lemma Qc_div_0 (p : Qc) : p ≠ 0 → 0 / p = 0.
Proof. intros Hp. by field. Qed.

Lemma set_cell_same (t : tableau) (i j : nat) (x : Qc) :
  get_cell t i j = Returned x → set_cell t i j x = Returned t.
Proof.
  unfold get_cell, set_cell, getitem.
  destruct (t !! i) as [row|] eqn:Hrow; simpl; [|done].
  destruct (row !! j) as [y|] eqn:Hy; simpl; [|done]. intros [= ->].
  unfold setitem. rewrite decide_True by by eapply lookup_lt_Some. simpl.
  by rewrite (list_insert_id row), (list_insert_id t).
Qed.

Lemma sparse_normalize_body_sim (ncols n r : nat) (p : Qc) (j : nat)
    (s : tableau * counts) (t : tableau) :
  p ≠ 0 → sparse_sim ncols n s t →
  result_rel (sparse_sim ncols n)
    (sparse_normalize_body_w_counts r p j s) (normalize_body r p j t).
Proof.
  intros Hp (Hst & Hrect & Hlen). destruct s as [t1 k]. simpl in Hst.
  subst t1. unfold sparse_normalize_body_w_counts, normalize_body.
  destruct (get_cell t r j) as [x|e] eqn:Hx; simpl; [|done].
  unfold div. rewrite (bool_decide_eq_false_2 (p = 0)) by done. simpl.
  case_bool_decide as Hz; simpl.
  - pose proof (set_cell_sim ncols n t r j (x / p) Hrect Hlen) as Hset.
    destruct (set_cell t r j (x / p)); simpl; [|done]. by split.
  - subst x. rewrite Qc_div_0 by done.
    rewrite (set_cell_same _ _ _ _ Hx). simpl. by split.
Qed.

Lemma sparse_eliminate_body_sim (ncols n r i : nat) (f : Qc) (j : nat)
    (s : tableau * counts) (t : tableau) :
  (r < n)%nat → (i < n)%nat → (j < ncols)%nat → sparse_sim ncols n s t →
  result_rel (sparse_sim ncols n)
    (sparse_eliminate_body_w_counts r i f j s) (eliminate_body r i f j t).
Proof.
  intros Hr Hi Hj (Hst & Hrect & Hlen). destruct s as [t1 k]. simpl in Hst.
  subst t1. unfold sparse_eliminate_body_w_counts, eliminate_body.
  destruct (lookup_lt_is_Some_2 t r) as [prow Hprow]; [lia|].
  destruct (lookup_lt_is_Some_2 t i) as [row Hrow]; [lia|].
  destruct (lookup_lt_is_Some_2 prow j) as [y Hy].
  { by rewrite (rectangular_lookup _ _ _ _ Hrect Hprow). }
  destruct (lookup_lt_is_Some_2 row j) as [x Hx].
  { by rewrite (rectangular_lookup _ _ _ _ Hrect Hrow). }
  rewrite (get_cell_lookup _ _ _ _ _ Hprow Hy),
    (get_cell_lookup _ _ _ _ _ Hrow Hx). simpl.
  case_bool_decide as Hz; simpl.
  - pose proof (set_cell_sim ncols n t i j (x - f * y) Hrect Hlen) as Hset.
    destruct (set_cell t i j (x - f * y)); simpl; [|done]. by split.
  - subst y.
    replace (x - f * 0) with x by ring.
    rewrite (set_cell_same t i j x) by by eapply get_cell_lookup.
    simpl. by split.
Qed.

Lemma for_each_sparse_sim {X} (ncols n : nat) (xs : list X)
    (f : X → tableau * counts → result (tableau * counts))
    (g : X → tableau → result tableau) (s : tableau * counts) (t : tableau) :
  sparse_sim ncols n s t →
  (∀ x s t, x ∈ xs → sparse_sim ncols n s t →
            result_rel (sparse_sim ncols n) (f x s) (g x t)) →
  result_rel (sparse_sim ncols n) (for_each xs f s) (for_each xs g t).
Proof. apply for_each_rel. Qed.

Lemma eliminate_by_zero (t : tableau) (ncols r k i : nat) (row : list Qc) :
  rectangular ncols t → (r < length t)%nat → i ≠ r →
  t !! i = Some row →
  for_each (range (length row)) (eliminate_body r i 0) t = Returned t.
Proof.
  intros Hrect Hr Hne Hrow.
  destruct (lookup_lt_is_Some_2 t r Hr) as [prow Hprow].
  rewrite (eliminate_loop_closed t r i row prow 0); [|done..|].
  - f_equal. apply list_insert_id. rewrite Hrow. f_equal.
    apply list_eq. intros j. rewrite list_lookup_imap.
    destruct (row !! j) as [x|]; [|done]. simpl. f_equal. ring.
  - rewrite (rectangular_lookup _ _ _ _ Hrect Hprow).
    by rewrite (rectangular_lookup _ _ _ _ Hrect Hrow).
Qed.

Lemma sparse_eliminate_row_sim (ncols n r k i : nat)
    (s : tableau * counts) (t : tableau) :
  (r < n)%nat → (i < n)%nat → (k < ncols)%nat → sparse_sim ncols n s t →
  result_rel (sparse_sim ncols n)
    (sparse_eliminate_row_w_counts r k i s) (eliminate_row r k i t).
Proof.
  intros Hr Hi Hk (Hst & Hrect & Hlen). destruct s as [t1 c]. simpl in Hst.
  subst t1. unfold sparse_eliminate_row_w_counts, eliminate_row.
  case_decide as Hne; [|by split].
  destruct (lookup_lt_is_Some_2 t i) as [row Hrow]; [lia|].
  destruct (lookup_lt_is_Some_2 t 0) as [row0 Hrow0]; [lia|].
  pose proof (rectangular_lookup _ _ _ _ Hrect Hrow) as Hlrow.
  pose proof (rectangular_lookup _ _ _ _ Hrect Hrow0) as Hlrow0.
  destruct (lookup_lt_is_Some_2 row k) as [f Hf]; [lia|].
  rewrite (get_cell_lookup _ _ _ _ _ Hrow Hf).
  rewrite (getitem_Some _ _ _ Hrow). simpl.
  rewrite (getitem_Some _ _ _ Hf). simpl.
  case_bool_decide as Hz; simpl.
  - rewrite (getitem_Some _ _ _ Hrow0). simpl. rewrite Hlrow, Hlrow0.
    apply for_each_sparse_sim; [by split|].
    intros j s' t' Hj%elem_of_range Hsim.
    by apply sparse_eliminate_body_sim.
  - subst f.
    rewrite (eliminate_by_zero t ncols r k i row) by (done || lia).
    by split.
Qed.

Lemma perform_sparse_pivoting_sim (t : tableau) (ncols r k : nat)
    (c : counts) :
  rectangular ncols t → (r < length t)%nat → (k < ncols)%nat →
  entry t r k ≠ 0 →
  erases (perform_sparse_pivoting_w_counts t r k c) (perform_pivoting t r k).
Proof.
  intros Hrect Hr Hk Hp.
  destruct (lookup_lt_is_Some_2 t r Hr) as [prow Hprow].
  pose proof (rectangular_lookup _ _ _ _ Hrect Hprow) as Hlen.
  destruct (lookup_lt_is_Some_2 prow k) as [p Hpk]; [lia|].
  assert (entry t r k = p) as Hentry.
  { by rewrite (entry_lookup _ _ _ _ Hprow), (cell_lookup _ _ _ Hpk). }
  rewrite Hentry in Hp.
  unfold perform_sparse_pivoting_w_counts, perform_pivoting.
  rewrite (get_cell_lookup _ _ _ _ _ Hprow Hpk). simpl.
  destruct (getitem t 0) as [row0|]; simpl; [|done].
  set (c1 := add_assignments 1 (add_accesses 2 c)).
  pose proof (for_each_sparse_sim ncols (length t) (range (length row0))
    (sparse_normalize_body_w_counts r p) (normalize_body r p) (t, c1) t)
    as H1.
  destruct (for_each _ (sparse_normalize_body_w_counts r p) _)
    as [[t1 c1']|e1], (for_each _ (normalize_body r p) _) as [t1'|e1'];
    simpl in *.
  - destruct H1 as (Heq & Hrect1 & Hlen1); [by split| |].
    { intros. by apply sparse_normalize_body_sim. }
    simpl in Heq. subst t1'.
    apply fmap_result_rel.
    pose proof (for_each_sparse_sim ncols (length t) (range (length t1))
      (sparse_eliminate_row_w_counts r k) (eliminate_row r k) (t1, c1') t1)
      as H2.
    assert (result_rel (sparse_sim ncols (length t))
              (for_each (range (length t1))
                 (sparse_eliminate_row_w_counts r k) (t1, c1'))
              (for_each (range (length t1)) (eliminate_row r k) t1)) as H3.
    { apply H2; [by split|].
      intros i s' t' Hi%elem_of_range Hsim.
      apply sparse_eliminate_row_sim; [done|lia|done..]. }
    destruct (for_each _ (sparse_eliminate_row_w_counts r k) _) as [[]|],
      (for_each _ (eliminate_row r k) _); simpl in *; try done.
    by destruct H3.
  - exfalso. apply H1; [by split|]. intros. by apply sparse_normalize_body_sim.
  - exfalso. apply H1; [by split|]. intros. by apply sparse_normalize_body_sim.
  - unfold erases. simpl. f_equal. apply H1; [by split|].
    intros. by apply sparse_normalize_body_sim.
Qed.

Lemma rectangular_pivoted (t : tableau) (ncols r k : nat) :
  rectangular ncols t → (r < length t)%nat →
  rectangular ncols (pivoted t r k).
Proof.
  intros Hrect Hr.
  destruct (lookup_lt_is_Some_2 t r Hr) as [prow Hprow].
  pose proof (rectangular_lookup _ _ _ _ Hrect Hprow) as Hlen.
  apply rectangular_lookup_iff. intros i row. unfold pivoted.
  rewrite list_lookup_imap.
  destruct (t !! i) as [rowi|] eqn:Hi; [|done]. simpl. intros [= <-].
  case_decide.
  - by rewrite (length_normalized_row _ _ _ _ Hprow).
  - rewrite length_eliminated_row. by eapply rectangular_lookup.
Qed.

Lemma perform_pivoting_Returned_valid (t t' : tableau) (ncols r k : nat) :
  rectangular ncols t → perform_pivoting t r k = Returned t' →
  (r < length t)%nat ∧ (k < ncols)%nat ∧ entry t r k ≠ 0.
Proof.
  intros Hrect. unfold perform_pivoting, get_cell.
  destruct (getitem t r) as [prow|] eqn:Hprow; simpl; [|done].
  apply getitem_Returned in Hprow.
  destruct (getitem prow k) as [p|] eqn:Hpk; simpl; [|done].
  apply getitem_Returned in Hpk.
  pose proof (lookup_lt_Some _ _ _ Hprow) as Hr.
  pose proof (lookup_lt_Some _ _ _ Hpk) as Hk.
  pose proof (rectangular_lookup _ _ _ _ Hrect Hprow) as Hlen.
  rewrite Hlen in Hk.
  destruct (lookup_lt_is_Some_2 t 0) as [row0 Hrow0]; [lia|].
  rewrite (getitem_Some _ _ _ Hrow0). simpl.
  pose proof (rectangular_lookup _ _ _ _ Hrect Hrow0) as Hlen0.
  intros Hret. split_and!; [done..|].
  rewrite (entry_lookup _ _ _ _ Hprow), (cell_lookup _ _ _ Hpk).
  intros ->. rewrite Hlen0 in Hret.
  destruct ncols as [|ncols]; [lia|].
  destruct (lookup_lt_is_Some_2 prow 0) as [x Hx]; [lia|].
  unfold range in Hret. simpl in Hret.
  unfold normalize_body at 1 in Hret.
  by rewrite (get_cell_lookup _ _ _ _ _ Hprow Hx) in Hret.
Qed.

(** ** The shape of the tableau the builder returns *)


Lemma set_cell_shape (ncols n : nat) (t t' : tableau) (i j : nat) (x : Qc) :
  grid_shape ncols n t → set_cell t i j x = Returned t' →
  grid_shape ncols n t'.
Proof.
  intros [Hrect Hlen] Hset.
  pose proof (set_cell_sim ncols n t i j x Hrect Hlen) as H.
  by rewrite Hset in H.
Qed.












(** ** Dense and sparse strategies in the solver loop *)





(** ** Tableaus as grids *)

Lemma length_grid (rows cols : nat) (f : nat → nat → Qc) :
  length (grid rows cols f) = rows.
Proof. unfold grid. by rewrite length_fmap, length_seq. Qed.

Lemma grid_lookup (rows cols : nat) (f : nat → nat → Qc) (i : nat) :
  (i < rows)%nat → grid rows cols f !! i = Some (f i <$> seq 0 cols).
Proof.
  intros Hi. unfold grid. rewrite list_lookup_fmap.
  by rewrite (lookup_seq_lt 0 rows i Hi).
Qed.

Lemma grid_row_lookup (cols : nat) (g : nat → Qc) (j : nat) :
  (j < cols)%nat → (g <$> seq 0 cols) !! j = Some (g j).
Proof.
  intros Hj. rewrite list_lookup_fmap. by rewrite (lookup_seq_lt 0 cols j Hj).
Qed.

Lemma grid_ext (rows cols : nat) (f g : nat → nat → Qc) :
  (∀ i j, (i < rows)%nat → (j < cols)%nat → f i j = g i j) →
  grid rows cols f = grid rows cols g.
Proof.
  intros Hfg. unfold grid. apply list_eq. intros i.
  rewrite !list_lookup_fmap.
  destruct (seq 0 rows !! i) as [i'|] eqn:Hi; [|done]. simpl. f_equal.
  apply lookup_seq in Hi as [Heqi Hlti]. subst i'. simpl.
  apply list_eq. intros j. rewrite !list_lookup_fmap.
  destruct (seq 0 cols !! j) as [j'|] eqn:Hj; [|done]. simpl. f_equal.
  apply lookup_seq in Hj as [Heqj Hltj]. subst j'. simpl. by apply Hfg.
Qed.

Lemma replicate_grid (rows cols : nat) :
  replicate rows (replicate cols 0) = grid rows cols (λ _ _, 0).
Proof.
  unfold grid. apply list_eq. intros i.
  destruct (decide (i < rows)%nat) as [Hi|Hi].
  - rewrite lookup_replicate_2 by done.
    rewrite list_lookup_fmap, (lookup_seq_lt 0 rows i Hi). simpl. f_equal.
    apply list_eq. intros j.
    destruct (decide (j < cols)%nat) as [Hj|Hj].
    + rewrite lookup_replicate_2 by done. by rewrite grid_row_lookup.
    + rewrite !lookup_ge_None_2; [done|..].
      * rewrite length_fmap, length_seq. lia.
      * rewrite length_replicate. lia.
  - rewrite !lookup_ge_None_2; [done|..].
    + rewrite length_fmap, length_seq. lia.
    + rewrite length_replicate. lia.
Qed.

Lemma entry_grid (rows cols : nat) (f : nat → nat → Qc) (i j : nat) :
  (i < rows)%nat → (j < cols)%nat → entry (grid rows cols f) i j = f i j.
Proof.
  intros Hi Hj. unfold entry, cell.
  rewrite grid_lookup by done. simpl. by rewrite grid_row_lookup.
Qed.

Lemma rectangular_grid (rows cols : nat) (f : nat → nat → Qc) :
  rectangular cols (grid rows cols f).
Proof.
  apply rectangular_lookup_iff. intros i row Hrow.
  pose proof (lookup_lt_Some _ _ _ Hrow) as Hi. rewrite length_grid in Hi.
  rewrite grid_lookup in Hrow by done. injection Hrow as <-.
  by rewrite length_fmap, length_seq.
Qed.

Lemma insert_grid_row (cols : nat) (g : nat → Qc) (j : nat) (x : Qc) :
  (j < cols)%nat →
  <[j := x]> (g <$> seq 0 cols)
  = (λ j', if decide (j' = j) then x else g j') <$> seq 0 cols.
Proof.
  intros Hj. apply list_eq. intros j'.
  destruct (decide (j' < cols)%nat) as [Hj'|Hj'].
  - rewrite grid_row_lookup by done.
    destruct (decide (j' = j)) as [->|Hne].
    + rewrite list_lookup_insert_eq; [done|].
      by rewrite length_fmap, length_seq.
    + rewrite list_lookup_insert_ne by done. by apply grid_row_lookup.
  - rewrite !lookup_ge_None_2; [done|..].
    + rewrite length_fmap, length_seq. lia.
    + rewrite length_insert, length_fmap, length_seq. lia.
Qed.

Lemma insert_grid (rows cols : nat) (f : nat → nat → Qc) (i j : nat)
    (x : Qc) :
  (i < rows)%nat → (j < cols)%nat →
  <[i := <[j := x]> (f i <$> seq 0 cols)]> (grid rows cols f)
  = grid rows cols (upd f i j x).
Proof.
  intros Hi Hj. apply list_eq. intros i'.
  destruct (decide (i' < rows)%nat) as [Hi'|Hi'].
  - rewrite (grid_lookup _ _ (upd f i j x)) by done.
    destruct (decide (i' = i)) as [->|Hne].
    + rewrite list_lookup_insert_eq by by rewrite length_grid.
      f_equal. rewrite insert_grid_row by done.
      apply list_fmap_ext. intros _ j' _. unfold upd.
      destruct (decide (j' = j)) as [->|Hj'].
      * by rewrite decide_True.
      * rewrite decide_False; [done|]. by intros [_ ?].
    + rewrite list_lookup_insert_ne by done. rewrite grid_lookup by done.
      f_equal. apply list_fmap_ext. intros _ j' _. unfold upd.
      rewrite decide_False; [done|]. by intros [? _].
  - rewrite !lookup_ge_None_2; [done|..].
    + rewrite length_grid. lia.
    + rewrite length_insert, length_grid. lia.
Qed.

Lemma set_cell_grid (rows cols : nat) (f : nat → nat → Qc) (i j : nat)
    (x : Qc) :
  (i < rows)%nat → (j < cols)%nat →
  set_cell (grid rows cols f) i j x = Returned (grid rows cols (upd f i j x)).
Proof.
  intros Hi Hj.
  rewrite (set_cell_lookup _ i j (f i <$> seq 0 cols)).
  - by rewrite insert_grid.
  - by apply grid_lookup.
  - by rewrite length_fmap, length_seq.
Qed.

Lemma for_enumerate_ind {S X} (P : nat → S → Prop) (l : list X)
    (body : nat * X → S → result S) (s : S) :
  P 0%nat s →
  (∀ i x s, l !! i = Some x → P i s →
            ∃ s', body (i, x) s = Returned s' ∧ P (Datatypes.S i) s') →
  ∃ s', for_each (enumerate l) body s = Returned s' ∧ P (length l) s'.
Proof.
  intros H0. induction l as [|x l IH] using rev_ind; intros Hstep.
  - exists s. by split.
  - destruct IH as (s1 & Hs1 & HP1).
    { intros i y s0 Hy. apply Hstep. by apply lookup_app_l_Some. }
    destruct (Hstep (length l) x s1) as (s2 & Hs2 & HP2); [|done|].
    { by rewrite lookup_app_r, Nat.sub_diag. }
    exists s2. split.
    + unfold enumerate in *. rewrite length_app. simpl.
      rewrite seq_app, zip_with_app by by rewrite length_seq.
      rewrite for_each_app, Hs1. simpl. by rewrite Hs2.
    + rewrite length_app. simpl. by rewrite Nat.add_1_r.
Qed.

(** ** The builder in closed form *)

Lemma getitem_grid (rows cols : nat) (f : nat → nat → Qc) (i : nat) :
  (i < rows)%nat →
  getitem (grid rows cols f) i = Returned (f i <$> seq 0 cols).
Proof. intros Hi. apply getitem_Some. by apply grid_lookup. Qed.

Lemma getitem_neg_grid (rows cols : nat) (f : nat → nat → Qc) :
  (0 < rows)%nat →
  getitem_neg (grid rows cols f) 1
  = Returned (f (rows - 1)%nat <$> seq 0 cols).
Proof.
  intros Hrows. unfold getitem_neg. rewrite length_grid.
  rewrite decide_True by lia. apply getitem_grid. lia.
Qed.

Lemma set_last_row_grid (rows cols : nat) (f : nat → nat → Qc) (j : nat)
    (x : Qc) :
  (0 < rows)%nat → (j < cols)%nat →
  setitem_neg (grid rows cols f) 1
    (<[j := x]> (f (rows - 1)%nat <$> seq 0 cols))
  = Returned (grid rows cols (upd f (rows - 1) j x)).
Proof.
  intros Hrows Hj. unfold setitem_neg, setitem. rewrite length_grid.
  rewrite !decide_True by lia. f_equal. apply insert_grid; [lia|done].
Qed.

Lemma slack_body_grid (rows cols nv : nat) (f : nat → nat → Qc)
    (c : list Qc) (i : nat) (ci : Qc) :
  (i < rows)%nat → (nv + i < cols)%nat → c !! i = Some ci →
  slack_body nv c i (grid rows cols f)
  = Returned (grid rows cols (upd (upd f i (nv + i) 1) i (cols - 1) ci)).
Proof.
  intros Hi Hj Hci. unfold slack_body.
  rewrite set_cell_grid by done. simpl.
  rewrite (getitem_Some _ _ _ Hci). simpl.
  rewrite getitem_grid by done. simpl.
  unfold setitem_neg, setitem. rewrite length_fmap, length_seq.
  rewrite !decide_True by lia. simpl. f_equal.
  apply insert_grid; [done|lia].
Qed.

Lemma objective_body_grid (rows cols : nat) (f : nat → nat → Qc) (i : nat)
    (coef : Qc) :
  (0 < rows)%nat → (i < cols)%nat →
  objective_body (i, coef) (grid rows cols f)
  = Returned (grid rows cols (upd f (rows - 1) i coef)).
Proof.
  intros Hrows Hi. unfold objective_body.
  rewrite getitem_neg_grid by done. simpl.
  unfold setitem at 1. rewrite length_fmap, length_seq.
  rewrite decide_True by done. simpl.
  by apply set_last_row_grid.
Qed.

Section Builder.

Variables (A' : list Qc) (b : list (list Qc)) (c : list Qc).

Let n := length A'.
Let m := length b.
Let rows := (m + 1)%nat.
Let cols := (n + m + 2)%nat.

Lemma slack_loop_closed (a : nat) :
  (a ≤ m)%nat → (a ≤ length c)%nat →
  for_each (range a) (slack_body n c) (replicate rows (replicate cols 0))
  = Returned (grid rows cols (after_slack A' b c a)).
Proof.
  intros Ham Hac.
  destruct (for_range_ind (λ a s, s = grid rows cols (after_slack A' b c a)) a
    (slack_body n c) (replicate rows (replicate cols 0))) as (s & -> & ->);
    [| |done].
  - rewrite replicate_grid. apply grid_ext. intros i j _ _.
    unfold after_slack. by rewrite decide_False by lia.
  - intros i s Hi ->.
    destruct (lookup_lt_is_Some_2 c i) as [ci Hci]; [lia|].
    eexists. split.
    + apply slack_body_grid; [unfold rows; lia|unfold cols; lia|done].
    + apply grid_ext. intros i' j' Hi' Hj'. unfold upd, after_slack, cols.
      rewrite (cell_lookup _ _ _ Hci) || idtac.
      repeat case_decide; try lia; try done;
        destruct_and?; subst; try lia; by rewrite (cell_lookup _ _ _ Hci).
Qed.

Lemma objective_loop_closed :
  for_each (enumerate A') objective_body (grid rows cols (after_slack A' b c m))
  = Returned (grid rows cols (after_objective A' b c n)).
Proof.
  destruct (for_enumerate_ind
    (λ a s, s = grid rows cols (after_objective A' b c a)) A'
    objective_body (grid rows cols (after_slack A' b c m))) as (s & -> & ->);
    [| |done].
  - apply grid_ext. intros i j _ _. unfold after_objective.
    by rewrite decide_False by lia.
  - intros i coef s Hcoef ->.
    pose proof (lookup_lt_Some _ _ _ Hcoef) as Hi.
    eexists. split.
    + apply objective_body_grid; [unfold rows; lia|unfold cols, n; lia].
    + apply grid_ext. intros i' j' Hi' Hj'.
      unfold upd, after_objective, rows.
      replace (m + 1 - 1)%nat with m by lia.
      repeat case_decide; try lia; try done;
        destruct_and?; subst; try lia; by rewrite (cell_lookup _ _ _ Hcoef).
Qed.

Lemma marker_closed :
  (last_row ← getitem_neg (grid rows cols (after_objective A' b c n)) 1;
   last_row' ← setitem_neg last_row 2 1;
   setitem_neg (grid rows cols (after_objective A' b c n)) 1 last_row')
  = Returned (grid rows cols (after_marker A' b c)).
Proof.
  rewrite getitem_neg_grid by (unfold rows; lia). simpl.
  assert (setitem_neg (after_objective A' b c n (rows - 1) <$> seq 0 cols) 2 1
          = Returned (<[(cols - 2)%nat := 1]>
                        (after_objective A' b c n (rows - 1) <$> seq 0 cols)))
    as ->.
  { unfold setitem_neg, setitem. rewrite length_fmap, length_seq.
    by rewrite !decide_True by (unfold cols; lia). }
  simpl. rewrite set_last_row_grid by (unfold rows, cols; lia).
  unfold after_marker, rows, cols.
  replace (m + 1 - 1)%nat with m by lia.
  by replace (n + m + 2 - 2)%nat with (n + m)%nat by lia.
Qed.

Lemma coefficient_loop_closed (a : nat) (row : list Qc) :
  (a < m)%nat → b !! a = Some row → (length row ≤ cols)%nat →
  for_each (enumerate row) (λ jc t', set_cell t' a jc.1 jc.2)
    (grid rows cols (after_constraints A' b c a))
  = Returned (grid rows cols (after_constraints A' b c (S a))).
Proof.
  intros Ha Hrow Hlen.
  destruct (for_enumerate_ind
    (λ a' s, s = grid rows cols (after_coefficients A' b c a a')) row
    (λ jc t', set_cell t' a jc.1 jc.2)
    (grid rows cols (after_constraints A' b c a))) as (s & -> & ->).
  - apply grid_ext. intros i j _ _. unfold after_coefficients.
    by rewrite decide_False by lia.
  - intros j x s Hx ->.
    pose proof (lookup_lt_Some _ _ _ Hx) as Hj.
    eexists. split.
    + simpl. apply set_cell_grid; [unfold rows; lia|lia].
    + apply grid_ext. intros i' j' Hi' Hj'.
      unfold upd, after_coefficients.
      repeat case_decide; try lia; try done;
        destruct_and?; subst; try lia.
      all: rewrite ?Hrow; simpl; by rewrite ?(cell_lookup _ _ _ Hx).
  - f_equal. apply grid_ext. intros i j Hi Hj.
    unfold after_coefficients, after_constraints.
    destruct (decide (i = a)) as [->|Hne].
    + rewrite Hrow. simpl.
      repeat case_decide; try lia; try done; destruct_and?; lia.
    + repeat case_decide; try lia; try done; destruct_and?; lia.
Qed.

Lemma constraint_loop_closed :
  Forall (λ row, (length row ≤ cols)%nat) b →
  for_each (enumerate (with_slack_columns b)) (constraint_body m)
    (grid rows cols (after_marker A' b c))
  = Returned (grid rows cols (after_constraints A' b c m)).
Proof.
  intros Hb.
  assert (length (with_slack_columns b) = m) as Hlen.
  { unfold with_slack_columns. apply length_imap. }
  destruct (for_enumerate_ind
    (λ a s, (a ≤ m)%nat → s = grid rows cols (after_constraints A' b c a))
    (with_slack_columns b) (constraint_body m)
    (grid rows cols (after_marker A' b c))) as (s & -> & Hs).
  - intros _. apply grid_ext. intros i j _ _. unfold after_constraints.
    by rewrite decide_False by lia.
  - intros a row' s Hrow' Hs.
    pose proof (lookup_lt_Some _ _ _ Hrow') as Ha. rewrite Hlen in Ha.
    rewrite Hs by lia.
    unfold with_slack_columns in Hrow'. rewrite list_lookup_imap in Hrow'.
    destruct (b !! a) as [row|] eqn:Hrow; [|done]. simpl in Hrow'.
    injection Hrow' as <-.
    exists (grid rows cols (after_constraints A' b c (S a))). split; [|done].
    unfold constraint_body.
    assert (slice_until_neg (row ++ slack_entries (length b) a) m = row)
      as ->.
    { unfold slice_until_neg. destruct m as [|m'] eqn:Hm; [lia|].
      rewrite length_app. unfold slack_entries, range.
      rewrite length_fmap, length_seq. fold m. rewrite Hm.
      replace (length row + S m' - S m')%nat with (length row) by lia.
      by rewrite take_app_length. }
    apply coefficient_loop_closed; [done..|].
    by eapply (Forall_lookup_1 _ _ _ _ Hb).
  - f_equal. rewrite Hlen in Hs. by apply Hs.
Qed.

Lemma after_constraints_built (i j : nat) :
  (i < rows)%nat → (j < cols)%nat → after_constraints A' b c m i j
  = built A' b c i j.
Proof.
  intros Hi Hj.
  unfold after_constraints, after_marker, upd, after_objective, after_slack,
    built, rows, cols in *.
  repeat case_decide; try lia; try done; destruct_and?; try lia.
Qed.

(** The builder never fails when there are enough bounds and no constraint
    row is wider than the tableau; [built] is what it returns. *)
Lemma construct_simplex_tableau_closed :
  (m ≤ length c)%nat → Forall (λ row, (length row ≤ cols)%nat) b →
  construct_simplex_tableau A' (with_slack_columns b) c
  = Returned (grid rows cols (built A' b c)).
Proof.
  intros Hc Hb. unfold construct_simplex_tableau.
  assert (length (with_slack_columns b) = m) as Hlen.
  { unfold with_slack_columns. apply length_imap. }
  rewrite Hlen. fold n rows cols.
  rewrite slack_loop_closed by done. simpl.
  rewrite objective_loop_closed. simpl.
  pose proof marker_closed as Hmark.
  destruct (getitem_neg (grid rows cols (after_objective A' b c n)) 1)
    as [lr|]; simpl in *; [|done].
  destruct (setitem_neg lr 2 1) as [lr'|]; simpl in *; [|done].
  rewrite Hmark. simpl.
  rewrite constraint_loop_closed by done. f_equal.
  apply grid_ext, after_constraints_built.
Qed.

(** With a bound missing, the slack loop raises when it reaches it. *)
Lemma construct_simplex_tableau_short_bounds :
  (length c < m)%nat →
  construct_simplex_tableau A' (with_slack_columns b) c = Raised IndexError.
Proof.
  intros Hc. unfold construct_simplex_tableau.
  assert (length (with_slack_columns b) = m) as Hlen.
  { unfold with_slack_columns. apply length_imap. }
  rewrite Hlen. fold n rows cols.
  assert (range m = range (length c) ++ length c
                    :: seq (S (length c)) (m - S (length c))) as ->.
  { unfold range. replace m with (length c + S (m - S (length c)))%nat at 1
      by lia. by rewrite seq_app. }
  rewrite for_each_app, slack_loop_closed by lia. simpl.
  unfold slack_body at 1.
  rewrite set_cell_grid by (unfold rows, cols; lia). simpl.
  assert (getitem c (length c) = Raised IndexError) as ->; [|done].
  unfold getitem. by rewrite (lookup_ge_None_2 c (length c)).
Qed.

End Builder.

Lemma length_with_slack_columns (b : list (list Qc)) :
  length (with_slack_columns b) = length b.
Proof. unfold with_slack_columns. apply length_imap. Qed.

(** C7.  For an objective vector of length [n], a constraint matrix of [m]
    rows of length [n] and a bound vector of length [m], the builder (the
    set-up of [simplex] followed by [construct_simplex_tableau]) returns a
    tableau of [m+1] rows and [n+m+2] columns in which the slack columns of
    the constraint rows form the identity, the last entry of constraint row
    [i] is bound [i], the first [n] entries of constraint row [i] are its
    coefficients, the last row starts with the negated objective
    coefficients and its Z entry is 1. *)
Theorem tableau_builder_correct (A : list Qc) (b : list (list Qc))
    (c : list Qc) :
  Forall (λ row, length row = length A) b → length c = length b →
  ∃ t, construct_simplex_tableau (Qcopp <$> A) (add_slack_variables b) c
       = Returned t ∧
    length t = (length b + 1)%nat ∧
    rectangular (length A + length b + 2) t ∧
    (∀ i j, (i < length b)%nat → (j < length b)%nat →
       entry t i (length A + j) = if decide (i = j) then 1 else 0) ∧
    (∀ i, (i < length b)%nat →
       entry t i (length A + length b + 1) = cell c i) ∧
    (∀ i j, (i < length b)%nat → (j < length A)%nat →
       entry t i j = entry b i j) ∧
    (∀ j, (j < length A)%nat → entry t (length b) j = - cell A j) ∧
    entry t (length b) (length A + length b) = 1.
Proof.
  intros Hb Hc.
  assert (length (Qcopp <$> A) = length A) as HA by apply length_fmap.
  exists (grid (length b + 1) (length A + length b + 2)
            (built (Qcopp <$> A) b c)).
  split.
  { rewrite add_slack_variables_closed.
    rewrite <- HA. apply construct_simplex_tableau_closed; [lia|].
    eapply Forall_impl; [|exact Hb]. simpl. intros row ->. lia. }
  split; [apply length_grid|]. split; [apply rectangular_grid|].
  assert (∀ i, (i < length b)%nat →
            length (default [] (b !! i)) = length A) as Hrow.
  { intros i Hi. destruct (lookup_lt_is_Some_2 b i Hi) as [row Hrow].
    rewrite Hrow. simpl. by eapply (Forall_lookup_1 _ _ _ _ Hb). }
  split_and!.
  - intros i j Hi Hj. rewrite entry_grid by lia. unfold built.
    rewrite HA, (Hrow i Hi).
    repeat case_decide; try lia; done.
  - intros i Hi. rewrite entry_grid by lia. unfold built.
    rewrite HA, (Hrow i Hi).
    repeat case_decide; try lia; done.
  - intros i j Hi Hj. rewrite entry_grid by lia. unfold built.
    rewrite HA, (Hrow i Hi).
    repeat case_decide; try lia; done.
  - intros j Hj. rewrite entry_grid by lia. unfold built. rewrite HA.
    repeat case_decide; try lia.
    unfold cell. rewrite list_lookup_fmap.
    destruct (lookup_lt_is_Some_2 A j Hj) as [x ->]. done.
  - rewrite entry_grid by lia. unfold built. rewrite HA.
    repeat case_decide; try lia; done.
Qed.

Lemma tableau_builder_correct_witness :
  ∃ t, construct_simplex_tableau (Qcopp <$> [num 3; num 2])
         (add_slack_variables [[num 1; num 1]; [num 1; num 3]])
         [num 4; num 6] = Returned t ∧
    length t = (2 + 1)%nat ∧
    rectangular (2 + 2 + 2) t ∧
    (∀ i j, (i < 2)%nat → (j < 2)%nat →
       entry t i (2 + j) = if decide (i = j) then 1 else 0) ∧
    (∀ i, (i < 2)%nat → entry t i (2 + 2 + 1) = cell [num 4; num 6] i) ∧
    (∀ i j, (i < 2)%nat → (j < 2)%nat →
       entry t i j = entry [[num 1; num 1]; [num 1; num 3]] i j) ∧
    (∀ j, (j < 2)%nat → entry t 2 j = - cell [num 3; num 2] j) ∧
    entry t 2 (2 + 2) = 1.
Proof.
  apply (tableau_builder_correct [num 3; num 2]
           [[num 1; num 1]; [num 1; num 3]] [num 4; num 6]).
  - repeat constructor.
  - reflexivity.
Defined.

(** C4 (as amended).  The builder checks no dimension.  With fewer bounds
    than constraint rows it fails while filling the right-hand sides, before
    any pivoting, with [IndexError]; with at least as many bounds as rows,
    and no constraint row wider than the tableau, it returns a tableau,
    whatever the lengths of the rows and however many bounds are left
    over.  The instrumented builder does the same. *)
Theorem builder_checks_no_dimension (A : list Qc) (b : list (list Qc))
    (c : list Qc) (cnt : counts) :
  ((length c < length b)%nat →
     construct_simplex_tableau (Qcopp <$> A) (add_slack_variables b) c
       = Raised IndexError ∧
     construct_simplex_tableau_w_counts (Qcopp <$> A)
       (add_slack_variables b) c cnt = Raised IndexError) ∧
  ((length b ≤ length c)%nat →
   Forall (λ row, (length row ≤ length A + length b + 2)%nat) b →
     ∃ t cnt',
       construct_simplex_tableau (Qcopp <$> A) (add_slack_variables b) c
         = Returned t ∧
       construct_simplex_tableau_w_counts (Qcopp <$> A)
         (add_slack_variables b) c cnt = Returned (t, cnt')).
Proof.
  assert (length (Qcopp <$> A) = length A) as HA by apply length_fmap.
  rewrite add_slack_variables_closed. split.
  - intros Hc.
    pose proof (construct_simplex_tableau_short_bounds (Qcopp <$> A) b c Hc)
      as Hplain.
    split; [done|].
    apply erases_Raised. rewrite <- Hplain.
    apply construct_simplex_tableau_erases.
  - intros Hc Hb.
    pose proof (construct_simplex_tableau_closed (Qcopp <$> A) b c Hc)
      as Hplain.
    rewrite HA in Hplain. specialize (Hplain Hb).
    destruct (erases_Returned _ _
      (eq_trans (construct_simplex_tableau_erases (Qcopp <$> A)
                   (with_slack_columns b) c cnt) Hplain)) as [cnt' Hw].
    eauto.
Qed.

Lemma builder_checks_no_dimension_witness :
  (construct_simplex_tableau (Qcopp <$> [num 1])
     (add_slack_variables [[num 1]]) [] = Raised IndexError ∧
   construct_simplex_tableau_w_counts (Qcopp <$> [num 1])
     (add_slack_variables [[num 1]]) [] no_counts = Raised IndexError) ∧
  (∃ t cnt',
     construct_simplex_tableau (Qcopp <$> [num 1])
       (add_slack_variables [[num 1; num 2]]) [num 5; num 6] = Returned t ∧
     construct_simplex_tableau_w_counts (Qcopp <$> [num 1])
       (add_slack_variables [[num 1; num 2]]) [num 5; num 6] no_counts
       = Returned (t, cnt')).
Proof.
  split.
  - apply (proj1 (builder_checks_no_dimension [num 1] [[num 1]] []
                    no_counts)). simpl. lia.
  - apply (proj2 (builder_checks_no_dimension [num 1] [[num 1; num 2]]
                    [num 5; num 6] no_counts)).
    + simpl. lia.
    + repeat constructor; simpl; lia.
Defined.

(** C4, counterexample.  [A=[1], b=[[1, 2]], c=[5, 6]]: the one constraint
    row has two entries for one variable and there are two bounds for one
    row, yet the builder returns a tableau (the second coefficient has
    overwritten the slack entry) and the instrumented solver goes on to
    return a final tableau; [simplex] too raises nothing on such a matrix
    (with the objective [-x1], which needs no pivot). *)
Lemma mismatched_dimensions_accepted :
  construct_simplex_tableau (Qcopp <$> [num 1])
    (add_slack_variables [[num 1; num 2]]) [num 5; num 6]
  = Returned [[num 1; num 2; num 0; num 5];
              [num (-1); num 0; num 1; num 0]] ∧
  has_returned (outcome (simplex_w_counts 10 [num 1] [[num 1; num 2]]
                           [num 5; num 6] "max" "dense")) = true ∧
  has_raised (outcome (simplex 10 [num (-1)] [[num 1; num 2]]
                         [num 5; num 6])) = false.
Proof.
  split_and!.
  - apply (bool_decide_unpack _). vm_compute. exact I.
  - vm_compute. reflexivity.
  - vm_compute. reflexivity.
Qed.

(** * Further properties of the solver files *)

(** ** What a pivot does to the entries *)

Lemma tableau_ext (ncols : nat) (t1 t2 : tableau) :
  rectangular ncols t1 → rectangular ncols t2 → length t1 = length t2 →
  (∀ i j, (i < length t1)%nat → (j < ncols)%nat →
          entry t1 i j = entry t2 i j) →
  t1 = t2.
Proof.
  intros H1 H2 Hlen Hent. apply list_eq. intros i.
  destruct (decide (i < length t1)%nat) as [Hi|Hi].
  - destruct (lookup_lt_is_Some_2 t1 i Hi) as [r1 Hr1].
    destruct (lookup_lt_is_Some_2 t2 i) as [r2 Hr2]; [lia|].
    rewrite Hr1, Hr2. f_equal.
    pose proof (rectangular_lookup _ _ _ _ H1 Hr1) as Hl1.
    pose proof (rectangular_lookup _ _ _ _ H2 Hr2) as Hl2.
    apply list_eq. intros j.
    destruct (decide (j < ncols)%nat) as [Hj|Hj].
    + specialize (Hent i j Hi Hj).
      rewrite (entry_lookup _ _ _ _ Hr1), (entry_lookup _ _ _ _ Hr2) in Hent.
      destruct (lookup_lt_is_Some_2 r1 j) as [x Hx]; [lia|].
      destruct (lookup_lt_is_Some_2 r2 j) as [y Hy]; [lia|].
      rewrite (cell_lookup _ _ _ Hx), (cell_lookup _ _ _ Hy) in Hent.
      by rewrite Hx, Hy, Hent.
    + by rewrite !lookup_ge_None_2 by lia.
  - by rewrite !lookup_ge_None_2 by lia.
Qed.

Lemma length_pivoted (t : tableau) (r k : nat) :
  length (pivoted t r k) = length t.
Proof. unfold pivoted. apply length_imap. Qed.

Lemma entry_in_range (t : tableau) (ncols i j : nat) :
  rectangular ncols t → (i < length t)%nat → (j < ncols)%nat →
  ∃ row, t !! i = Some row ∧ row !! j = Some (entry t i j).
Proof.
  intros Hrect Hi Hj.
  destruct (lookup_lt_is_Some_2 t i Hi) as [row Hrow].
  pose proof (rectangular_lookup _ _ _ _ Hrect Hrow) as Hlen.
  destruct (lookup_lt_is_Some_2 row j) as [x Hx]; [lia|].
  exists row. split; [done|].
  by rewrite (entry_lookup _ _ _ _ Hrow), (cell_lookup _ _ _ Hx).
Qed.

(** Entry by entry: the pivot row is divided by the pivot element, and
    from every other row its pivot-column entry times the new pivot row is
    subtracted. *)
Lemma entry_pivoted (t : tableau) (ncols r k i j : nat) :
  rectangular ncols t → (r < length t)%nat → (i < length t)%nat →
  (j < ncols)%nat →
  entry (pivoted t r k) i j
  = if decide (i = r) then entry t r j / entry t r k
    else entry t i j - entry t i k * (entry t r j / entry t r k).
Proof.
  intros Hrect Hr Hi Hj.
  destruct (entry_in_range t ncols r j Hrect Hr Hj) as (prow & Hprow & Hpj).
  destruct (entry_in_range t ncols i j Hrect Hi Hj) as (row & Hrow & Hij).
  assert (cell (normalized_row t r k) j = entry t r j / entry t r k) as Hn.
  { unfold normalized_row, cell. rewrite Hprow. simpl.
    by rewrite list_lookup_fmap, Hpj. }
  unfold entry at 1, pivoted. rewrite list_lookup_imap, Hrow. simpl.
  case_decide as Hir; [done|].
  unfold eliminated_row, cell at 1. rewrite list_lookup_imap, Hij. simpl.
  by rewrite Hn, (entry_lookup t i k row Hrow).
Qed.



(** X2.  Pivoting twice on the same coordinates is pivoting once: the
    second pivot finds the pivot element 1 and a unit column, and returns
    the tableau it was given. *)
Theorem pivot_twice_is_pivot_once (t : tableau) (ncols r k : nat) :
  rectangular ncols t → (r < length t)%nat → (k < ncols)%nat →
  entry t r k ≠ 0 →
  ∃ t', perform_pivoting t r k = Returned t' ∧
        perform_pivoting t' r k = Returned t'.
Proof.
  intros Hrect Hr Hk Hp. exists (pivoted t r k).
  split; [by eapply perform_pivoting_closed|].
  pose proof (rectangular_pivoted t ncols r k Hrect Hr) as Hrect'.
  pose proof (length_pivoted t r k) as Hlen.
  assert (entry (pivoted t r k) r k = 1) as Hone.
  { rewrite (entry_pivoted t ncols) by done.
    rewrite decide_True by done. by apply Qc_div_self. }
  assert (∀ i, (i < length t)%nat → i ≠ r → entry (pivoted t r k) i k = 0)
    as Hzero.
  { intros i Hi Hne. rewrite (entry_pivoted t ncols) by done.
    rewrite decide_False by done. rewrite (Qc_div_self _ Hp). ring. }
  rewrite (perform_pivoting_closed _ ncols); [|done|lia|done|].
  2: { rewrite Hone. discriminate. }
  f_equal. apply (tableau_ext ncols).
  - apply rectangular_pivoted; [done|lia].
  - done.
  - apply length_pivoted.
  - intros i j Hi Hj. rewrite length_pivoted in Hi.
    rewrite (entry_pivoted (pivoted t r k) ncols) by (done || lia).
    rewrite Hone. case_decide as Hir.
    + subst i. by field.
    + rewrite (Hzero i) by (done || lia). ring.
Qed.

Lemma pivot_twice_is_pivot_once_witness :
  ∃ t', perform_pivoting sample_tableau 0 0 = Returned t' ∧
        perform_pivoting t' 0 0 = Returned t'.
Proof.
  apply (pivot_twice_is_pivot_once sample_tableau 6 0 0).
  - repeat constructor.
  - simpl. lia.
  - lia.
  - vm_compute. discriminate.
Defined.

(** ** Feasibility and the objective value across a pivot *)








(** ** Operation counts of a pivot *)

Ltac counts_simpl :=
  unfold counts_le, counts_add, counts_scale, add_comparisons,
    add_assignments, add_arithmetic, add_accesses, add_func_calls,
    no_counts in *;
  simpl in *.

Lemma counts_eq (a b : counts) :
  comparisons a = comparisons b → assignments a = assignments b →
  arithmetic a = arithmetic b → accesses a = accesses b →
  func_calls a = func_calls b → a = b.
Proof. destruct a, b. simpl. by intros -> -> -> -> ->. Qed.

Lemma counts_add_assoc (a b c : counts) :
  counts_add (counts_add a b) c = counts_add a (counts_add b c).
Proof. apply counts_eq; counts_simpl; lia. Qed.

Lemma counts_add_no_counts (a : counts) : counts_add a no_counts = a.
Proof. apply counts_eq; counts_simpl; lia. Qed.

Lemma counts_sum_app (l1 l2 : list counts) :
  counts_sum (l1 ++ l2) = counts_add (counts_sum l1) (counts_sum l2).
Proof.
  induction l1 as [|a l1 IH]; simpl.
  - apply counts_eq; counts_simpl; lia.
  - rewrite IH. by rewrite counts_add_assoc.
Qed.

Lemma counts_sum_const (n : nat) (d : counts) :
  counts_sum ((λ _, d) <$> range n) = counts_scale n d.
Proof.
  induction n as [|n IH].
  - apply counts_eq; counts_simpl; lia.
  - rewrite range_S, fmap_app, counts_sum_app, IH.
    apply counts_eq; counts_simpl; lia.
Qed.

Lemma counts_scale_S (n : nat) (d : counts) :
  counts_scale (S n) d = counts_add (counts_scale n d) d.
Proof. apply counts_eq; counts_simpl; lia. Qed.

Lemma counts_sum_one_special (n r : nat) (a b : counts) :
  (r < n)%nat →
  counts_sum ((λ i, if decide (i ≠ r) then b else a) <$> range n)
  = counts_add a (counts_scale (n - 1) b).
Proof.
  assert (∀ n, counts_sum ((λ i, if decide (i ≠ r) then b else a)
                             <$> range n)
    = if decide (r < n)%nat then counts_add a (counts_scale (n - 1) b)
      else counts_scale n b) as H.
  { clear n. intros n. induction n as [|n IH].
    - rewrite decide_False by lia. apply counts_eq; counts_simpl; lia.
    - rewrite range_S, fmap_app, counts_sum_app, IH. simpl.
      rewrite counts_add_no_counts, Nat.sub_0_r.
      destruct (decide (n = r)) as [->|Hne].
      + rewrite (decide_False (P := r ≠ r)) by naive_solver.
        rewrite decide_False, decide_True by lia.
        apply counts_eq; counts_simpl; lia.
      + rewrite (decide_True (P := n ≠ r)) by done.
        destruct (decide (r < n)%nat).
        * rewrite decide_True by lia.
          replace (counts_scale n b) with (counts_scale (S (n - 1)) b)
            by (f_equal; lia).
          rewrite counts_scale_S. by rewrite counts_add_assoc.
        * rewrite decide_False by lia. by rewrite counts_scale_S. }
  intros Hr. rewrite H. by rewrite decide_True.
Qed.

Lemma counts_sum_rows (n ncols r : nat) :
  (r < n)%nat →
  counts_sum (eliminate_row_cost ncols r <$> range n)
  = counts_add (eliminate_row_cost ncols r r)
      (counts_scale (n - 1) (eliminate_row_cost ncols r (S r))).
Proof.
  intros Hr. unfold eliminate_row_cost.
  rewrite (decide_False (P := r ≠ r)) by naive_solver.
  rewrite (decide_True (P := S r ≠ r)) by lia.
  by apply (counts_sum_one_special n r).
Qed.

(** An instrumented loop against the uninstrumented one: when every step
    that returns costs [d x] up to [Q] (equality, or "at most"), the loop
    costs the sum. *)
Lemma for_each_cost {X} (I : tableau → Prop) (Q : counts → counts → Prop)
    (xs : list X) (f : X → tableau * counts → result (tableau * counts))
    (g : X → tableau → result tableau) (d : X → counts)
    (t t' : tableau) (c : counts) :
  (∀ c, Q c c) →
  (∀ c c' c'' d1 d2, Q c' (counts_add c d1) → Q c'' (counts_add c' d2) →
                     Q c'' (counts_add c (counts_add d1 d2))) →
  (∀ x t t1 c, x ∈ xs → I t → g x t = Returned t1 →
     I t1 ∧ ∃ c', f x (t, c) = Returned (t1, c') ∧ Q c' (counts_add c (d x))) →
  I t → for_each xs g t = Returned t' →
  I t' ∧ ∃ c', for_each xs f (t, c) = Returned (t', c') ∧
               Q c' (counts_add c (counts_sum (d <$> xs))).
Proof.
  intros Qrefl Qstep. revert t c.
  induction xs as [|x xs IH]; intros t c Hbody HI Hg; simpl in *.
  - injection Hg as <-. split; [done|]. exists c. split; [done|].
    rewrite counts_add_no_counts. apply Qrefl.
  - destruct (g x t) as [t1|] eqn:Hgx; [|done].
    destruct (Hbody x t t1 c (list_elem_of_here _ _) HI Hgx)
      as (HI1 & c1 & -> & HQ1).
    destruct (IH t1 c1) as (HI' & c' & -> & HQ'); [|done..|].
    { intros y t0 t2 c0 Hy. apply Hbody. by right. }
    split; [done|]. exists c'. split; [done|]. by eapply Qstep.
Qed.



Lemma counts_eq_step (c c' c'' d1 d2 : counts) :
  c' = counts_add c d1 → c'' = counts_add c' d2 →
  c'' = counts_add c (counts_add d1 d2).
Proof. intros -> ->. apply counts_add_assoc. Qed.

Lemma normalize_body_shape (ncols n r : nat) (p : Qc) (j : nat)
    (t t1 : tableau) :
  grid_shape ncols n t → normalize_body r p j t = Returned t1 →
  grid_shape ncols n t1.
Proof.
  intros Hs. unfold normalize_body.
  destruct (get_cell t r j); simpl; [|done].
  destruct (div a p); simpl; [|done]. by apply set_cell_shape.
Qed.

Lemma eliminate_body_shape (ncols n r i : nat) (f : Qc) (j : nat)
    (t t1 : tableau) :
  grid_shape ncols n t → eliminate_body r i f j t = Returned t1 →
  grid_shape ncols n t1.
Proof.
  intros Hs. unfold eliminate_body.
  destruct (get_cell t i j); simpl; [|done].
  destruct (get_cell t r j); simpl; [|done]. by apply set_cell_shape.
Qed.

Lemma normalize_body_cost (r : nat) (p : Qc) (j : nat) (t t1 : tableau)
    (c : counts) :
  normalize_body r p j t = Returned t1 →
  normalize_body_w_counts r p j (t, c)
  = Returned (t1, counts_add c normalize_step_cost).
Proof.
  unfold normalize_body, normalize_body_w_counts.
  destruct (get_cell t r j); simpl; [|done].
  destruct (div a p); simpl; [|done]. intros ->. simpl. do 2 f_equal.
  apply counts_eq; counts_simpl; lia.
Qed.

Lemma eliminate_body_cost (r i : nat) (f : Qc) (j : nat) (t t1 : tableau)
    (c : counts) :
  eliminate_body r i f j t = Returned t1 →
  eliminate_body_w_counts r i f j (t, c)
  = Returned (t1, counts_add c eliminate_step_cost).
Proof.
  unfold eliminate_body, eliminate_body_w_counts.
  destruct (get_cell t i j); simpl; [|done].
  destruct (get_cell t r j); simpl; [|done]. intros ->. simpl.
  do 2 f_equal. apply counts_eq; counts_simpl; lia.
Qed.

Lemma eliminate_row_cost_exact (ncols n r k i : nat) (t t1 : tableau)
    (c : counts) :
  grid_shape ncols n t → eliminate_row r k i t = Returned t1 →
  grid_shape ncols n t1 ∧
  eliminate_row_w_counts r k i (t, c)
  = Returned (t1, counts_add c (eliminate_row_cost ncols r i)).
Proof.
  intros Hs. unfold eliminate_row, eliminate_row_w_counts, eliminate_row_cost.
  case_decide as Hir.
  2: { intros [= <-]. split; [done|]. do 2 f_equal.
       apply counts_eq; counts_simpl; lia. }
  destruct (getitem t i) as [row|] eqn:Hrow; simpl; [|done].
  destruct (getitem row k) as [f|]; simpl; [|done].
  intros Hloop.
  apply getitem_Returned in Hrow.
  pose proof (rectangular_lookup _ _ _ _ (proj1 Hs) Hrow) as Hlen.
  destruct (for_each_cost (grid_shape ncols n) eq (range (length row))
    (eliminate_body_w_counts r i f) (eliminate_body r i f)
    (λ _, eliminate_step_cost) t t1
    (add_assignments 1 (add_accesses 1 (add_comparisons 1
       (add_comparisons 1 c)))))
    as (Hs1 & c' & -> & ->); [done|apply counts_eq_step| |done..|].
  { intros j t0 t2 c0 _ Hs0 Hb. split; [by eapply eliminate_body_shape|].
    eexists. split; [by apply eliminate_body_cost|done]. }
  split; [done|]. do 2 f_equal.
  rewrite counts_sum_const, Hlen.
  apply counts_eq; counts_simpl; lia.
Qed.

Lemma length_rectangular_row0 (ncols : nat) (t : tableau) (row0 : list Qc) :
  rectangular ncols t → getitem t 0 = Returned row0 → length row0 = ncols.
Proof.
  intros Hrect H0%getitem_Returned. by eapply rectangular_lookup.
Qed.

(** Whenever the uninstrumented dense pivot returns, the instrumented one
    returns the same tableau and has added [dense_pivot_cost]. *)
Lemma perform_pivoting_w_counts_cost (t t' : tableau) (ncols r k : nat)
    (c : counts) :
  rectangular ncols t → perform_pivoting t r k = Returned t' →
  perform_pivoting_w_counts t r k c
  = Returned (t', counts_add c (dense_pivot_cost (length t) ncols)).
Proof.
  intros Hrect. unfold perform_pivoting, perform_pivoting_w_counts.
  destruct (get_cell t r k) as [p|] eqn:Hp; simpl; [|done].
  assert (r < length t)%nat as Hr.
  { unfold get_cell in Hp.
    destruct (getitem t r) as [prow|] eqn:Hprow; [|done].
    apply getitem_Returned in Hprow. by eapply lookup_lt_Some. }
  destruct (getitem t 0) as [row0|] eqn:Hrow0; simpl; [|done].
  rewrite (length_rectangular_row0 _ _ _ Hrect Hrow0).
  destruct (for_each (range ncols) (normalize_body r p) t) as [t1|] eqn:H1;
    simpl; [|done].
  intros H2.
  destruct (for_each_cost (grid_shape ncols (length t)) eq (range ncols)
    (normalize_body_w_counts r p) (normalize_body r p)
    (λ _, normalize_step_cost) t t1 (add_assignments 1 (add_accesses 2 c)))
    as (Hs1 & c1 & -> & ->); [done|apply counts_eq_step| |done..|].
  { intros j t0 t2 c0 _ Hs0 Hb. split; [by eapply normalize_body_shape|].
    eexists. split; [by apply normalize_body_cost|done]. }
  simpl.
  destruct (for_each_cost (grid_shape ncols (length t)) eq (range (length t1))
    (eliminate_row_w_counts r k) (eliminate_row r k)
    (eliminate_row_cost ncols r) t1 t'
    (counts_add (add_assignments 1 (add_accesses 2 c))
       (counts_sum ((λ _, normalize_step_cost) <$> range ncols))))
    as (_ & c2 & -> & ->); [done|apply counts_eq_step| |done..|].
  { intros i t0 t2 c0 _ Hs0 Hb.
    destruct (eliminate_row_cost_exact ncols (length t) r k i t0 t2 c0
                Hs0 Hb) as [Hs2 Hw].
    split; [done|]. eauto. }
  do 2 f_equal. destruct Hs1 as [_ Hlen1].
  rewrite Hlen1, counts_sum_const, counts_sum_rows by done.
  unfold eliminate_row_cost.
  rewrite (decide_False (P := r ≠ r)) by naive_solver.
  rewrite (decide_True (P := S r ≠ r)) by lia.
  unfold dense_pivot_cost, normalize_step_cost, eliminate_step_cost.
  apply counts_eq; counts_simpl; nia.
Qed.

(** X4.  The dense executor counts exactly [dense_pivot_cost]: on a
    rectangular tableau of [R] rows and [C] columns with a non-zero pivot
    inside it, [perform_pivoting_w_counts] returns the pivoted tableau and
    has added [2R + C - 1] comparisons, [1 + C + (R-1)(1+C)] assignments,
    [C + 2C(R-1)] arithmetic operations, [2 + 3C + (R-1)(1+4C)] accesses
    and [(R-1)C] function calls, whatever the entries are. *)
Theorem dense_pivot_cost_exact (t : tableau) (ncols r k : nat) (c : counts) :
  rectangular ncols t → (r < length t)%nat → (k < ncols)%nat →
  entry t r k ≠ 0 →
  perform_pivoting_w_counts t r k c
  = Returned (pivoted t r k,
              counts_add c (dense_pivot_cost (length t) ncols)).
Proof.
  intros Hrect Hr Hk Hp.
  apply perform_pivoting_w_counts_cost; [done|].
  by apply (perform_pivoting_closed t ncols).
Qed.

Lemma dense_pivot_cost_exact_witness :
  perform_pivoting_w_counts sample_tableau 0 0 no_counts
  = Returned (pivoted sample_tableau 0 0,
              counts_add no_counts
                (dense_pivot_cost (length sample_tableau) 6)).
Proof.
  apply (dense_pivot_cost_exact sample_tableau 6 0 0 no_counts).
  - repeat constructor.
  - simpl. lia.
  - lia.
  - vm_compute. discriminate.
Defined.







(** ** How the selectors fail *)

(** X6.  [find_pivot_column] fails in exactly two ways: on a tableau
    without rows it raises [IndexError], on a tableau whose last row has at
    most two entries (nothing but the Z and RHS columns) it raises
    [ValueError]; on every other tableau it returns a column index that lies
    outside the last two columns. *)
Theorem find_pivot_column_outcome (t : tableau) :
  match t !! objective_row t with
  | None => find_pivot_column t = Raised IndexError
  | Some obj =>
      if decide (length obj ≤ 2)%nat
      then find_pivot_column t = Raised ValueError
      else ∃ k, find_pivot_column t = Returned k ∧ (k < length obj - 2)%nat
  end.
Proof.
  unfold objective_row, find_pivot_column.
  destruct (t !! (length t - 1)%nat) as [obj|] eqn:Hobj.
  - rewrite (getitem_neg_1 _ _ Hobj). simpl. case_decide as Hlen.
    + by replace (length obj - 2)%nat with 0%nat by lia.
    + destruct (take (length obj - 2) obj) as [|x l] eqn:Htake.
      { apply (f_equal length) in Htake. rewrite length_take in Htake.
        simpl in Htake. lia. }
      destruct (py_min_spec ltb ltb_irrefl ltb_trans (x :: l) x)
        as (m & Hm & Hin & _); [apply list_elem_of_here|].
      rewrite Hm. simpl.
      destruct (index_from_spec m (x :: l) 0 Hin) as (k & Hk & Hlk & _).
      exists k. unfold index. split; [done|].
      apply lookup_lt_Some in Hlk. rewrite <- Htake, length_take in Hlk. lia.
  - unfold getitem_neg. case_decide as Hlen; [|done].
    apply lookup_ge_None in Hobj. lia.
Qed.

(** The loop of the ratio test either records a pair for every row, or
    stops with [IndexError] at a row that has no entry [k]. *)
Lemma quotients_loop_outcome (k : nat) (rows : tableau) (a : nat)
    (acc : list (quotient * nat)) :
  for_each (zip (seq a (length rows)) rows) (quotient_body k) acc
  = if decide (Forall (λ row, (k < length row)%nat) rows)
    then Returned (acc ++ imap (λ i row, (quotient_of k row, (a + i)%nat))
                            rows)
    else Raised IndexError.
Proof.
  case_decide as Hwide; [by apply quotients_loop_spec|].
  revert a acc. induction rows as [|row rows IH]; intros a acc.
  { by destruct Hwide. }
  cbn [length seq zip zip_with for_each].
  destruct (decide (k < length row)%nat) as [Hk|Hk].
  - rewrite quotient_body_spec by done. apply IH.
    intros Hrows. apply Hwide. by constructor.
  - unfold quotient_body, getitem. by rewrite lookup_ge_None_2 by lia.
Qed.

(** X7.  The ratio test fails in exactly two ways: on a tableau with no
    constraint row (at most the objective row) it raises [ValueError], the
    [min] of an empty sequence; when some constraint row has no entry at the
    pivot column index it raises [IndexError]; otherwise it returns the
    index of a constraint row. *)
Theorem calculate_quotients_outcome (t : tableau) (k : nat) :
  if decide (Forall (λ row, (k < length row)%nat) (take (objective_row t) t))
  then
    if decide (length t ≤ 1)%nat
    then calculate_quotients_and_find_pivot_row t k = Raised ValueError
    else ∃ r, calculate_quotients_and_find_pivot_row t k = Returned r ∧
              (r < objective_row t)%nat
  else calculate_quotients_and_find_pivot_row t k = Raised IndexError.
Proof.
  case_decide as Hwide.
  - case_decide as Hlen.
    + unfold calculate_quotients_and_find_pivot_row. simpl.
      by replace (length t - 1)%nat with 0%nat by lia.
    + destruct (calculate_quotients_spec t k Hwide)
        as (r & row & Hr & Hrlt & _); [unfold objective_row; lia|].
      by exists r.
  - unfold calculate_quotients_and_find_pivot_row, enumerate. simpl.
    rewrite quotients_loop_outcome. by rewrite decide_False.
Qed.

(** ** A zero pivot element *)

Lemma perform_pivoting_zero_pivot (t : tableau) (ncols r k : nat) :
  rectangular ncols t → (r < length t)%nat → (k < ncols)%nat →
  entry t r k = 0 →
  perform_pivoting t r k = Raised ZeroDivisionError.
Proof.
  intros Hrect Hr Hk Hzero.
  destruct (entry_in_range t ncols r k Hrect Hr Hk) as (prow & Hprow & Hpk).
  destruct (entry_in_range t ncols r 0 Hrect Hr) as (prow' & Hprow' & Hp0);
    [lia|].
  destruct (lookup_lt_is_Some_2 t 0) as [row0 Hrow0]; [lia|].
  rewrite Hzero in Hpk. unfold perform_pivoting.
  rewrite (get_cell_lookup _ _ _ _ _ Hprow Hpk). simpl.
  rewrite (getitem_Some _ _ _ Hrow0). simpl.
  rewrite (rectangular_lookup _ _ _ _ Hrect Hrow0).
  destruct ncols as [|ncols]; [lia|].
  unfold range. simpl. unfold normalize_body at 1.
  by rewrite (get_cell_lookup _ _ _ _ _ Hprow' Hp0).
Qed.

Lemma sparse_normalize_zero_pivot_raises (t : tableau) (ncols r : nat)
    (js : list nat) (c : counts) :
  rectangular ncols t → (r < length t)%nat →
  (∀ j, j ∈ js → (j < ncols)%nat) →
  (∃ j, j ∈ js ∧ entry t r j ≠ 0) →
  for_each js (sparse_normalize_body_w_counts r 0) (t, c)
  = Raised ZeroDivisionError.
Proof.
  intros Hrect Hr. revert c.
  induction js as [|j js IH]; intros c Hjs (j0 & Hj0 & Hne).
  { by apply elem_of_nil in Hj0. }
  destruct (entry_in_range t ncols r j Hrect Hr) as (prow & Hprow & Hpj).
  { apply Hjs. apply list_elem_of_here. }
  simpl. unfold sparse_normalize_body_w_counts at 1.
  rewrite (get_cell_lookup _ _ _ _ _ Hprow Hpj). simpl.
  case_bool_decide as Hz; simpl.
  - done.
  - apply IH.
    + intros j' Hj'. apply Hjs. by right.
    + exists j0. split; [|done].
      apply elem_of_cons in Hj0 as [->|Hj0]; [|done].
      by rewrite Hz in Hne.
Qed.

Lemma for_each_unchanged {X} (t : tableau) (xs : list X)
    (f : X → tableau * counts → result (tableau * counts)) (c : counts) :
  (∀ x c, x ∈ xs → ∃ c', f x (t, c) = Returned (t, c')) →
  ∃ c', for_each xs f (t, c) = Returned (t, c').
Proof.
  revert c. induction xs as [|x xs IH]; intros c Hbody; simpl.
  - by exists c.
  - destruct (Hbody x c (list_elem_of_here _ _)) as [c1 ->].
    apply IH. intros y c0 Hy. apply Hbody. by right.
Qed.

Lemma sparse_pivot_zero_row (t : tableau) (ncols r k : nat) (c : counts) :
  rectangular ncols t → (r < length t)%nat → (k < ncols)%nat →
  (∀ j, (j < ncols)%nat → entry t r j = 0) →
  ∃ c', perform_sparse_pivoting_w_counts t r k c = Returned (t, c').
Proof.
  intros Hrect Hr Hk Hzero.
  assert (∀ j, (j < ncols)%nat → get_cell t r j = Returned 0) as Hget.
  { intros j Hj.
    destruct (entry_in_range t ncols r j Hrect Hr Hj) as (prow & Hprow & Hpj).
    rewrite Hzero in Hpj by done. by eapply get_cell_lookup. }
  destruct (lookup_lt_is_Some_2 t 0) as [row0 Hrow0]; [lia|].
  pose proof (rectangular_lookup _ _ _ _ Hrect Hrow0) as Hlen0.
  unfold perform_sparse_pivoting_w_counts.
  rewrite (Hget k Hk). simpl.
  rewrite (getitem_Some _ _ _ Hrow0). simpl. rewrite Hlen0.
  destruct (for_each_unchanged t (range ncols)
    (sparse_normalize_body_w_counts r 0)
    (add_assignments 1 (add_accesses 2 c))) as [c1 ->].
  { intros j c0 Hj%elem_of_range. unfold sparse_normalize_body_w_counts.
    rewrite (Hget j Hj). simpl. eauto. }
  simpl. apply for_each_unchanged.
  intros i c0 Hi%elem_of_range. unfold sparse_eliminate_row_w_counts.
  case_decide as Hir; [|eauto].
  destruct (entry_in_range t ncols i k Hrect Hi Hk) as (row & Hrow & Hik).
  rewrite (get_cell_lookup _ _ _ _ _ Hrow Hik). simpl.
  case_bool_decide as Hf; simpl; [|eauto].
  rewrite (getitem_Some _ _ _ Hrow0). simpl. rewrite Hlen0.
  apply for_each_unchanged.
  intros j c1' Hj%elem_of_range. unfold sparse_eliminate_body_w_counts.
  rewrite (Hget j Hj). simpl. eauto.
Qed.

(** X8.  At a zero pivot element the two executors part ways.  The dense
    one always raises [ZeroDivisionError], in its first division; the sparse
    one raises it only if the pivot row has a non-zero entry, and on an
    all-zero pivot row it returns the tableau it was given, unchanged. *)
Theorem zero_pivot_outcome (t : tableau) (ncols r k : nat) (c : counts) :
  rectangular ncols t → (r < length t)%nat → (k < ncols)%nat →
  entry t r k = 0 →
  perform_pivoting t r k = Raised ZeroDivisionError ∧
  perform_pivoting_w_counts t r k c = Raised ZeroDivisionError ∧
  ((∃ j, (j < ncols)%nat ∧ entry t r j ≠ 0) →
     perform_sparse_pivoting_w_counts t r k c = Raised ZeroDivisionError) ∧
  ((∀ j, (j < ncols)%nat → entry t r j = 0) →
     ∃ c', perform_sparse_pivoting_w_counts t r k c = Returned (t, c')).
Proof.
  intros Hrect Hr Hk Hzero.
  pose proof (perform_pivoting_zero_pivot t ncols r k Hrect Hr Hk Hzero)
    as Hdense.
  split_and!; [done| | |].
  - apply erases_Raised. rewrite <- Hdense. apply perform_pivoting_erases.
  - intros (j & Hj & Hne).
    destruct (entry_in_range t ncols r k Hrect Hr Hk) as (prow & Hprow & Hpk).
    destruct (lookup_lt_is_Some_2 t 0) as [row0 Hrow0]; [lia|].
    rewrite Hzero in Hpk. unfold perform_sparse_pivoting_w_counts.
    rewrite (get_cell_lookup _ _ _ _ _ Hprow Hpk). simpl.
    rewrite (getitem_Some _ _ _ Hrow0). simpl.
    rewrite (rectangular_lookup _ _ _ _ Hrect Hrow0).
    rewrite (sparse_normalize_zero_pivot_raises t ncols r); [done..| |].
    + by intros j' Hj'%elem_of_range.
    + exists j. split; [by apply elem_of_range|done].
  - intros Hrow. by apply (sparse_pivot_zero_row t ncols r k c).
Qed.

Lemma zero_pivot_outcome_witness :
  perform_pivoting zero_pivot_tableau 0 0 = Raised ZeroDivisionError ∧
  perform_pivoting_w_counts zero_pivot_tableau 0 0 no_counts
    = Raised ZeroDivisionError ∧
  ((∃ j, (j < 4)%nat ∧ entry zero_pivot_tableau 0 j ≠ 0) →
     perform_sparse_pivoting_w_counts zero_pivot_tableau 0 0 no_counts
       = Raised ZeroDivisionError) ∧
  ((∀ j, (j < 4)%nat → entry zero_pivot_tableau 0 j = 0) →
     ∃ c', perform_sparse_pivoting_w_counts zero_pivot_tableau 0 0 no_counts
           = Returned (zero_pivot_tableau, c')).
Proof.
  apply (zero_pivot_outcome zero_pivot_tableau 4 0 0 no_counts).
  - repeat constructor.
  - simpl. lia.
  - lia.
  - apply (bool_decide_unpack _). vm_compute. exact I.
Defined.

(** ** How a solve ends, read off the inputs *)

Lemma scanned_grid (m k : nat) (f : nat → nat → Qc) :
  scanned (grid (S m) (k + 2) f) = f m <$> seq 0 k.
Proof.
  unfold scanned, objective_row. rewrite length_grid.
  replace (S m - 1)%nat with m by lia.
  rewrite grid_lookup by lia. simpl.
  rewrite length_fmap, length_seq.
  replace (k + 2 - 2)%nat with k by lia.
  rewrite <- fmap_take. f_equal.
  by rewrite take_seq, Nat.min_l by lia.
Qed.

Lemma not_optimal_scanned (t : tableau) (obj : list Qc) :
  t !! objective_row t = Some obj →
  not_optimal t = m ← py_min ltb (scanned t); Returned (ltb m 0).
Proof.
  intros Hobj. unfold not_optimal, scanned. rewrite Hobj. simpl.
  unfold objective_row in Hobj. by rewrite (getitem_neg_1 _ _ Hobj).
Qed.

Lemma not_optimal_nonnegative (t : tableau) (obj : list Qc) (x : Qc) :
  t !! objective_row t = Some obj → x ∈ scanned t →
  (∀ y, y ∈ scanned t → 0 ≤ y) →
  not_optimal t = Returned false.
Proof.
  intros Hobj Hx Hall. rewrite (not_optimal_scanned _ _ Hobj).
  destruct (py_min_spec ltb ltb_irrefl ltb_trans _ _ Hx)
    as (m & -> & Hm & _). simpl. f_equal. apply ltb_false. by apply Hall.
Qed.

Lemma not_optimal_no_columns (t : tableau) (obj : list Qc) :
  t !! objective_row t = Some obj → scanned t = [] →
  not_optimal t = Raised ValueError.
Proof.
  intros Hobj Hnil. by rewrite (not_optimal_scanned _ _ Hobj), Hnil.
Qed.

(** The objective row of the tableau the builder returns: the objective
    coefficients it was given, then a zero for every slack variable. *)
Lemma scanned_built (A' : list Qc) (b : list (list Qc)) (c : list Qc) :
  scanned (grid (length b + 1) (length A' + length b + 2) (built A' b c))
  = A' ++ replicate (length b) 0.
Proof.
  rewrite Nat.add_1_r, scanned_grid. apply list_eq. intros j.
  rewrite list_lookup_fmap.
  destruct (decide (j < length A' + length b)%nat) as [Hj|Hj].
  - rewrite (lookup_seq_lt 0 _ j Hj). simpl. unfold built.
    rewrite decide_False by lia. rewrite decide_False by lia.
    destruct (decide (j < length A')%nat) as [Hn|Hn].
    + rewrite lookup_app_l by done.
      destruct (lookup_lt_is_Some_2 A' j Hn) as [x Hx].
      by rewrite Hx, (cell_lookup _ _ _ Hx).
    + rewrite lookup_app_r by lia. by rewrite lookup_replicate_2 by lia.
  - rewrite (lookup_ge_None_2 (seq _ _)) by (rewrite length_seq; lia).
    symmetry. apply lookup_ge_None_2.
    rewrite length_app, length_replicate. lia.
Qed.

Lemma built_objective_row (A' : list Qc) (b : list (list Qc)) (c : list Qc) :
  ∃ obj, grid (length b + 1) (length A' + length b + 2) (built A' b c)
           !! objective_row (grid (length b + 1)
                               (length A' + length b + 2) (built A' b c))
         = Some obj.
Proof.
  unfold objective_row. rewrite length_grid.
  eexists. apply grid_lookup. lia.
Qed.

(** Whether the loop is entered on the builder's tableau. *)
Lemma not_optimal_built (A : list Qc) (b : list (list Qc)) (c : list Qc) :
  not_optimal (grid (length b + 1) (length A + length b + 2)
                 (built (Qcopp <$> A) b c))
  = if decide (length A + length b = 0)%nat then Raised ValueError
    else Returned (bool_decide (Exists (λ x, 0 < x) A)).
Proof.
  pose proof (scanned_built (Qcopp <$> A) b c) as Hscan.
  destruct (built_objective_row (Qcopp <$> A) b c) as [obj Hobj].
  rewrite length_fmap in Hscan, Hobj.
  case_decide as Hsize.
  - apply (not_optimal_no_columns _ obj Hobj). rewrite Hscan.
    destruct A, b; simpl in *; done || lia.
  - case_bool_decide as Hpos.
    + apply Exists_exists in Hpos as (x & Hx & Hxpos).
      apply (not_optimal_negative _ (- x)).
      * rewrite Hscan. apply elem_of_app. left.
        by apply list_elem_of_fmap_2, list_elem_of_In.
      * apply Qclt_minus_iff. by replace (0 + - - x) with x by ring.
    + assert (∀ y, y ∈ (Qcopp <$> A) ++ replicate (length b) 0 → 0 ≤ y)
        as Hall.
      { intros y [Hy|Hy]%elem_of_app.
        - apply list_elem_of_fmap in Hy as (x & -> & Hx).
          destruct (Qclt_le_dec 0 x) as [Hlt|Hle].
          + destruct Hpos. apply Exists_exists. exists x.
            split; [by apply list_elem_of_In|done].
          + apply Qcopp_le_compat in Hle.
            by replace (- 0) with 0 in Hle by ring.
        - apply elem_of_replicate in Hy as [-> _]. apply Qcle_refl. }
      destruct ((Qcopp <$> A) ++ replicate (length b) 0) as [|x l] eqn:Hl.
      { apply (f_equal length) in Hl.
        rewrite length_app, length_fmap, length_replicate in Hl.
        simpl in Hl. lia. }
      apply (not_optimal_nonnegative _ obj x Hobj).
      * rewrite Hscan. apply list_elem_of_here.
      * by rewrite Hscan.
Qed.

(** X9.  What [simplex] does is decided by its inputs.  When the builder
    succeeds (enough bounds, no row wider than the tableau): with no
    variable and no constraint it raises [ValueError] (the [min] of an empty
    objective row); otherwise, with some strictly positive objective
    coefficient it raises [NameError]; otherwise it returns the tableau the
    builder made, untouched. *)
Theorem simplex_outcome (fuel : nat) (A : list Qc) (b : list (list Qc))
    (c : list Qc) :
  (0 < fuel)%nat → (length b ≤ length c)%nat →
  Forall (λ row, (length row ≤ length A + length b + 2)%nat) b →
  outcome (simplex fuel A b c)
  = if decide (length A + length b = 0)%nat then Done (Raised ValueError)
    else if decide (Exists (λ x, 0 < x) A) then Done (Raised NameError)
    else Done (Returned (grid (length b + 1) (length A + length b + 2)
                           (built (Qcopp <$> A) b c))).
Proof.
  intros Hfuel Hc Hb. unfold simplex. cbn [outcome].
  rewrite add_slack_variables_closed.
  pose proof (construct_simplex_tableau_closed (Qcopp <$> A) b c Hc) as Hbuild.
  rewrite length_fmap in Hbuild. rewrite (Hbuild Hb).
  pose proof (not_optimal_built A b c) as Hopt.
  destruct fuel as [|fuel]; [lia|]. cbn [while]. rewrite Hopt.
  case_decide; [done|]. case_bool_decide as Hpos.
  - by rewrite decide_True.
  - by rewrite decide_False.
Qed.

Lemma simplex_outcome_witness :
  outcome (simplex 1 [num 3; num 2] [[num 1; num 1]; [num 1; num 3]]
             [num 4; num 6])
  = if decide (2 + 2 = 0)%nat then Done (Raised ValueError)
    else if decide (Exists (λ x, 0 < x) [num 3; num 2])
    then Done (Raised NameError)
    else Done (Returned (grid (2 + 1) (2 + 2 + 2)
                           (built (Qcopp <$> [num 3; num 2])
                              [[num 1; num 1]; [num 1; num 3]]
                              [num 4; num 6]))).
Proof.
  apply (simplex_outcome 1 [num 3; num 2] [[num 1; num 1]; [num 1; num 3]]
           [num 4; num 6]).
  - lia.
  - simpl. lia.
  - repeat constructor; simpl; lia.
Defined.

(** ** The instrumented solver, from its inputs *)

(** [simplex_w_counts] is: build, then loop. *)
Lemma simplex_w_counts_unfold (fuel : nat) (A : list Qc)
    (b : list (list Qc)) (c : list Qc) (func matrix : string) :
  ∃ k0, outcome (simplex_w_counts fuel A b c func matrix)
  = match construct_simplex_tableau_w_counts
            (if decide (func = "max") then Qcopp <$> A else A)
            (with_slack_columns b) c k0 with
    | Raised e => Done (Raised e)
    | Returned (t, k) =>
        while fuel not_optimal_w_counts (convergence_body_w_counts matrix)
          {| st_tableau := t; st_counts := add_assignments 1 k;
             st_printed := [] |}
    end.
Proof.
  unfold simplex_w_counts.
  destruct (decide (func = "max")) as [Hf|Hf].
  - destruct (add_slack_variables_w_counts b _) as [b' k1] eqn:Hb.
    pose proof (f_equal fst Hb) as Hb'.
    rewrite add_slack_variables_erases, add_slack_variables_closed in Hb'.
    simpl in Hb'. subst b'. cbn [outcome]. by eexists.
  - destruct (add_slack_variables_w_counts b _) as [b' k1] eqn:Hb.
    pose proof (f_equal fst Hb) as Hb'.
    rewrite add_slack_variables_erases, add_slack_variables_closed in Hb'.
    simpl in Hb'. subst b'. cbn [outcome]. by eexists.
Qed.

(** When the builder succeeds, the loop starts on the builder's tableau
    with nothing printed. *)
Lemma simplex_w_counts_built (fuel : nat) (A : list Qc)
    (b : list (list Qc)) (c : list Qc) (matrix : string) :
  (length b ≤ length c)%nat →
  Forall (λ row, (length row ≤ length A + length b + 2)%nat) b →
  ∃ k, outcome (simplex_w_counts fuel A b c "max" matrix)
  = while fuel not_optimal_w_counts (convergence_body_w_counts matrix)
      {| st_tableau := grid (length b + 1) (length A + length b + 2)
                         (built (Qcopp <$> A) b c);
         st_counts := k; st_printed := [] |}.
Proof.
  intros Hc Hb.
  destruct (simplex_w_counts_unfold fuel A b c "max" matrix) as [k0 ->].
  rewrite decide_True by done.
  pose proof (construct_simplex_tableau_closed (Qcopp <$> A) b c Hc) as Hplain.
  rewrite length_fmap in Hplain. specialize (Hplain Hb).
  destruct (erases_Returned _ _
    (eq_trans (construct_simplex_tableau_erases (Qcopp <$> A)
                 (with_slack_columns b) c k0) Hplain)) as [k1 ->].
  by eexists.
Qed.

(** X10.  On an input whose objective has no strictly positive
    coefficient [simplex_w_counts] makes no pivot: when the builder
    succeeds and there is at least one variable or constraint, it returns
    the builder's tableau with nothing printed, for every fuel and for every
    strategy name, recognised or not.  With no variable and no constraint it
    raises [ValueError] instead. *)
Theorem simplex_w_counts_no_pivot_needed (fuel : nat) (A : list Qc)
    (b : list (list Qc)) (c : list Qc) (matrix : string) :
  (length b ≤ length c)%nat →
  Forall (λ row, (length row ≤ length A + length b + 2)%nat) b →
  ¬ Exists (λ x, 0 < x) A →
  if decide (length A + length b = 0)%nat
  then outcome (simplex_w_counts fuel A b c "max" matrix)
       = Done (Raised ValueError)
  else ∃ k, outcome (simplex_w_counts fuel A b c "max" matrix)
       = Done (Returned
           {| st_tableau := grid (length b + 1) (length A + length b + 2)
                              (built (Qcopp <$> A) b c);
              st_counts := k; st_printed := [] |}).
Proof.
  intros Hc Hb Hpos.
  destruct (simplex_w_counts_built fuel A b c matrix Hc Hb) as [k ->].
  pose proof (not_optimal_built A b c) as Hopt.
  case_decide as Hsize.
  - destruct fuel; simpl; unfold not_optimal_w_counts; simpl;
      by rewrite Hopt.
  - rewrite bool_decide_eq_false_2 in Hopt by done. exists k.
    destruct fuel; simpl; unfold not_optimal_w_counts; simpl;
      by rewrite Hopt.
Qed.

Lemma simplex_w_counts_no_pivot_needed_witness :
  if decide (1 + 1 = 0)%nat
  then outcome (simplex_w_counts 3 [num (-1)] [[num 1]] [num 5] "max" "row")
       = Done (Raised ValueError)
  else ∃ k, outcome (simplex_w_counts 3 [num (-1)] [[num 1]] [num 5]
                       "max" "row")
       = Done (Returned
           {| st_tableau := grid (1 + 1) (1 + 1 + 2)
                              (built (Qcopp <$> [num (-1)]) [[num 1]]
                                 [num 5]);
              st_counts := k; st_printed := [] |}).
Proof.
  apply (simplex_w_counts_no_pivot_needed 3 [num (-1)] [[num 1]] [num 5]
           "row").
  - simpl. lia.
  - repeat constructor; simpl; lia.
  - intros Hex. apply Exists_cons in Hex as [Hex|Hex].
    + by vm_compute in Hex.
    + by apply Exists_nil in Hex.
Defined.

(** X11.  Without constraints nothing can be pivoted: on [b = []] with a
    strictly positive objective coefficient the loop is entered, a pivot
    column is found, and the ratio test raises [ValueError] (the [min] of an
    empty sequence), whatever the bounds and the strategy name. *)
Theorem simplex_w_counts_without_constraints (fuel : nat) (A c : list Qc)
    (matrix : string) :
  (0 < fuel)%nat → Exists (λ x, 0 < x) A →
  outcome (simplex_w_counts fuel A [] c "max" matrix)
  = Done (Raised ValueError).
Proof.
  intros Hfuel Hpos.
  destruct (simplex_w_counts_built fuel A [] c matrix) as [k ->];
    [simpl; lia|constructor|].
  pose proof (not_optimal_built A [] c) as Hopt.
  assert (length A ≠ 0)%nat as HA.
  { destruct A; [by apply Exists_nil in Hpos|done]. }
  rewrite decide_False in Hopt by (simpl; lia).
  rewrite bool_decide_eq_true_2 in Hopt by done.
  destruct fuel as [|fuel]; [lia|]. cbn [while].
  unfold not_optimal_w_counts at 1. cbn [st_tableau]. rewrite Hopt.
  set (t := grid _ _ _) in *.
  assert (length t = 1)%nat as Hlen by apply length_grid.
  assert (convergence_body_w_counts matrix
            {| st_tableau := t; st_counts := k; st_printed := [] |}
          = Raised ValueError) as ->; [|done].
  unfold convergence_body_w_counts. cbn [st_tableau st_counts st_printed].
  destruct (getitem_neg t 1) as [last_row|] eqn:Hlast.
  2: { unfold not_optimal in Hopt. by rewrite Hlast in Hopt. }
  cbn [mbind result_bind].
  set (k1 := add_accesses _ _).
  pose proof (find_pivot_column_erases t k1) as Hcol. unfold erases in Hcol.
  destruct (find_pivot_column_w_counts t k1) as [[col k2]|e] eqn:Hfind.
  - cbn [mbind result_bind].
    assert (calculate_quotients_and_find_pivot_row t col = Raised ValueError)
      as Hrow.
    { unfold calculate_quotients_and_find_pivot_row. simpl.
      by replace (length t - 1)%nat with 0%nat by lia. }
    rewrite (erases_Raised _ _
      (eq_trans (calculate_quotients_erases t col k2) Hrow)).
    done.
  - exfalso. simpl in Hcol.
    apply Exists_exists in Hpos as (x & Hx & Hxpos).
    destruct (find_pivot_column_spec t (- x)) as (k' & v & Hk' & _).
    { pose proof (scanned_built (Qcopp <$> A) [] c) as Hscan.
      rewrite length_fmap in Hscan. simpl in Hscan. unfold t. simpl.
      rewrite Hscan. apply elem_of_app. left.
      by apply list_elem_of_fmap_2, list_elem_of_In. }
    by rewrite Hk' in Hcol.
Qed.

Lemma simplex_w_counts_without_constraints_witness :
  outcome (simplex_w_counts 2 [num 1] [] [] "max" "dense")
  = Done (Raised ValueError).
Proof.
  apply (simplex_w_counts_without_constraints 2 [num 1] [] "dense").
  - lia.
  - apply Exists_cons_hd. vm_compute. reflexivity.
Defined.

Lemma Qcopp_fmap_involutive (A : list Qc) : Qcopp <$> (Qcopp <$> A) = A.
Proof.
  rewrite <- list_fmap_compose. rewrite <- (list_fmap_id A) at 2.
  apply list_fmap_ext. intros _ x _. simpl. ring.
Qed.

(** X12.  Any [func] other than 'max' solves the maximisation of the
    negated objective: [simplex_w_counts(A, b, c, func, matrix)] and
    [simplex_w_counts(-A, b, c, 'max', matrix)] end in the same way, with
    the same tableau and the same printed lines; only the counters
    differ. *)
Theorem other_func_is_max_of_negated (fuel : nat) (A : list Qc)
    (b : list (list Qc)) (c : list Qc) (func matrix : string) :
  func ≠ "max" →
  progress_rel same_tableau
    (outcome (simplex_w_counts fuel A b c func matrix))
    (outcome (simplex_w_counts fuel (Qcopp <$> A) b c "max" matrix)).
Proof.
  intros Hfunc.
  destruct (simplex_w_counts_unfold fuel A b c func matrix) as [k1 ->].
  destruct (simplex_w_counts_unfold fuel (Qcopp <$> A) b c "max" matrix)
    as [k2 ->].
  rewrite decide_False, decide_True by done.
  rewrite Qcopp_fmap_involutive.
  pose proof (erases_same_value _ _ _
    (construct_simplex_tableau_erases A (with_slack_columns b) c k1)
    (construct_simplex_tableau_erases A (with_slack_columns b) c k2)) as H.
  destruct (construct_simplex_tableau_w_counts A _ c k1) as [[t1 k1']|],
    (construct_simplex_tableau_w_counts A _ c k2) as [[t2 k2']|];
    simpl in H; try done.
  unfold same_value in H. simpl in H. subst t2.
  by apply solver_loop_same_tableau.
Qed.

Lemma other_func_is_max_of_negated_witness :
  progress_rel same_tableau
    (outcome (simplex_w_counts 4 [num (-1)] [[num 1]] [num 5] "min" "dense"))
    (outcome (simplex_w_counts 4 (Qcopp <$> [num (-1)]) [[num 1]] [num 5]
                "max" "dense")).
Proof.
  apply (other_func_is_max_of_negated 4 [num (-1)] [[num 1]] [num 5]
           "min" "dense").
  discriminate.
Defined.

(** ** Counters over a whole run *)









(** ** What a returned tableau guarantees *)

Lemma while_Returned_inv {S} (P : S → Prop) (fuel : nat)
    (cond : S → result bool) (body : S → result S) (s s' : S) :
  P s →
  (∀ s s', P s → cond s = Returned true → body s = Returned s' → P s') →
  while fuel cond body s = Done (Returned s') →
  P s' ∧ cond s' = Returned false.
Proof.
  intros HP Hbody. revert s HP.
  induction fuel as [|fuel IH]; intros s HP; simpl;
    destruct (cond s) as [[]|] eqn:Hc; try done;
    try (intros [= <-]; by split).
  destruct (body s) as [s1|] eqn:Hb; [|done].
  apply IH. by eapply Hbody.
Qed.

Lemma calculate_quotients_Returned_lt (t : tableau) (k r : nat) :
  calculate_quotients_and_find_pivot_row t k = Returned r →
  (r < objective_row t)%nat.
Proof.
  intros Hr.
  destruct (decide (Forall (λ row, (k < length row)%nat)
                      (take (objective_row t) t))) as [Hwide|Hwide].
  - destruct (decide (length t ≤ 1)%nat) as [Hlen|Hlen].
    + unfold calculate_quotients_and_find_pivot_row in Hr. simpl in Hr.
      by replace (length t - 1)%nat with 0%nat in Hr by lia.
    + destruct (calculate_quotients_spec t k Hwide)
        as (r' & row & Hr' & Hlt & _); [unfold objective_row; lia|].
      rewrite Hr' in Hr. by injection Hr as <-.
  - unfold calculate_quotients_and_find_pivot_row, enumerate in Hr.
    simpl in Hr. rewrite quotients_loop_outcome in Hr.
    by rewrite decide_False in Hr.
Qed.

Lemma find_pivot_column_Returned_lt (t : tableau) (ncols k : nat) :
  rectangular ncols t → find_pivot_column t = Returned k →
  (k < ncols - 2)%nat.
Proof.
  intros Hrect. unfold find_pivot_column, getitem_neg.
  case_decide as Hlen; [|done].
  destruct (lookup_lt_is_Some_2 t (length t - 1)) as [obj Hobj]; [lia|].
  rewrite (getitem_Some _ _ _ Hobj). simpl.
  pose proof (rectangular_lookup _ _ _ _ Hrect Hobj) as Hl.
  destruct (take (length obj - 2) obj) as [|x l] eqn:Htake; [done|].
  destruct (py_min_spec ltb ltb_irrefl ltb_trans (x :: l) x)
    as (m & Hm & Hin & _); [apply list_elem_of_here|].
  rewrite Hm. simpl.
  destruct (index_from_spec m (x :: l) 0 Hin) as (k' & Hk' & Hlk & _).
  unfold index. rewrite Hk'. intros [= <-].
  apply lookup_lt_Some in Hlk. rewrite <- Htake, length_take in Hlk. lia.
Qed.

(** The sparse executor returns the pivoted tableau, or, on an all-zero
    pivot row, the tableau it was given. *)
Lemma perform_sparse_pivoting_Returned (t t' : tableau) (ncols r k : nat)
    (c c' : counts) :
  rectangular ncols t → (r < length t)%nat → (k < ncols)%nat →
  perform_sparse_pivoting_w_counts t r k c = Returned (t', c') →
  t' = t ∨ (entry t r k ≠ 0 ∧ t' = pivoted t r k).
Proof.
  intros Hrect Hr Hk Hret.
  destruct (decide (entry t r k = 0)) as [Hzero|Hne].
  - left.
    destruct (decide (Forall (λ j, entry t r j = 0) (range ncols)))
      as [Hall|Hsome].
    + destruct (sparse_pivot_zero_row t ncols r k c Hrect Hr Hk) as [c'' Hc''].
      { intros j Hj. apply (proj1 (Forall_forall _ _) Hall).
        by apply list_elem_of_In, elem_of_range. }
      rewrite Hc'' in Hret. by injection Hret as <- _.
    + apply not_Forall_Exists in Hsome; [|apply _].
      apply Exists_exists in Hsome as (j & Hj%list_elem_of_In & Hjne).
      destruct (entry_in_range t ncols r k Hrect Hr Hk)
        as (prow & Hprow & Hpk).
      destruct (lookup_lt_is_Some_2 t 0) as [row0 Hrow0]; [lia|].
      rewrite Hzero in Hpk. unfold perform_sparse_pivoting_w_counts in Hret.
      rewrite (get_cell_lookup _ _ _ _ _ Hprow Hpk) in Hret. simpl in Hret.
      rewrite (getitem_Some _ _ _ Hrow0) in Hret. simpl in Hret.
      rewrite (rectangular_lookup _ _ _ _ Hrect Hrow0) in Hret.
      rewrite (sparse_normalize_zero_pivot_raises t ncols r) in Hret;
        [done..| |].
      * by intros j' Hj'%elem_of_range.
      * by exists j.
  - right. split; [done|].
    pose proof (perform_sparse_pivoting_sim t ncols r k c Hrect Hr Hk Hne)
      as Hsim.
    unfold erases in Hsim. rewrite Hret in Hsim. simpl in Hsim.
    rewrite (perform_pivoting_closed t ncols r k) in Hsim by done.
    by injection Hsim.
Qed.

Lemma z_column_pivoted (m ncols r k : nat) (t : tableau) :
  z_column_intact m ncols t → (2 ≤ ncols)%nat → (r < m)%nat →
  (k < ncols)%nat → entry t r k ≠ 0 →
  z_column_intact m ncols (pivoted t r k).
Proof.
  intros (Hlen & Hrect & Hz) Hn Hr Hk Hne. split_and!.
  - by rewrite length_pivoted.
  - apply rectangular_pivoted; [done|lia].
  - intros i Hi.
    rewrite (entry_pivoted t ncols r k i (ncols - 2)) by (done || lia).
    pose proof (Hz r ltac:(lia)) as Hzr. rewrite decide_False in Hzr by lia.
    rewrite Hzr, (Qc_div_0 _ Hne).
    destruct (decide (i = r)) as [->|Hir].
    + by rewrite decide_False by lia.
    + rewrite <- (Hz i Hi). ring.
Qed.

(** One iteration of the loop, under any strategy name. *)
Lemma convergence_body_z_column (m ncols : nat) (matrix : string)
    (s s' : solver_state) :
  (2 ≤ ncols)%nat → z_column_intact m ncols (st_tableau s) →
  convergence_body_w_counts matrix s = Returned s' →
  z_column_intact m ncols (st_tableau s').
Proof.
  destruct s as [t k0 pr]. simpl. intros Hn Hz.
  pose proof Hz as (Hlen & Hrect & _).
  unfold convergence_body_w_counts. simpl.
  destruct (getitem_neg t 1) as [last_row|]; simpl; [|done].
  set (k1 := add_accesses _ _).
  pose proof (find_pivot_column_erases t k1) as Hcol. unfold erases in Hcol.
  destruct (find_pivot_column_w_counts t k1) as [[col k2]|]; simpl; [|done].
  simpl in Hcol. symmetry in Hcol.
  apply (find_pivot_column_Returned_lt t ncols) in Hcol; [|done].
  pose proof (calculate_quotients_erases t col k2) as Hrow.
  unfold erases in Hrow.
  destruct (calculate_quotients_and_find_pivot_row_w_counts t col k2)
    as [[r k3]|]; simpl; [|done].
  simpl in Hrow. symmetry in Hrow.
  apply calculate_quotients_Returned_lt in Hrow.
  unfold objective_row in Hrow. rewrite Hlen in Hrow.
  case_decide as Hdense; [|case_decide as Hsparse].
  - pose proof (perform_pivoting_erases t r col k3) as Hplain.
    unfold erases in Hplain.
    destruct (perform_pivoting_w_counts t r col k3) as [[t' k4]|];
      simpl; [|done].
    intros [= <-]. simpl. simpl in Hplain. symmetry in Hplain.
    destruct (perform_pivoting_Returned_valid _ _ _ _ _ Hrect Hplain)
      as (Hrl & Hcl & Hpiv).
    rewrite (perform_pivoting_closed t ncols r col) in Hplain by done.
    injection Hplain as <-. apply z_column_pivoted; done || lia.
  - destruct (perform_sparse_pivoting_w_counts t r col k3) as [[t' k4]|]
      eqn:Hs; simpl; [|done].
    intros [= <-]. simpl.
    destruct (perform_sparse_pivoting_Returned t t' ncols r col k3 k4)
      as [->|[Hpiv ->]]; [done|lia|lia|done|done|].
    apply z_column_pivoted; done || lia.
  - by intros [= <-].
Qed.

Lemma z_column_built (A' : list Qc) (b : list (list Qc)) (c : list Qc) :
  Forall (λ row, (length row ≤ length A' + length b)%nat) b →
  z_column_intact (length b) (length A' + length b + 2)
    (grid (length b + 1) (length A' + length b + 2) (built A' b c)).
Proof.
  intros Hb. split_and!.
  - rewrite length_grid. lia.
  - apply rectangular_grid.
  - intros i Hi. rewrite entry_grid by lia. unfold built.
    replace (length A' + length b + 2 - 2)%nat
      with (length A' + length b)%nat by lia.
    destruct (decide (i = length b)) as [->|Hne].
    + rewrite decide_False by lia. by rewrite decide_True.
    + rewrite decide_True by lia.
      destruct (lookup_lt_is_Some_2 b i) as [row Hrow]; [lia|].
      pose proof (Forall_lookup_1 _ _ _ _ Hb Hrow) as Hlen. simpl in Hlen.
      rewrite Hrow. simpl.
      rewrite decide_False by lia. rewrite decide_False by lia.
      by rewrite decide_False by lia.
Qed.

Lemma not_optimal_false_nonnegative (t : tableau) :
  not_optimal t = Returned false → Forall (λ x, 0 ≤ x) (scanned t).
Proof.
  unfold not_optimal, scanned, objective_row, getitem_neg.
  case_decide as Hlen; [|done].
  destruct (lookup_lt_is_Some_2 t (length t - 1)) as [obj Hobj]; [lia|].
  rewrite (getitem_Some _ _ _ Hobj), Hobj. simpl.
  destruct (take (length obj - 2) obj) as [|x l] eqn:Hl; [done|].
  destruct (py_min_spec ltb ltb_irrefl ltb_trans (x :: l) x)
    as (m & -> & _ & Hleast); [apply list_elem_of_here|].
  simpl. intros [= Hm]. apply ltb_false in Hm.
  apply Forall_forall. intros y Hy%list_elem_of_In.
  apply Hleast, ltb_false in Hy. by apply (Qcle_trans _ m).
Qed.

(** X14.  What a returned tableau guarantees.  When no constraint row
    given to [simplex_w_counts] is longer than the number of variables plus
    the number of constraints, then whatever [func] and the strategy name
    are, a tableau it returns has one row per constraint and one more, every
    row has two columns more than there are variables and constraints, its
    Z column still is 0 in every constraint row and 1 in the objective row,
    and no entry of the objective row outside the last two columns is
    negative. *)
Theorem returned_tableau_is_optimal_with_z_column (fuel : nat)
    (A : list Qc) (b : list (list Qc)) (c : list Qc) (func matrix : string)
    (s : solver_state) :
  Forall (λ row, (length row ≤ length A + length b)%nat) b →
  outcome (simplex_w_counts fuel A b c func matrix) = Done (Returned s) →
  z_column_intact (length b) (length A + length b + 2) (st_tableau s) ∧
  Forall (λ x, 0 ≤ x) (scanned (st_tableau s)).
Proof.
  intros Hb.
  destruct (simplex_w_counts_unfold fuel A b c func matrix) as [k0 ->].
  set (A' := if decide (func = "max") then Qcopp <$> A else A).
  assert (length A' = length A) as HA.
  { unfold A'. case_decide; [apply length_fmap|done]. }
  destruct (decide (length b ≤ length c)%nat) as [Hc|Hc].
  - pose proof (construct_simplex_tableau_closed A' b c Hc) as Hplain.
    rewrite HA in Hplain.
    assert (Forall (λ row, (length row ≤ length A + length b + 2)%nat) b)
      as Hb'.
    { eapply Forall_impl; [|exact Hb]. simpl. intros. lia. }
    specialize (Hplain Hb').
    destruct (erases_Returned _ _
      (eq_trans (construct_simplex_tableau_erases A'
                   (with_slack_columns b) c k0) Hplain)) as [k1 ->].
    intros Hloop.
    apply (while_Returned_inv
      (λ s, z_column_intact (length b) (length A + length b + 2)
              (st_tableau s))) in Hloop as [Hz Hopt].
    + split; [done|]. by apply not_optimal_false_nonnegative.
    + simpl. rewrite <- HA at 1 2. rewrite <- HA in Hb.
      replace (length A + length b + 2)%nat
        with (length A' + length b + 2)%nat by lia.
      by apply z_column_built.
    + intros s1 s2 Hz _. apply convergence_body_z_column; [lia|done].
  - pose proof (construct_simplex_tableau_short_bounds A' b c) as Hplain.
    rewrite (erases_Raised _ _
      (eq_trans (construct_simplex_tableau_erases A'
                   (with_slack_columns b) c k0) (Hplain ltac:(lia)))).
    done.
Qed.

Lemma returned_tableau_is_optimal_with_z_column_witness :
  z_column_intact 1 4
    [[num 1; num 1; num 0; num 5]; [num 0; num 1; num 1; num 5]] ∧
  Forall (λ x, 0 ≤ x)
    (scanned [[num 1; num 1; num 0; num 5]; [num 0; num 1; num 1; num 5]]).
Proof.
  destruct (outcome (simplex_w_counts 5 [num 1] [[num 1]] [num 5]
                       "max" "sparse")) as [[s|]|] eqn:Hd;
    [|by vm_compute in Hd..].
  assert (Some (st_tableau s) = Some [[num 1; num 1; num 0; num 5];
                                      [num 0; num 1; num 1; num 5]]) as H.
  { change (Some (st_tableau s)) with
      (match Done (Returned s) with
       | Done (Returned s0) => Some (st_tableau s0) | _ => None end).
    rewrite <- Hd. apply (bool_decide_unpack _). vm_compute. exact I. }
  injection H as <-.
  apply (returned_tableau_is_optimal_with_z_column 5 [num 1] [[num 1]]
           [num 5] "max" "sparse" s).
  - repeat constructor; simpl; lia.
  - exact Hd.
Defined.

(** * The input generators *)

(** ** [make_diagonal_zeros] *)

Lemma zero_cells_seq (b : list (list Qc)) (i : nat) (row : list Qc)
    (a n : nat) :
  b !! i = Some row →
  zero_cells i (seq a n) b
  = if decide (n = 0 ∨ a + n ≤ length row)%nat
    then Returned (<[i := imap (λ j x, if decide (a ≤ j < a + n)%nat
                                       then 0 else x) row]> b)
    else Raised IndexError.
Proof.
  revert a row b. induction n as [|n IH]; intros a row b Hrow.
  - rewrite decide_True by (by left). simpl. f_equal. symmetry.
    apply list_insert_id. rewrite Hrow. f_equal.
    rewrite (imap_ext _ (const id)); [by rewrite imap_const, list_fmap_id|].
    intros j x _. simpl. by rewrite decide_False by lia.
  - unfold zero_cells. cbn [seq for_each]. unfold set_cell at 1.
    rewrite (getitem_Some _ _ _ Hrow). simpl. unfold setitem.
    destruct (decide (a < length row)%nat) as [Ha|Ha]; simpl.
    + pose proof (lookup_lt_Some _ _ _ Hrow) as Hi.
      fold (zero_cells i (seq (S a) n) (<[i:=<[a:=0]> row]> b)).
      rewrite (IH (S a) (<[a:=0]> row))
        by (by apply list_lookup_insert_eq).
      rewrite length_insert, list_insert_insert_eq.
      destruct (decide (n = 0 ∨ S a + n ≤ length row)%nat) as [Hn|Hn].
      * rewrite decide_True by lia. do 2 f_equal.
        apply list_eq. intros j. rewrite !list_lookup_imap.
        destruct (decide (j = a)) as [->|Hja].
        -- rewrite list_lookup_insert_eq by done.
           destruct (lookup_lt_is_Some_2 row a Ha) as [x ->]. simpl.
           rewrite decide_False by lia. by rewrite decide_True by lia.
        -- rewrite list_lookup_insert_ne by done.
           destruct (row !! j) as [x|]; simpl; [|done].
           f_equal. apply decide_ext. lia.
      * by rewrite decide_False by lia.
    + by rewrite decide_False by lia.
Qed.

(** The cells of one row. *)
Lemma zero_cells_row (above : bool) (nv i : nat) (b : list (list Qc))
    (row : list Qc) :
  b !! i = Some row →
  zero_cells i (if above then range_from (i + 1) nv
                else range (i `min` nv)) b
  = if decide (zeroable above nv i row)
    then Returned (<[i := zeroed above nv i row]> b)
    else Raised IndexError.
Proof.
  intros Hrow. unfold zeroable, zeroed, range_from, range.
  destruct above; rewrite (zero_cells_seq b i row) by done.
  - destruct (decide (nv - (i + 1) = 0 ∨ i + 1 + (nv - (i + 1)) ≤ length row)%nat).
    + rewrite decide_True by lia. do 2 f_equal. apply imap_ext.
      intros j x _. simpl. apply decide_ext. lia.
    + by rewrite decide_False by lia.
  - destruct (decide (i `min` nv = 0 ∨ 0 + i `min` nv ≤ length row)%nat).
    + rewrite decide_True by lia. do 2 f_equal. apply imap_ext.
      intros j x _. simpl. apply decide_ext. lia.
    + by rewrite decide_False by lia.
Qed.

(** The rows [a], ..., [a + n - 1]. *)
Lemma zero_rows_seq (above : bool) (nv a n : nat) (b : list (list Qc)) :
  (a + n ≤ length b)%nat →
  for_each (seq a n)
    (λ i b, zero_cells i (if above then range_from (i + 1) nv
                          else range (i `min` nv)) b) b
  = if decide (Forall (λ i, zeroable above nv i (default [] (b !! i)))
                 (seq a n))
    then Returned (imap (λ i row, if decide (a ≤ i < a + n)%nat
                                  then zeroed above nv i row else row) b)
    else Raised IndexError.
Proof.
  revert a b. induction n as [|n IH]; intros a b Hlen.
  - cbn [seq for_each]. rewrite decide_True by constructor. f_equal.
    rewrite (imap_ext _ (const id)); [by rewrite imap_const, list_fmap_id|].
    intros j x _. simpl. by rewrite decide_False by lia.
  - cbn [seq for_each].
    destruct (lookup_lt_is_Some_2 b a) as [row Hrow]; [lia|].
    rewrite (zero_cells_row above nv a b row Hrow).
    destruct (decide (zeroable above nv a row)) as [Hok|Hok].
    + rewrite IH by (rewrite length_insert; lia).
      assert (Forall (λ i, zeroable above nv i
                (default [] (<[a:=zeroed above nv a row]> b !! i)))
                (seq (S a) n)
              ↔ Forall (λ i, zeroable above nv i (default [] (b !! i)))
                  (a :: seq (S a) n)) as Hiff.
      { split.
        - intros H. constructor; [by rewrite Hrow|].
          apply Forall_seq. intros j Hj.
          pose proof (proj1 (Forall_seq _ _ _) H j Hj) as Hj'. simpl in Hj'.
          by rewrite list_lookup_insert_ne in Hj' by lia.
        - intros [_ H]%Forall_cons_1. apply Forall_seq. intros j Hj.
          rewrite list_lookup_insert_ne by lia.
          by apply (proj1 (Forall_seq _ _ _) H). }
      rewrite (decide_ext _ _ _ _ Hiff).
      case_decide; [|done]. f_equal.
      apply list_eq. intros j. rewrite !list_lookup_imap.
      destruct (decide (j = a)) as [->|Hja].
      * rewrite list_lookup_insert_eq by lia. rewrite Hrow. simpl.
        rewrite decide_False by lia. by rewrite decide_True by lia.
      * rewrite list_lookup_insert_ne by done.
        destruct (b !! j) as [x|]; simpl; [|done].
        f_equal. apply decide_ext. lia.
    + rewrite decide_False; [done|].
      intros H%Forall_cons_1. destruct H as [H _]. by rewrite Hrow in H.
Qed.

(** What [make_diagonal_zeros] does, in closed form. *)
Lemma make_diagonal_zeros_closed (b : list (list Qc)) (above : bool) :
  make_diagonal_zeros b above
  = match b !! 0%nat with
    | None => Raised IndexError
    | Some row0 =>
        if decide (Forall (λ i, zeroable above (length row0) i
                                  (default [] (b !! i)))
                     (seq 0 (length b)))
        then Returned (imap (zeroed above (length row0)) b)
        else Raised IndexError
    end.
Proof.
  unfold make_diagonal_zeros, getitem.
  destruct (b !! 0%nat) as [row0|] eqn:Hrow0; simpl; [|done].
  pose proof (lookup_lt_Some _ _ _ Hrow0) as Hlen.
  destruct above.
  - unfold range. rewrite (zero_rows_seq true) by lia.
    case_decide; [|done]. f_equal. apply imap_ext.
    intros i row Hi%lookup_lt_Some. simpl. by rewrite decide_True by lia.
  - unfold range_from. rewrite (zero_rows_seq false) by lia.
    assert (Forall (λ i, zeroable false (length row0) i
                           (default [] (b !! i))) (seq 1 (length b - 1))
            ↔ Forall (λ i, zeroable false (length row0) i
                             (default [] (b !! i))) (seq 0 (length b)))
      as Hiff.
    { rewrite !Forall_seq. split.
      - intros H j Hj.
        destruct (decide (j = 0%nat)) as [->|Hj0]; [|apply H; lia].
        unfold zeroable. simpl. lia.
      - intros H j Hj. apply H. lia. }
    rewrite (decide_ext _ _ _ _ Hiff).
    case_decide; [|done]. f_equal. apply imap_ext.
    intros i row Hi. simpl. pose proof (lookup_lt_Some _ _ _ Hi).
    case_decide as Hi0; [done|].
    assert (i = 0)%nat as -> by lia.
    unfold zeroed. rewrite (imap_ext _ (const id));
      [by rewrite imap_const, list_fmap_id|].
    intros j x _. simpl. repeat case_decide; done || lia.
Qed.

Lemma length_zeroed (above : bool) (nv i : nat) (row : list Qc) :
  length (zeroed above nv i row) = length row.
Proof. unfold zeroed. apply length_imap. Qed.

Lemma cell_zeroed (above : bool) (nv i j : nat) (row : list Qc) :
  cell (zeroed above nv i row) j
  = if (if above then bool_decide (i < j < nv)%nat
        else bool_decide (j < i ∧ j < nv)%nat)
    then 0 else cell row j.
Proof.
  unfold cell, zeroed. rewrite list_lookup_imap.
  destruct (row !! j) as [x|]; simpl.
  - destruct above; case_decide.
    + by rewrite bool_decide_eq_true_2.
    + by rewrite bool_decide_eq_false_2.
    + by rewrite bool_decide_eq_true_2.
    + by rewrite bool_decide_eq_false_2.
  - by destruct above, (bool_decide _).
Qed.

Lemma entry_zeroed (above : bool) (nv i j : nat) (b : list (list Qc)) :
  entry (imap (zeroed above nv) b) i j
  = if (if above then bool_decide (i < j < nv)%nat
        else bool_decide (j < i ∧ j < nv)%nat)
    then 0 else entry b i j.
Proof.
  unfold entry. rewrite list_lookup_imap.
  destruct (b !! i) as [row|]; simpl; [apply cell_zeroed|].
  by destruct above, (bool_decide _).
Qed.

Lemma zeroed_idemp (above : bool) (nv i : nat) (row : list Qc) :
  zeroed above nv i (zeroed above nv i row) = zeroed above nv i row.
Proof.
  apply list_eq. intros j. unfold zeroed. rewrite !list_lookup_imap.
  destruct (row !! j) as [x|]; simpl; [|done].
  f_equal. destruct above; by repeat case_decide.
Qed.

Lemma rectangular_zeroed (above : bool) (nv ncols : nat)
    (b : list (list Qc)) :
  rectangular ncols b → rectangular ncols (imap (zeroed above nv) b).
Proof.
  intros Hrect. apply rectangular_lookup_iff. intros i row.
  rewrite list_lookup_imap.
  destruct (b !! i) as [row'|] eqn:Hi; [|done]. simpl. intros [= <-].
  rewrite length_zeroed. by eapply rectangular_lookup.
Qed.

(** On a matrix with rows of one length nothing can go wrong. *)
Lemma make_diagonal_zeros_rectangular (b : list (list Qc)) (ncols : nat)
    (above : bool) :
  rectangular ncols b → (0 < length b)%nat →
  make_diagonal_zeros b above = Returned (imap (zeroed above ncols) b).
Proof.
  intros Hrect Hlen. rewrite make_diagonal_zeros_closed.
  destruct (lookup_lt_is_Some_2 b 0 Hlen) as [row0 Hrow0].
  rewrite Hrow0, (rectangular_lookup _ _ _ _ Hrect Hrow0).
  rewrite decide_True; [done|].
  apply Forall_seq. intros i Hi.
  destruct (lookup_lt_is_Some_2 b i) as [row Hrow]; [lia|].
  rewrite Hrow. simpl. unfold zeroable.
  rewrite (rectangular_lookup _ _ _ _ Hrect Hrow). destruct above; lia.
Qed.

(** X15.  [make_diagonal_zeros] raises [IndexError] on an empty matrix
    (it reads [b[0]]).  Otherwise, with [nv] the length of the first row:
    if every row [i] has the cells it is to write (above the diagonal:
    [nv] entries whenever [i + 1 < nv]; below it: [min(i, nv)] entries), it
    returns the matrix with exactly those cells set to zero (above:
    [i < j < nv]; below: [j < min(i, nv)]) and every other cell as it was;
    if some row has not, it raises [IndexError]. *)
Theorem make_diagonal_zeros_outcome (b : list (list Qc)) (above : bool) :
  (b = [] → make_diagonal_zeros b above = Raised IndexError) ∧
  (∀ row0, b !! 0%nat = Some row0 →
     (∀ i row, b !! i = Some row → zeroable above (length row0) i row) →
     make_diagonal_zeros b above
     = Returned (imap (zeroed above (length row0)) b)) ∧
  (∀ row0 i row, b !! 0%nat = Some row0 → b !! i = Some row →
     ¬ zeroable above (length row0) i row →
     make_diagonal_zeros b above = Raised IndexError).
Proof.
  rewrite make_diagonal_zeros_closed. split_and!.
  - by intros ->.
  - intros row0 -> Hall. rewrite decide_True; [done|].
    apply Forall_seq. intros i Hi.
    destruct (lookup_lt_is_Some_2 b i) as [row Hrow]; [lia|].
    rewrite Hrow. by apply Hall.
  - intros row0 i row -> Hrow Hbad. rewrite decide_False; [done|].
    intros Hall. apply Hbad.
    pose proof (proj1 (Forall_seq _ _ _) Hall i) as Hi. simpl in Hi.
    rewrite Hrow in Hi. apply Hi.
    apply lookup_lt_Some in Hrow. lia.
Qed.

Lemma make_diagonal_zeros_outcome_witness :
  make_diagonal_zeros [[num 1; num 2; num 3]; [num 4; num 5; num 6]] true
  = Returned (imap (zeroed true 3)
                [[num 1; num 2; num 3]; [num 4; num 5; num 6]]).
Proof.
  apply (proj1 (proj2 (make_diagonal_zeros_outcome
           [[num 1; num 2; num 3]; [num 4; num 5; num 6]] true))
           [num 1; num 2; num 3]).
  - reflexivity.
  - intros [|[|i]] row Hrow; simpl in Hrow; [| |done];
      injection Hrow as <-; unfold zeroable; simpl; lia.
Defined.

(** X16.  Clearing above and then below the diagonal leaves the diagonal:
    on a non-empty matrix whose rows all have [ncols] entries both calls
    return, the shape is kept, and entry [(i, j)] of the result is the
    original entry when [i = j] and zero otherwise. *)
Theorem make_diagonal_zeros_both_sides (b : list (list Qc)) (ncols : nat) :
  rectangular ncols b → (0 < length b)%nat →
  ∃ b1 b2,
    make_diagonal_zeros b true = Returned b1 ∧
    make_diagonal_zeros b1 false = Returned b2 ∧
    length b2 = length b ∧ rectangular ncols b2 ∧
    ∀ i j, entry b2 i j = if decide (i = j) then entry b i j else 0.
Proof.
  intros Hrect Hlen.
  exists (imap (zeroed true ncols) b),
    (imap (zeroed false ncols) (imap (zeroed true ncols) b)).
  split_and!.
  - by apply make_diagonal_zeros_rectangular.
  - apply make_diagonal_zeros_rectangular.
    + by apply rectangular_zeroed.
    + by rewrite length_imap.
  - by rewrite !length_imap.
  - by do 2 apply rectangular_zeroed.
  - intros i j. rewrite !entry_zeroed.
    assert ((ncols ≤ j)%nat → entry b i j = 0) as Hout.
    { intros Hj. unfold entry.
      destruct (b !! i) as [row|] eqn:Hrow; simpl; [|done].
      unfold cell. rewrite lookup_ge_None_2; [done|].
      rewrite (rectangular_lookup _ _ _ _ Hrect Hrow). lia. }
    repeat case_bool_decide; case_decide; try done; try lia.
    apply Hout. lia.
Qed.

Lemma make_diagonal_zeros_both_sides_witness :
  ∃ b1 b2,
    make_diagonal_zeros [[num 1; num 2]; [num 3; num 4]] true
      = Returned b1 ∧
    make_diagonal_zeros b1 false = Returned b2 ∧
    length b2 = length [[num 1; num 2]; [num 3; num 4]] ∧
    rectangular 2 b2 ∧
    ∀ i j, entry b2 i j
           = if decide (i = j)
             then entry [[num 1; num 2]; [num 3; num 4]] i j else 0.
Proof.
  apply (make_diagonal_zeros_both_sides [[num 1; num 2]; [num 3; num 4]] 2).
  - repeat constructor.
  - simpl. lia.
Defined.

(** X17.  [make_diagonal_zeros] is idempotent on every matrix, rectangular
    or not: called again on a matrix it returned, with the same flag, it
    returns that matrix unchanged. *)
Theorem make_diagonal_zeros_idempotent (b b' : list (list Qc))
    (above : bool) :
  make_diagonal_zeros b above = Returned b' →
  make_diagonal_zeros b' above = Returned b'.
Proof.
  rewrite !make_diagonal_zeros_closed.
  destruct (b !! 0%nat) as [row0|] eqn:Hrow0; [|done].
  case_decide as Hall; [|done]. intros [= <-].
  rewrite list_lookup_imap, Hrow0. simpl. rewrite length_zeroed.
  rewrite decide_True.
  - f_equal. apply list_eq. intros i. rewrite !list_lookup_imap.
    destruct (b !! i) as [row|]; simpl; [|done].
    by rewrite zeroed_idemp.
  - rewrite length_imap. apply Forall_seq. intros i Hi.
    pose proof (proj1 (Forall_seq _ _ _) Hall i Hi) as Hok. simpl in Hok.
    rewrite list_lookup_imap.
    destruct (b !! i) as [row|]; simpl in *; [|done].
    unfold zeroable in *. rewrite length_zeroed. done.
Qed.

Lemma make_diagonal_zeros_idempotent_witness :
  make_diagonal_zeros [[num 1; num 0]; [num 3; num 4]] true
  = Returned [[num 1; num 0]; [num 3; num 4]].
Proof.
  apply (make_diagonal_zeros_idempotent [[num 1; num 2]; [num 3; num 4]]
           [[num 1; num 0]; [num 3; num 4]] true).
  apply (bool_decide_unpack _). vm_compute. exact I.
Defined.

(** ** [generate_geometric_simplex_input] *)

Lemma geometric_cells_closed (variables_n min_val max_val : Z) (i : nat) :
  for_each (range_to variables_n) (geometric_cell_body min_val max_val i)
    (replicate (Z.to_nat variables_n) min_val)
  = Returned ((λ j : nat, geometric_value min_val max_val (i + j))
              <$> range_to variables_n).
Proof.
  unfold range_to. set (n := Z.to_nat variables_n).
  destruct (for_range_ind
    (λ k row, length row = n ∧
              ∀ j, (j < k)%nat →
                   row !! j = Some (geometric_value min_val max_val (i + j)))
    n (geometric_cell_body min_val max_val i) (replicate n min_val))
    as (row & -> & Hlen & Hrow).
  - split; [apply length_replicate|]. intros j Hj. lia.
  - intros k row Hk [Hlen Hrow]. unfold geometric_cell_body, setitem.
    rewrite decide_True by lia. eexists. split; [done|]. split.
    + by rewrite length_insert.
    + intros j Hj. destruct (decide (j = k)) as [->|Hjk].
      * by rewrite list_lookup_insert_eq by lia.
      * rewrite list_lookup_insert_ne by done. apply Hrow. lia.
  - f_equal. apply list_eq. intros j. rewrite list_lookup_fmap.
    destruct (decide (j < n)%nat) as [Hj|Hj].
    + rewrite (Hrow j Hj). unfold range. by rewrite lookup_seq_lt.
    + rewrite lookup_ge_None_2 by lia. unfold range.
      by rewrite lookup_ge_None_2 by (rewrite length_seq; lia).
Qed.

(** The generator cannot fail, and returns the three clipped
    progressions. *)
Lemma generate_geometric_simplex_input_closed
    (inequalities_n variables_n min_val max_val : Z) :
  generate_geometric_simplex_input inequalities_n variables_n min_val max_val
  = Returned (geometric_objective variables_n min_val max_val,
              geometric_constraints inequalities_n variables_n min_val
                max_val,
              geometric_bounds variables_n min_val max_val).
Proof.
  unfold generate_geometric_simplex_input.
  change (range_to inequalities_n) with (range (Z.to_nat inequalities_n)).
  destruct (for_range_ind
    (λ k b, b = (λ i : nat, (λ j : nat, geometric_value min_val max_val
                                          (i + j))
                            <$> range_to variables_n) <$> range k)
    (Z.to_nat inequalities_n)
    (geometric_row_body variables_n min_val max_val) [])
    as (b & -> & ->).
  - done.
  - intros k b Hk ->. unfold geometric_row_body.
    rewrite geometric_cells_closed. eexists. split; [reflexivity|].
    cbv beta. by rewrite range_S, fmap_app.
  - done.
Qed.




(** X19.  The geometric generator and the solver do not fit together when
    there are more inequalities than variables: the generated [c] has only
    [variables_n] bounds, and both [simplex] and [simplex_w_counts] raise
    [IndexError] on the generated input while building the tableau,
    whatever [func], the strategy and the limits are. *)
Theorem geometric_input_with_more_inequalities_fails
    (inequalities_n variables_n min_val max_val : Z) (fuel : nat)
    (func matrix : string) :
  (variables_n < inequalities_n)%Z → (0 < inequalities_n)%Z →
  ∃ A b c,
    generate_geometric_simplex_input inequalities_n variables_n min_val
      max_val = Returned (A, b, c) ∧
    outcome (simplex fuel (as_numbers A) (as_number_rows b) (as_numbers c))
      = Done (Raised IndexError) ∧
    outcome (simplex_w_counts fuel (as_numbers A) (as_number_rows b)
               (as_numbers c) func matrix)
      = Done (Raised IndexError).
Proof.
  intros Hlt Hpos. rewrite generate_geometric_simplex_input_closed.
  eexists _, _, _. split; [done|].
  set (A := as_numbers _). set (b := as_number_rows _).
  set (c := as_numbers _).
  assert (length c < length b)%nat as Hshort.
  { unfold c, b, as_numbers, as_number_rows, geometric_bounds,
      geometric_constraints, range_to, range.
    rewrite !length_fmap, !length_seq. lia. }
  split.
  - unfold simplex. cbn [outcome]. rewrite add_slack_variables_closed.
    by rewrite construct_simplex_tableau_short_bounds.
  - destruct (simplex_w_counts_unfold fuel A b c func matrix) as [k0 ->].
    set (A' := if decide (func = "max") then _ else _).
    by rewrite (erases_Raised _ _
      (eq_trans (construct_simplex_tableau_erases A'
                   (with_slack_columns b) c k0)
                (construct_simplex_tableau_short_bounds A' b c Hshort))).
Qed.

Lemma geometric_input_with_more_inequalities_fails_witness :
  ∃ A b c,
    generate_geometric_simplex_input 3 2 1 1000 = Returned (A, b, c) ∧
    outcome (simplex 10 (as_numbers A) (as_number_rows b) (as_numbers c))
      = Done (Raised IndexError) ∧
    outcome (simplex_w_counts 10 (as_numbers A) (as_number_rows b)
               (as_numbers c) "max" "dense")
      = Done (Raised IndexError).
Proof.
  apply (geometric_input_with_more_inequalities_fails 3 2 1 1000 10
           "max" "dense"); lia.
Defined.

(** ** [generate_primes_in_range] *)

Lemma has_divisor_spec (i : Z) :
  (1 < i)%Z →
  has_divisor i = true ↔ ∃ j, (1 < j < i)%Z ∧ (j | i)%Z.
Proof.
  intros Hi. unfold has_divisor, range_Z, int_half.
  rewrite Z.quot_div_nonneg by lia.
  rewrite existsb_exists. split.
  - intros (j & Hj%list_elem_of_In%elem_of_seqZ & Hmod%Z.eqb_eq).
    exists j. split.
    + assert (i `div` 2 < i)%Z by (apply Z.div_lt; lia). lia.
    + apply Z.mod_divide; [lia|done].
  - intros (j & Hj & q & Hq). exists j. split.
    + apply list_elem_of_In, elem_of_seqZ.
      assert (2 ≤ q)%Z by nia.
      assert (j ≤ i `div` 2)%Z by (apply Z.div_le_lower_bound; nia).
      lia.
    + apply Z.eqb_eq, Z.mod_divide; [lia|]. by exists q.
Qed.

(** Trial division up to [i / 2] decides primality. *)
Lemma passes_trial_division_prime (i : Z) :
  passes_trial_division i = true ↔ Z.prime i.
Proof.
  unfold passes_trial_division, Z.prime.
  rewrite andb_true_iff, bool_decide_eq_true, negb_true_iff. split.
  - intros [Hi Hnone]. split; [done|]. intros n Hn Hdiv.
    apply not_true_iff_false in Hnone. apply Hnone.
    apply has_divisor_spec; [done|]. by exists n.
  - intros [Hi Hnone]. split; [done|].
    apply not_true_iff_false. intros (j & Hj & Hdiv)%has_divisor_spec;
      [|done].
    by apply (Hnone j).
Qed.

Lemma primes_loop_closed (acc l : list Z) :
  foldl primes_body acc l = acc ++ List.filter passes_trial_division l.
Proof.
  revert acc. induction l as [|i l IH]; intros acc; simpl.
  - by rewrite app_nil_r.
  - rewrite IH. unfold primes_body, passes_trial_division.
    case_bool_decide; simpl; [|done].
    destruct (has_divisor i); simpl; [done|]. by rewrite <- app_assoc.
Qed.

Lemma StronglySorted_seqZ (m n : Z) : StronglySorted Z.lt (seqZ m n).
Proof.
  remember (Z.to_nat n) as k eqn:Hk. revert m n Hk.
  induction k as [|k IH]; intros m n Hk.
  - rewrite seqZ_nil by lia. constructor.
  - rewrite seqZ_cons by lia. constructor.
    + apply IH. lia.
    + apply Forall_seqZ. intros. lia.
Qed.

Lemma StronglySorted_filter_bool {A} (R : A → A → Prop) (f : A → bool)
    (l : list A) :
  StronglySorted R l → StronglySorted R (List.filter f l).
Proof.
  induction 1 as [|x l Hl IH Hx]; simpl; [constructor|].
  destruct (f x); [|done]. constructor; [done|].
  apply Forall_forall. intros y [Hy _]%filter_In.
  by apply (proj1 (Forall_forall _ _) Hx).
Qed.

(** X20.  When no file for [max_val] exists (and [max_val] is below
    [2^53], where [i / 2] is exact), [generate_primes_in_range] returns
    exactly the prime numbers [p] with [min_val <= p < max_val], in
    increasing order, and writes that list to the file for [max_val];
    [max_val] itself is never in the list. *)
Theorem generate_primes_in_range_correct (fs : files) (min_val max_val : Z) :
  fs !! max_val = None → (max_val ≤ 2 ^ 53)%Z →
  ∃ primes,
    generate_primes_in_range fs min_val max_val
      = (primes, <[max_val := primes]> fs) ∧
    (∀ p, p ∈ primes ↔ (min_val ≤ p < max_val)%Z ∧ Z.prime p) ∧
    StronglySorted Z.lt primes ∧
    max_val ∉ primes.
Proof.
  intros Hnew _. unfold generate_primes_in_range. rewrite Hnew.
  rewrite primes_loop_closed. simpl. eexists. split; [done|].
  assert (∀ p, p ∈ List.filter passes_trial_division
                     (range_Z min_val max_val)
               ↔ (min_val ≤ p < max_val)%Z ∧ Z.prime p) as Hmem.
  { intros p. rewrite list_elem_of_In, filter_In, <- list_elem_of_In.
    unfold range_Z. rewrite elem_of_seqZ, passes_trial_division_prime.
    split; intros [? ?]; split; done || lia. }
  split_and!; [done| |].
  - apply StronglySorted_filter_bool, StronglySorted_seqZ.
  - intros [? _]%Hmem. lia.
Qed.

Lemma generate_primes_in_range_correct_witness :
  ∃ primes,
    generate_primes_in_range ∅ 2 7 = (primes, <[7%Z := primes]> ∅) ∧
    (∀ p, p ∈ primes ↔ (2 ≤ p < 7)%Z ∧ Z.prime p) ∧
    StronglySorted Z.lt primes ∧
    7%Z ∉ primes.
Proof.
  apply (generate_primes_in_range_correct ∅ 2 7).
  - reflexivity.
  - vm_compute. discriminate.
Defined.

(** X21.  The file cache is keyed on [max_val] alone: once
    [generate_primes_in_range] has been called for some [max_val], a later
    call with the same [max_val] returns the list of the first call and
    leaves the files alone, whatever its [min_val] is. *)
Theorem generate_primes_in_range_cache_ignores_min_val (fs : files)
    (min_val min_val' max_val : Z) :
  generate_primes_in_range
    (generate_primes_in_range fs min_val max_val).2 min_val' max_val
  = generate_primes_in_range fs min_val max_val.
Proof.
  unfold generate_primes_in_range, files in *.
  destruct (fs !! max_val) as [primes|] eqn:Hfs; simpl.
  - by rewrite Hfs.
  - by rewrite lookup_insert_eq.
Qed.

(** ** [generate_pseudoprimes_in_range] *)

Lemma pseudoprimes_loop (min_val max_val : Z) (fuel : nat) (x : Z)
    (acc : list Z) :
  (0 ≤ x)%Z → (Z.to_nat (max_val - 40 - x) ≤ fuel)%nat →
  ∃ x' l,
    while fuel (pseudoprimes_cond max_val) (pseudoprimes_body min_val)
      (x, acc) = Done (Returned (x', acc ++ l)) ∧
    ∀ p, p ∈ l ↔ (min_val ≤ p ≤ max_val)%Z ∧
                  ∃ y, (x ≤ y)%Z ∧ p = pseudoprime y.
Proof.
  revert x acc. induction fuel as [|fuel IH]; intros x acc Hx Hfuel.
  - exists x, []. simpl. unfold pseudoprimes_cond. simpl.
    assert (max_val < pseudoprime x)%Z as Hstop
      by (unfold pseudoprime; nia).
    rewrite bool_decide_eq_true_2 by done. simpl.
    split; [by rewrite app_nil_r|].
    intros p. split; [by intros ?%elem_of_nil|].
    intros [Hp (y & Hy & ->)]. unfold pseudoprime in *. nia.
  - cbn [while]. unfold pseudoprimes_cond at 1. cbn [fst].
    case_bool_decide as Hstop; cbn [negb].
    + exists x, []. split; [by rewrite app_nil_r|].
      intros p. split; [by intros ?%elem_of_nil|].
      intros [Hp (y & Hy & ->)]. unfold pseudoprime in *. nia.
    + destruct (IH (x + 1)%Z
                  (if bool_decide (min_val ≤ pseudoprime x)%Z
                   then acc ++ [pseudoprime x] else acc))
        as (x' & l & Hloop & Hl); [lia| |].
      { unfold pseudoprime in Hstop. nia. }
      unfold pseudoprimes_body at 1. cbv beta iota zeta. rewrite Hloop.
      exists x', ((if bool_decide (min_val ≤ pseudoprime x)%Z
                   then [pseudoprime x] else []) ++ l).
      split.
      * case_bool_decide; by rewrite <- ?app_assoc.
      * intros p. rewrite elem_of_app, Hl. split.
        -- intros [Hp|[Hp (y & Hy & ->)]].
           ++ case_bool_decide; [|by apply elem_of_nil in Hp].
              apply list_elem_of_singleton in Hp as ->.
              split; [lia|]. exists x. split; [lia|done].
           ++ split; [done|]. exists y. split; [lia|done].
        -- intros [Hp (y & Hy & ->)].
           destruct (decide (y = x)) as [->|Hne].
           ++ left. rewrite bool_decide_eq_true_2 by lia.
              apply list_elem_of_singleton. done.
           ++ right. split; [done|]. exists y. split; [lia|done].
Qed.

(** X22.  When no file for [max_val] exists, [generate_pseudoprimes_in_range]
    leaves its loop after at most [max_val] iterations, and returns (and
    writes to the file for [max_val]) exactly the values [x^2 + x + 41],
    [x >= 0], that lie between [min_val] and [max_val], both included; in
    particular nothing below 41. *)
Theorem generate_pseudoprimes_in_range_correct (fuel : nat) (fs : files)
    (min_val max_val : Z) :
  fs !! max_val = None → (Z.to_nat max_val ≤ fuel)%nat →
  ∃ l,
    generate_pseudoprimes_in_range fuel fs min_val max_val
      = Done (Returned (l, <[max_val := l]> fs)) ∧
    (∀ p, p ∈ l ↔ (min_val ≤ p ≤ max_val)%Z ∧
                   ∃ x, (0 ≤ x)%Z ∧ p = (x ^ 2 + x + 41)%Z) ∧
    Forall (λ p, (41 ≤ p)%Z) l.
Proof.
  intros Hnew Hfuel. unfold generate_pseudoprimes_in_range. rewrite Hnew.
  destruct (pseudoprimes_loop min_val max_val fuel 0 [])
    as (x' & l & -> & Hl); [lia|lia|].
  simpl. exists l. split_and!; [done|done|].
  apply Forall_forall. intros p Hp%list_elem_of_In.
  apply Hl in Hp as [_ (y & Hy & ->)]. unfold pseudoprime. nia.
Qed.

Lemma generate_pseudoprimes_in_range_correct_witness :
  ∃ l,
    generate_pseudoprimes_in_range 50 ∅ 42 50
      = Done (Returned (l, <[50%Z := l]> ∅)) ∧
    (∀ p, p ∈ l ↔ (42 ≤ p ≤ 50)%Z ∧
                   ∃ x, (0 ≤ x)%Z ∧ p = (x ^ 2 + x + 41)%Z) ∧
    Forall (λ p, (41 ≤ p)%Z) l.
Proof.
  apply (generate_pseudoprimes_in_range_correct 50 ∅ 42 50).
  - reflexivity.
  - vm_compute. lia.
Defined.
